(** * baseDNN: registry, autograd rules, optimizers and the WebGPU backend

    A shallow embedding of the parts of baseDNN that its specification makes
    claims about, followed by the proofs of these claims.

    The definitions come first, one module for each source file:
    - [Registry]: the string-keyed hash table of [core/src/registry.c], the
      operation registry with backend priorities and the layer, tensor
      operation and optimizer registries;
    - [Autograd]: tensors on a heap that is updated in place, and the
      gradient rules of relu, sigmoid, tanh and softmax, of add, sub and
      mul, and of the three losses;
    - [Optim]: [optimizer_create] of [core/src/optimizer.c] and the SGD and
      Adam steps of the registry file;
    - [WebGPU]: the session singleton of [webgpu_backend.c] with its bounded
      poll loops and its read back, and of [webgpu_ops.c] the guards of the
      accelerated operations and the dispatch parameters of softmax.

    The facts follow in [RegistryFacts], [AutogradFacts], [OptimFacts] and
    [WebGPUFacts].

    Single-precision arithmetic is kept abstract: the development is
    parametric in the carrier [F] of [float] values and in its operations, so
    what is proved holds whatever the machine arithmetic does; exact integer
    arithmetic is the instance used to run the code on examples, and IEEE
    754 arithmetic the one used where infinities and NaN matter. Every
    access that C leaves undefined is an explicit failure of the model. *)

From Stdlib Require Import ZArith Lia.
From Stdlib Require Floats.PrimFloat.
From stdpp Require Import base option list strings gmap.

Local Open Scope Z_scope.

(* ===================================================================== *)
(** * The registry hash table *)
(* ===================================================================== *)

Module Registry.

(** [#define REGISTRY_SIZE 64] *)
Definition REGISTRY_SIZE : nat := 64.

(** Wrap-around of [unsigned int]. *)
Definition u32 (z : Z) : Z := z mod 2 ^ 32.

(** A key is the byte content of a C string before its terminator. [int c =
    *str++] reads a [char], which is signed on the targets of the project. *)
Definition char_val (a : Ascii.ascii) : Z :=
  let n := Z.of_N (Ascii.N_of_ascii a) in if n <? 128 then n else n - 256.

(** The body of the [while] loop of [hash]:
    [hash = ((hash << 5) + hash) + c]. *)
Fixpoint hash_loop (h : Z) (str : string) : Z :=
  match str with
  | EmptyString => h
  | String c str' =>
      hash_loop (u32 (u32 (u32 (Z.shiftl h 5) + h) + u32 (char_val c))) str'
  end.

Definition hash (str : string) : nat :=
  Z.to_nat (hash_loop 5381 str mod Z.of_nat REGISTRY_SIZE).

Section Table.
Context {V : Type}.

(** A bucket is the chain of [RegistryEntry] cells, head first. *)
Record Registry := { buckets : list (list (string * V)) }.

(** [static Registry r = {{NULL}}]: every bucket is empty. *)
Definition registry_empty : Registry :=
  {| buckets := replicate REGISTRY_SIZE [] |}.

(** The walk of [registry_get] along one chain. *)
Fixpoint chain_get (key : string) (entry : list (string * V)) : option V :=
  match entry with
  | [] => None
  | (k, v) :: next => if decide (k = key) then Some v else chain_get key next
  end.

(** The walk of [registry_set] along one chain: [Some] of the chain with the
    value overwritten in place when the key is met, [None] when the end of
    the chain is reached. *)
Fixpoint chain_overwrite (key : string) (value : V) (entry : list (string * V))
  : option (list (string * V)) :=
  match entry with
  | [] => None
  | (k, v) :: next =>
      if decide (k = key) then Some ((k, value) :: next)
      else cons (k, v) <$> chain_overwrite key value next
  end.

Definition bucket (reg : Registry) (idx : nat) : list (string * V) :=
  default [] (buckets reg !! idx).

Definition registry_set (reg : Registry) (key : string) (value : V) : Registry :=
  let idx := hash key in
  let entry := bucket reg idx in
  match chain_overwrite key value entry with
  | Some entry' => {| buckets := <[idx := entry']> (buckets reg) |}
  | None => {| buckets := <[idx := (key, value) :: entry]> (buckets reg) |}
  end.

Definition registry_get (reg : Registry) (key : string) : option V :=
  chain_get key (bucket reg (hash key)).

(** [registry_free]: every chain is released and the bucket reset. *)
Definition registry_free (reg : Registry) : Registry :=
  {| buckets := replicate REGISTRY_SIZE [] |}.

(** The array has exactly [REGISTRY_SIZE] buckets. *)
Definition registry_wf (reg : Registry) : Prop :=
  length (buckets reg) = REGISTRY_SIZE.

End Table.
Arguments Registry : clear implicits.

(** ** Operation registry (with backend priority) *)

Section Operations.
Context {OpFn : Type}.

(** A function pointer may be null: [None]. *)
Record OperationRegistryEntry := {
  op_fn : option OpFn;
  priority : Z
}.

Definition register_operation_backend
    (reg : Registry OperationRegistryEntry) (name : string)
    (fn : option OpFn) (prio : Z) : Registry OperationRegistryEntry :=
  let existing := registry_get reg name in
  let replace :=
    match existing with
    | None => true
    | Some e => bool_decide (prio > priority e)
    end in
  if replace then registry_set reg name {| op_fn := fn; priority := prio |}
  else reg.

Definition register_operation
    (reg : Registry OperationRegistryEntry) (name : string) (fn : option OpFn) :=
  register_operation_backend reg name fn 0.

Definition get_operation_fn
    (reg : Registry OperationRegistryEntry) (name : string) : option OpFn :=
  match registry_get reg name with
  | Some entry => op_fn entry
  | None => None
  end.

(** A history of registrations, applied in order to a registry. *)
Definition run_registrations
    (calls : list (string * option OpFn * Z))
    (reg : Registry OperationRegistryEntry) : Registry OperationRegistryEntry :=
  foldl (fun r c => register_operation_backend r c.1.1 c.1.2 c.2) reg calls.

End Operations.
Arguments OperationRegistryEntry : clear implicits.

(** ** Optimizer registry *)

Section Optimizers.
Context {InitFn StepFn FreeFn : Type}.

Record OptimizerRegistryEntry := {
  init_state_fn : option InitFn;
  step_fn : option StepFn;
  free_state_fn : option FreeFn
}.

Definition register_optimizer (reg : Registry OptimizerRegistryEntry)
    (name : string) (i : option InitFn) (s : option StepFn) (f : option FreeFn) :=
  registry_set reg name
    {| init_state_fn := i; step_fn := s; free_state_fn := f |}.

Definition get_optimizer_init_state_fn
    (reg : Registry OptimizerRegistryEntry) (name : string) : option InitFn :=
  match registry_get reg name with Some e => init_state_fn e | None => None end.

Definition get_optimizer_step_fn
    (reg : Registry OptimizerRegistryEntry) (name : string) : option StepFn :=
  match registry_get reg name with Some e => step_fn e | None => None end.

Definition get_optimizer_free_state_fn
    (reg : Registry OptimizerRegistryEntry) (name : string) : option FreeFn :=
  match registry_get reg name with Some e => free_state_fn e | None => None end.

End Optimizers.
Arguments OptimizerRegistryEntry : clear implicits.


(** ** Vocabulary of the statements *)

Section OperationSpec.
Context {OpFn : Type}.
Implicit Types (calls : list (string * option OpFn * Z)).

(** What the table holds for [name] after a history of registrations: the
    earliest registration among those of the greatest priority. *)
Definition winner calls (name : string) (o : option (OperationRegistryEntry OpFn)) : Prop :=
  match o with
  | None => ∀ i f p, calls !! i ≠ Some (name, f, p)
  | Some e =>
      ∃ i, calls !! i = Some (name, op_fn e, priority e) ∧
        ∀ j f p, calls !! j = Some (name, f, p) →
          p ≤ priority e ∧ ((j < i)%nat → p < priority e)
  end.

End OperationSpec.

(** ** Layer registry and tensor operation registry *)

Section Layers.
Context {CreateFn ForwardFn : Type}.

Record LayerRegistryEntry := {
  create_fn : option CreateFn;
  forward_fn : option ForwardFn
}.

Definition register_layer (reg : Registry LayerRegistryEntry)
    (name : string) (c : option CreateFn) (f : option ForwardFn) :=
  registry_set reg name {| create_fn := c; forward_fn := f |}.

Definition get_layer_create_fn
    (reg : Registry LayerRegistryEntry) (name : string) : option CreateFn :=
  match registry_get reg name with Some e => create_fn e | None => None end.

Definition get_layer_forward_fn
    (reg : Registry LayerRegistryEntry) (name : string) : option ForwardFn :=
  match registry_get reg name with Some e => forward_fn e | None => None end.

End Layers.
Arguments LayerRegistryEntry : clear implicits.

Section TensorOps.
Context {BackwardFn : Type}.

(** The value of an entry is the function pointer itself, which may be
    null. *)
Definition register_tensor_op (reg : Registry (option BackwardFn))
    (name : string) (backward_fn : option BackwardFn) :=
  registry_set reg name backward_fn.

Definition get_tensor_op_backward_fn
    (reg : Registry (option BackwardFn)) (name : string) : option BackwardFn :=
  match registry_get reg name with Some value => value | None => None end.

End TensorOps.

(** ** Vocabulary of the statements on histories of [registry_set] *)

Section HistorySpec.
Context {V : Type}.

(** A history of [registry_set] calls, applied in order. *)
Definition run_sets (sets : list (string * V)) (reg : Registry V) : Registry V :=
  foldl (λ r kv, registry_set r kv.1 kv.2) reg sets.

(** Every cell of the table, bucket after bucket. *)
Definition entries (reg : Registry V) : list (string * V) :=
  concat (buckets reg).

(** The value of the latest call for [key] in a history. *)
Definition latest (key : string) (sets : list (string * V)) : option V :=
  snd <$> last (filter (λ kv, kv.1 = key) sets).

(** Every chain holds a key once, in the bucket of its hash. *)
Definition chains_ok (reg : Registry V) : Prop :=
  ∀ idx chain, buckets reg !! idx = Some chain →
    NoDup chain.*1 ∧ ∀ k, k ∈ chain.*1 → hash k = idx.

End HistorySpec.

Section OrderSpec.
Context {OpFn : Type}.

(** The registrations of [name] that carry its greatest priority all
    carry one function. *)
Definition top_agree (calls : list (string * option OpFn * Z)) (name : string) : Prop :=
  ∀ f p f' p',
    (name, f, p) ∈ calls → (name, f', p') ∈ calls → p = p' →
    (∀ f'' p'', (name, f'', p'') ∈ calls → p'' ≤ p) → f = f'.

End OrderSpec.

End Registry.

(* ===================================================================== *)
(** * Tensors and the activation gradient rules *)
(* ===================================================================== *)

Module Autograd.

(** The operations of [float] that the code uses. The carrier and the
    operations are parameters of everything below. *)
Class FloatOps (F : Type) := {
  f0 : F;                       (* 0.0f *)
  f1 : F;                       (* 1.0f *)
  fadd : F → F → F;
  fsub : F → F → F;
  fmul : F → F → F;
  fdiv : F → F → F;
  fgt : F → F → bool;           (* x > y *)
  fsqrt : F → F;                (* sqrtf *)
  fpowi : F → Z → F             (* powf (x, (float) n) *)
}.

(** Laws of an exact arithmetic, used only to read the rules as sums. *)
Record ExactLaws (F : Type) `{FloatOps F} : Prop := {
  fmul_1_r : ∀ x, fmul x f1 = x;
  fmul_0_r : ∀ x, fmul x f0 = f0;
  fadd_0_r : ∀ x, fadd x f0 = x;
  fadd_0_l : ∀ x, fadd f0 x = x;
  fadd_assoc : ∀ x y z, fadd x (fadd y z) = fadd (fadd x y) z
}.

(** Addresses of tensors; a null pointer is [None]. *)
Abbreviation ptr := nat (only parsing).

Section Tensors.
Context {F : Type} `{FloatOps F}.

(** [struct Tensor]. The buffers of an owner tensor are its own: [data] has
    [size] cells, [grad] is null or has [size] cells. *)
Record Tensor := {
  data : list F;
  grad : option (list F);
  shape : list nat;             (* ndim is its length *)
  size : nat;
  requires_grad : bool;
  op_name : option string;
  inputs : list ptr             (* num_inputs is its length *)
}.

Definition ndim (t : Tensor) : nat := length (shape t).

Definition set_grad (t : Tensor) (g : option (list F)) : Tensor :=
  {| data := data t; grad := g; shape := shape t; size := size t;
     requires_grad := requires_grad t; op_name := op_name t;
     inputs := inputs t |}.

Definition set_data (t : Tensor) (d : list F) : Tensor :=
  {| data := d; grad := grad t; shape := shape t; size := size t;
     requires_grad := requires_grad t; op_name := op_name t;
     inputs := inputs t |}.

(** The tensors that are live, by address. Every access that C leaves
    undefined (a null or dangling pointer, an index past a buffer) is
    [None]. *)
Abbreviation heap := (gmap nat Tensor) (only parsing).

(** [p->data[i]] *)
Definition load_data (h : heap) (p : ptr) (i : nat) : option F :=
  t ← h !! p; data t !! i.

(** [p->grad[i]] *)
Definition load_grad (h : heap) (p : ptr) (i : nat) : option F :=
  t ← h !! p; g ← grad t; g !! i.

(** [p->grad[i] = v] *)
Definition store_grad (h : heap) (p : ptr) (i : nat) (v : F) : option heap :=
  t ← h !! p; g ← grad t;
  if decide (i < length g)%nat
  then Some (<[p := set_grad t (Some (<[i := v]> g))]> h)
  else None.

(** [p->data[i] = v] *)
Definition store_data (h : heap) (p : ptr) (i : nat) (v : F) : option heap :=
  t ← h !! p;
  if decide (i < length (data t))%nat
  then Some (<[p := set_data t (<[i := v]> (data t))]> h)
  else None.

(** [if (!p->grad) p->grad = (float * ) calloc (p->size, sizeof (float))] *)
Definition ensure_grad (h : heap) (p : ptr) : option heap :=
  t ← h !! p;
  match grad t with
  | Some _ => Some h
  | None => Some (<[p := set_grad t (Some (replicate (size t) f0))]> h)
  end.

(** [for (size_t i = start; i < start + count; i++) body], on the heap. *)
Fixpoint for_loop (body : nat → heap → option heap)
    (start count : nat) (h : heap) : option heap :=
  match count with
  | O => Some h
  | S count' => h' ← body start h; for_loop body (S start) count' h'
  end.

(** The shape shared by the four rules: [Z = A->inputs[0]], and when [Z]
    requires gradients its buffer is allocated on demand and [step] runs
    with the size of [Z]. *)
Definition backward_unary (step : ptr → ptr → nat → heap → option heap)
    (A : ptr) (h : heap) : option heap :=
  tA ← h !! A;
  Z ← inputs tA !! 0%nat;
  tZ ← h !! Z;
  if requires_grad tZ then
    h1 ← ensure_grad h Z;
    step A Z (size tZ) h1
  else Some h.

(** [Z->grad[i] += A->grad[i] * (Z->data[i] > 0 ? 1.0f : 0.0f)] *)
Definition relu_body (A Z : ptr) (i : nat) (h : heap) : option heap :=
  ga ← load_grad h A i;
  zd ← load_data h Z i;
  gz ← load_grad h Z i;
  store_grad h Z i (fadd gz (fmul ga (if fgt zd f0 then f1 else f0))).

Definition backward_relu (A : ptr) (h : heap) : option heap :=
  backward_unary (λ A Z n, for_loop (relu_body A Z) 0 n) A h.

(** [float sig = A->data[i]; Z->grad[i] += A->grad[i] * sig * (1.0f - sig)] *)
Definition sigmoid_body (A Z : ptr) (i : nat) (h : heap) : option heap :=
  sig ← load_data h A i;
  ga ← load_grad h A i;
  gz ← load_grad h Z i;
  store_grad h Z i (fadd gz (fmul (fmul ga sig) (fsub f1 sig))).

Definition backward_sigmoid (A : ptr) (h : heap) : option heap :=
  backward_unary (λ A Z n, for_loop (sigmoid_body A Z) 0 n) A h.

(** [float t = A->data[i]; Z->grad[i] += A->grad[i] * (1.0f - t * t)] *)
Definition tanh_body (A Z : ptr) (i : nat) (h : heap) : option heap :=
  t ← load_data h A i;
  ga ← load_grad h A i;
  gz ← load_grad h Z i;
  store_grad h Z i (fadd gz (fmul ga (fsub f1 (fmul t t)))).

Definition backward_tanh (A : ptr) (h : heap) : option heap :=
  backward_unary (λ A Z n, for_loop (tanh_body A Z) 0 n) A h.

(** [float delta = (i == j) ? 1.0f : 0.0f;
     Z->grad[i] += A->grad[j] * A->data[j] * (delta - A->data[i])] *)
Definition softmax_body (A Z : ptr) (i j : nat) (h : heap) : option heap :=
  let delta := if decide (i = j) then f1 else f0 in
  ga ← load_grad h A j;
  aj ← load_data h A j;
  ai ← load_data h A i;
  gz ← load_grad h Z i;
  store_grad h Z i (fadd gz (fmul (fmul ga aj) (fsub delta ai))).

(** Both loops of [backward_softmax] run over [Z->size]. *)
Definition backward_softmax (A : ptr) (h : heap) : option heap :=
  backward_unary
    (λ A Z n, for_loop (λ i, for_loop (softmax_body A Z i) 0 n) 0 n) A h.

(** Buffers have the length the tensor announces. *)
Definition tensor_wf (t : Tensor) : Prop :=
  length (data t) = size t ∧ ∀ g, grad t = Some g → length g = size t.

End Tensors.
Arguments Tensor : clear implicits.

(** ** Vocabulary of the statements *)

Section RuleSpec.
Context {F : Type} `{FloatOps F}.
Implicit Types (h : gmap nat (Tensor F)) (t : Tensor F) (g : list F).

(** The heap in which the gradient buffer of [Z] holds [g]. *)
Definition with_grad h (Z : nat) t g : gmap nat (Tensor F) :=
  <[Z := set_grad t (Some g)]> h.

(** [l] read at [i], for stating results. *)
Definition at0 (l : list F) (i : nat) : F := default f0 (l !! i).

(** The buffer after a loop that rewrites the cells [start .. start+count)
    one after the other, cell [i] becoming [val i] of its content. *)
Fixpoint upd_range (val : nat → F → F) (start count : nat) g : list F :=
  match count with
  | O => g
  | S count' => upd_range val (S start) count' (alter (val start) start g)
  end.

(** [A] is the output of a one-input operation on [Z]: a tensor of its own,
    with its gradient [gA] filled in, of at least the size of [Z], and [Z]
    requires gradients. *)
Definition unary_node h (A Z : nat) (tA tZ : Tensor F) (gA : list F) : Prop :=
  h !! A = Some tA ∧ inputs tA !! 0%nat = Some Z ∧ h !! Z = Some tZ ∧
  A ≠ Z ∧ requires_grad tZ = true ∧ grad tA = Some gA ∧
  (size tZ ≤ length gA)%nat ∧ (size tZ ≤ length (data tA))%nat ∧
  (∀ g, grad tZ = Some g → length g = size tZ).

(** The gradient of [Z] on entry, zeros when it is not allocated yet. *)
Definition grad_in (tZ : Tensor F) : list F :=
  default (replicate (size tZ) f0) (grad tZ).

(** The buffer a rule of the pointwise kind leaves in [Z]. *)
Definition rule_result (val : nat → F → F) (tZ : Tensor F) : list F :=
  upd_range val 0 (size tZ) (grad_in tZ).

Definition relu_mask (zd : F) : F := if fgt zd f0 then f1 else f0.

Definition sigmoid_val (gA dA : list F) (i : nat) (x : F) : F :=
  fadd x (fmul (fmul (at0 gA i) (at0 dA i)) (fsub f1 (at0 dA i))).

Definition tanh_val (gA dA : list F) (i : nat) (x : F) : F :=
  fadd x (fmul (at0 gA i) (fsub f1 (fmul (at0 dA i) (at0 dA i)))).

(** The term that iteration [(i, j)] adds into [Z.grad[i]]. *)
Definition softmax_term (gA dA : list F) (i j : nat) : F :=
  fmul (fmul (at0 gA j) (at0 dA j))
       (fsub (if decide (i = j) then f1 else f0) (at0 dA i)).

(** Left-to-right accumulation of the terms [term j] into [x]. *)
Definition accumulate (term : nat → F) (x : F) (js : list nat) : F :=
  foldl (λ acc j, fadd acc (term j)) x js.

(** The sum of a list, for the exact reading. *)
Definition fsum (l : list F) : F := foldr fadd f0 l.

End RuleSpec.

(** Exact integer arithmetic as an instance, for running the rules. *)
Definition Z_ops : FloatOps Z :=
  {| f0 := 0; f1 := 1; fadd := Z.add; fsub := Z.sub; fmul := Z.mul;
     fdiv := Z.div; fgt := Z.gtb; fsqrt := Z.sqrt; fpowi := Z.pow |}.


(** ** The rules of the two-input operations and of the losses *)

(** The further operations of [float] that the loss rules use. *)
Class LossOps (F : Type) := {
  f2 : F;                       (* 2.0f *)
  of_size : nat → F;            (* (float) of a size_t *)
  fneg : F → F;                 (* -x *)
  flog : F → F                  (* logf *)
}.

Section TwoInputs.
Context {F : Type} `{FloatOps F} `{LossOps F}.

(** The part of a rule for one operand [X]:
    [if (X->requires_grad) { if (!X->grad) X->grad = calloc (..);
       for (size_t i = 0; i < X->size; i++) body }]. *)
Definition grad_pass (body : nat → gmap nat (Tensor F) → option (gmap nat (Tensor F)))
    (X : nat) (h : gmap nat (Tensor F)) : option (gmap nat (Tensor F)) :=
  tX ← h !! X;
  if requires_grad tX then
    h1 ← ensure_grad h X;
    for_loop body 0 (size tX) h1
  else Some h.

(** [A = C->inputs[0]; B = C->inputs[1]], then the part for [A], then the
    part for [B]. *)
Definition backward_binary
    (body_a body_b : nat → nat → nat → nat → gmap nat (Tensor F) → option (gmap nat (Tensor F)))
    (C : nat) (h : gmap nat (Tensor F)) : option (gmap nat (Tensor F)) :=
  tC ← h !! C;
  A ← inputs tC !! 0%nat;
  B ← inputs tC !! 1%nat;
  h1 ← grad_pass (body_a C A B) A h;
  grad_pass (body_b C A B) B h1.

(** [X->grad[i] += C->grad[i]] *)
Definition add_cell (C X : nat) (i : nat) (h : gmap nat (Tensor F)) :=
  gc ← load_grad h C i;
  gx ← load_grad h X i;
  store_grad h X i (fadd gx gc).

(** [X->grad[i] -= C->grad[i]] *)
Definition sub_cell (C X : nat) (i : nat) (h : gmap nat (Tensor F)) :=
  gc ← load_grad h C i;
  gx ← load_grad h X i;
  store_grad h X i (fsub gx gc).

(** [X->grad[i] += C->grad[i] * Y->data[i]] *)
Definition mul_cell (C X Y : nat) (i : nat) (h : gmap nat (Tensor F)) :=
  gc ← load_grad h C i;
  y ← load_data h Y i;
  gx ← load_grad h X i;
  store_grad h X i (fadd gx (fmul gc y)).

Definition backward_add (C : nat) (h : gmap nat (Tensor F)) :=
  backward_binary (λ C A B, add_cell C A) (λ C A B, add_cell C B) C h.

Definition backward_sub (C : nat) (h : gmap nat (Tensor F)) :=
  backward_binary (λ C A B, add_cell C A) (λ C A B, sub_cell C B) C h.

Definition backward_mul (C : nat) (h : gmap nat (Tensor F)) :=
  backward_binary (λ C A B, mul_cell C A B) (λ C A B, mul_cell C B A) C h.

(** [predictions->grad[i] +=
      (2.0f / predictions->size) * (predictions->data[i] - targets->data[i])
      * L->grad[0]], and the same with [-=] and [targets->size] for the
    targets; [X] is the operand written. *)
Definition mse_term (L P T X : nat) (i : nat) (h : gmap nat (Tensor F)) : option F :=
  tX ← h !! X;
  p ← load_data h P i;
  t ← load_data h T i;
  gl ← load_grad h L 0;
  Some (fmul (fmul (fdiv f2 (of_size (size tX))) (fsub p t)) gl).

Definition mse_cell_p (L P T : nat) (i : nat) (h : gmap nat (Tensor F)) :=
  c ← mse_term L P T P i h;
  gx ← load_grad h P i;
  store_grad h P i (fadd gx c).

Definition mse_cell_t (L P T : nat) (i : nat) (h : gmap nat (Tensor F)) :=
  c ← mse_term L P T T i h;
  gx ← load_grad h T i;
  store_grad h T i (fsub gx c).

Definition backward_mse (L : nat) (h : gmap nat (Tensor F)) :=
  backward_binary mse_cell_p mse_cell_t L h.

(** [predictions->grad[i] += (-targets->data[i] / predictions->data[i]) * L->grad[0]] *)
Definition ce_cell_p (L P T : nat) (i : nat) (h : gmap nat (Tensor F)) :=
  t ← load_data h T i;
  p ← load_data h P i;
  gl ← load_grad h L 0;
  gx ← load_grad h P i;
  store_grad h P i (fadd gx (fmul (fdiv (fneg t) p) gl)).

(** [targets->grad[i] -= (-logf (predictions->data[i])) * L->grad[0]] *)
Definition ce_cell_t (L P T : nat) (i : nat) (h : gmap nat (Tensor F)) :=
  p ← load_data h P i;
  gl ← load_grad h L 0;
  gx ← load_grad h T i;
  store_grad h T i (fsub gx (fmul (fneg (flog p)) gl)).

Definition backward_cross_entropy (L : nat) (h : gmap nat (Tensor F)) :=
  backward_binary ce_cell_p ce_cell_t L h.

(** [predictions->grad[i] +=
      (-(targets->data[i] / predictions->data[i])
       + (1.0f - targets->data[i]) / (1.0f - predictions->data[i])) * L->grad[0]] *)
Definition bce_cell_p (L P T : nat) (i : nat) (h : gmap nat (Tensor F)) :=
  t ← load_data h T i;
  p ← load_data h P i;
  gl ← load_grad h L 0;
  gx ← load_grad h P i;
  store_grad h P i
    (fadd gx (fmul (fadd (fneg (fdiv t p)) (fdiv (fsub f1 t) (fsub f1 p))) gl)).

(** [targets->grad[i] -=
      (-logf (predictions->data[i]) + -logf (1.0f - predictions->data[i]))
      * L->grad[0]] *)
Definition bce_cell_t (L P T : nat) (i : nat) (h : gmap nat (Tensor F)) :=
  p ← load_data h P i;
  gl ← load_grad h L 0;
  gx ← load_grad h T i;
  store_grad h T i
    (fsub gx (fmul (fadd (fneg (flog p)) (fneg (flog (fsub f1 p)))) gl)).

Definition backward_binary_cross_entropy (L : nat) (h : gmap nat (Tensor F)) :=
  backward_binary bce_cell_p bce_cell_t L h.

(** [C] is the output of a two-input operation on [A] and [B]: a tensor of
    its own whose gradient [gC] is filled in; the gradient buffers that exist
    have the size of their tensor. *)
Definition binary_node (h : gmap nat (Tensor F)) (C A B : nat)
    (tC tA tB : Tensor F) (gC : list F) : Prop :=
  h !! C = Some tC ∧ inputs tC !! 0%nat = Some A ∧ inputs tC !! 1%nat = Some B ∧
  h !! A = Some tA ∧ h !! B = Some tB ∧ A ≠ C ∧ B ≠ C ∧
  grad tC = Some gC ∧
  (∀ g, grad tA = Some g → length g = size tA) ∧
  (∀ g, grad tB = Some g → length g = size tB).

(** What a pass over [tX] with the cell update [val] leaves in its gradient
    when the tensor requires gradients, and the tensor as it is otherwise. *)
Definition pass_result (val : nat → F → F) (tX : Tensor F) : Tensor F :=
  if requires_grad tX then set_grad tX (Some (rule_result val tX)) else tX.

(** [tX'] is [tX] after a pass with the cell update [val]: when [tX]
    requires gradients only its gradient buffer differs, it has the size of
    the tensor and every cell is [val] of the cell on entry (zero when the
    buffer was null); otherwise nothing differs. *)
Definition updated (val : nat → F → F) (tX tX' : Tensor F) : Prop :=
  if requires_grad tX then
    ∃ g', tX' = set_grad tX (Some g') ∧ length g' = size tX ∧
      ∀ i, (i < size tX)%nat → g' !! i = Some (val i (at0 (grad_in tX) i))
  else tX' = tX.

End TwoInputs.

(** ** Concrete tensors, in exact integer arithmetic *)

(** The input of [TEST(backward_relu)], scaled to integers, at address 0. *)
Definition relu_in : Tensor Z :=
  {| data := [-4; -1; 0; 3]; grad := None; shape := [4%nat]; size := 4;
     requires_grad := true; op_name := None; inputs := [] |}.

(** Its relu at address 1, with an upstream gradient. *)
Definition relu_out : Tensor Z :=
  {| data := [0; 0; 0; 3]; grad := Some [5; 7; 11; 13]; shape := [4%nat];
     size := 4; requires_grad := true; op_name := Some "relu"%string;
     inputs := [0%nat] |}.

Definition relu_heap : gmap nat (Tensor Z) := {[ 0%nat := relu_in; 1%nat := relu_out ]}.

(** A 2 x 3 tensor at address 0 and a tensor of the same shape standing
    for its softmax at address 1; only the first cell of the second row of
    the upstream gradient is not zero. *)
Definition softmax_in : Tensor Z :=
  {| data := [1; 2; 3; 1; 1; 1]; grad := Some [0; 0; 0; 0; 0; 0];
     shape := [2%nat; 3%nat]; size := 6; requires_grad := true;
     op_name := None; inputs := [] |}.

Definition softmax_out : Tensor Z :=
  {| data := [1; 2; 3; 4; 5; 6]; grad := Some [0; 0; 0; 1; 0; 0];
     shape := [2%nat; 3%nat]; size := 6; requires_grad := true;
     op_name := Some "softmax"%string; inputs := [0%nat] |}.

Definition softmax_heap : gmap nat (Tensor Z) :=
  {[ 0%nat := softmax_in; 1%nat := softmax_out ]}.


(** Integer stand-ins for the operations of the loss rules. *)
Definition Z_loss_ops : LossOps Z :=
  {| f2 := 2; of_size := Z.of_nat; fneg := Z.opp; flog := Z.log2 |}.

(** Two operands at 0 and 1 (as in [TEST(backward_mul)], the second with a
    gradient already), their product at 2, the product of the first with
    itself at 3 and a loss of the two at 4. *)
Definition operand (d : list Z) (g : option (list Z)) : Tensor Z :=
  {| data := d; grad := g; shape := [length d]; size := length d;
     requires_grad := true; op_name := None; inputs := [] |}.

Definition result (d g : list Z) (op : string) (ins : list nat) : Tensor Z :=
  {| data := d; grad := Some g; shape := [length d]; size := length d;
     requires_grad := true; op_name := Some op; inputs := ins |}.

Definition binary_heap : gmap nat (Tensor Z) :=
  {[ 0%nat := operand [2; 3] None;
     1%nat := operand [4; 5] (Some [10; 20]);
     2%nat := result [8; 15] [1; 7] "mul" [0%nat; 1%nat];
     3%nat := result [4; 9] [1; 7] "mul" [0%nat; 0%nat];
     4%nat := result [13] [3] "mse" [0%nat; 1%nat] ]}.
(** ** IEEE 754 arithmetic *)

(** The operations of the machine's floating-point unit. The primitive
    floats are binary64 where C's [float] is binary32; the two formats treat
    infinities, NaN and the signs of zero alike, which is all that is read
    off this instance. [powf] has no primitive: the power by repeated
    products stands in for it and is used by no gradient rule. *)
Definition Float_ops : FloatOps PrimFloat.float :=
  {| f0 := PrimFloat.zero; f1 := PrimFloat.one;
     fadd := PrimFloat.add; fsub := PrimFloat.sub;
     fmul := PrimFloat.mul; fdiv := PrimFloat.div;
     fgt := λ x y, PrimFloat.ltb y x;
     fsqrt := PrimFloat.sqrt;
     fpowi := λ x n, Z.iter n (PrimFloat.mul x) PrimFloat.one |}.

(** A relu input [(-1, 0, 2)] at address 0 and its relu at address 1, whose
    upstream gradient is [(+inf, -inf, 2)]. *)
Definition relu_inf_in : Tensor PrimFloat.float :=
  {| data := [PrimFloat.opp PrimFloat.one; PrimFloat.zero; PrimFloat.two];
     grad := None; shape := [3%nat]; size := 3;
     requires_grad := true; op_name := None; inputs := [] |}.

Definition relu_inf_out : Tensor PrimFloat.float :=
  {| data := [PrimFloat.zero; PrimFloat.zero; PrimFloat.two];
     grad := Some [PrimFloat.infinity; PrimFloat.neg_infinity; PrimFloat.two];
     shape := [3%nat]; size := 3;
     requires_grad := true; op_name := Some "relu"; inputs := [0%nat] |}.

Definition relu_inf_heap : gmap nat (Tensor PrimFloat.float) :=
  {[ 0%nat := relu_inf_in; 1%nat := relu_inf_out ]}.

End Autograd.

(* ===================================================================== *)
(** * Optimizers *)
(* ===================================================================== *)

Module Optim.
Import Registry Autograd.

(** ** [optimizer_create] *)

Section Create.
(** Function pointers are kept abstract; [call_init] is the call
    [init_fn (parameters, num_parameters, config.params)], which may return a
    null state and may allocate. The world [W] is whatever the call can
    change. *)
Context {InitFn StepFn FreeFn State Params W : Type}.
Variable call_init : InitFn → list nat → nat → Params → W → option State * W.

Record OptimizerConfig := {
  name : string;
  params : Params
}.

(** [struct Optimizer]; [zero_grad] is always [optimizer_zero_grad] and is
    left out. *)
Record Optimizer := {
  opt_name : string;
  parameters : list nat;
  num_parameters : nat;
  step : StepFn;
  free_state : FreeFn;
  state : State
}.

(** [parameters] is the array of tensor pointers, [None] when null;
    [malloc_ok] tells whether [malloc (sizeof (Optimizer))] succeeds. The
    result is the returned pointer, [None] for null. *)
Definition optimizer_create
    (reg : Registry (OptimizerRegistryEntry InitFn StepFn FreeFn))
    (parameters : option (list nat)) (num_parameters : nat)
    (config : OptimizerConfig) (malloc_ok : bool) (w : W)
  : option Optimizer * W :=
  match parameters with
  | None => (None, w)
  | Some ps =>
      if decide (num_parameters = 0%nat) then (None, w) else
      let init_fn := get_optimizer_init_state_fn reg (name config) in
      let step_fn := get_optimizer_step_fn reg (name config) in
      let free_fn := get_optimizer_free_state_fn reg (name config) in
      match init_fn, step_fn, free_fn with
      | Some init_fn, Some step_fn, Some free_fn =>
          if malloc_ok then
            match call_init init_fn ps num_parameters (params config) w with
            | (Some st, w') =>
                (Some {| opt_name := name config; parameters := ps;
                         num_parameters := num_parameters; step := step_fn;
                         free_state := free_fn; state := st |}, w')
            | (None, w') => (None, w')
            end
          else (None, w)
      | _, _, _ => (None, w)
      end
  end.

End Create.
Arguments OptimizerConfig : clear implicits.
Arguments Optimizer : clear implicits.

(** The optimizer registry after [registry_init], function pointers written
    as the names of the functions. *)
Definition builtin_optimizers : Registry (OptimizerRegistryEntry string string string) :=
  let reg := register_optimizer registry_empty "sgd"
               (Some "sgd_init_state") (Some "sgd_step") (Some "sgd_free_state") in
  register_optimizer reg "adam"
    (Some "adam_init_state") (Some "adam_step") (Some "adam_free_state").

(** ** The SGD and Adam steps *)

Section Steps.
Context {F : Type} `{FloatOps F}.

Record SGDState := {
  learning_rate : F;
  momentum : F;
  velocity : option (list nat)        (* Tensor **velocity, null without momentum *)
}.

Record AdamState := {
  adam_learning_rate : F;
  beta1 : F;
  beta2 : F;
  epsilon : F;
  t : Z;                              (* int t *)
  m : list nat;
  v : list nat
}.

(** [state->velocity[i]] *)
Definition velocity_at (st : SGDState) (i : nat) : option nat :=
  vs ← velocity st; vs !! i.

(** Body of the inner loop with momentum:
    [velocity[i]->data[j] = momentum * velocity[i]->data[j]
                            - learning_rate * param->grad[j];
     param->data[j] += velocity[i]->data[j]] *)
Definition sgd_momentum_body (st : SGDState) (i param j : nat)
    (h : gmap nat (Tensor F)) : option (gmap nat (Tensor F)) :=
  vel ← velocity_at st i;
  vj ← load_data h vel j;
  gj ← load_grad h param j;
  h1 ← store_data h vel j (fsub (fmul (momentum st) vj) (fmul (learning_rate st) gj));
  pj ← load_data h1 param j;
  vj' ← load_data h1 vel j;
  store_data h1 param j (fadd pj vj').

(** Body of the inner loop without momentum:
    [param->data[j] -= learning_rate * param->grad[j]] *)
Definition sgd_plain_body (st : SGDState) (param j : nat)
    (h : gmap nat (Tensor F)) : option (gmap nat (Tensor F)) :=
  pj ← load_data h param j;
  gj ← load_grad h param j;
  store_data h param j (fsub pj (fmul (learning_rate st) gj)).

(** Body of the loop over the parameters; [continue] when the gradient
    buffer is null. *)
Definition sgd_param_body (parameters : list nat) (st : SGDState) (i : nat)
    (h : gmap nat (Tensor F)) : option (gmap nat (Tensor F)) :=
  param ← parameters !! i;
  tP ← h !! param;
  match grad tP with
  | None => Some h
  | Some _ =>
      if fgt (momentum st) f0
      then for_loop (sgd_momentum_body st i param) 0 (size tP) h
      else for_loop (sgd_plain_body st param) 0 (size tP) h
  end.

Definition sgd_step (parameters : list nat) (num_parameters : nat)
    (st : SGDState) (h : gmap nat (Tensor F)) : option (gmap nat (Tensor F)) :=
  for_loop (sgd_param_body parameters st) 0 num_parameters h.

(** Body of the inner loop of [adam_step]. *)
Definition adam_body (st : AdamState) (bias_correction1 bias_correction2 : F)
    (i param j : nat) (h : gmap nat (Tensor F)) : option (gmap nat (Tensor F)) :=
  mi ← m st !! i;
  vi ← v st !! i;
  mj ← load_data h mi j;
  gj ← load_grad h param j;
  h1 ← store_data h mi j
         (fadd (fmul (beta1 st) mj) (fmul (fsub f1 (beta1 st)) gj));
  vj ← load_data h1 vi j;
  gj1 ← load_grad h1 param j;
  h2 ← store_data h1 vi j
         (fadd (fmul (beta2 st) vj) (fmul (fmul (fsub f1 (beta2 st)) gj1) gj1));
  mj2 ← load_data h2 mi j;
  vj2 ← load_data h2 vi j;
  let m_hat := fdiv mj2 bias_correction1 in
  let v_hat := fdiv vj2 bias_correction2 in
  pj ← load_data h2 param j;
  store_data h2 param j
    (fsub pj (fdiv (fmul (adam_learning_rate st) m_hat)
                   (fadd (fsqrt v_hat) (epsilon st)))).

Definition adam_param_body (parameters : list nat) (st : AdamState)
    (bias_correction1 bias_correction2 : F) (i : nat)
    (h : gmap nat (Tensor F)) : option (gmap nat (Tensor F)) :=
  param ← parameters !! i;
  tP ← h !! param;
  match grad tP with
  | None => Some h
  | Some _ =>
      for_loop (adam_body st bias_correction1 bias_correction2 i param)
        0 (size tP) h
  end.

(** [state->t += 1] on an [int]: overflow is undefined. *)
Definition INT_MAX : Z := 2 ^ 31 - 1.

Definition adam_step (parameters : list nat) (num_parameters : nat)
    (st : AdamState) (h : gmap nat (Tensor F))
  : option (AdamState * gmap nat (Tensor F)) :=
  if decide (t st < INT_MAX) then
    let st' := {| adam_learning_rate := adam_learning_rate st;
                  beta1 := beta1 st; beta2 := beta2 st; epsilon := epsilon st;
                  t := t st + 1; m := m st; v := v st |} in
    let bias_correction1 := fsub f1 (fpowi (beta1 st') (t st')) in
    let bias_correction2 := fsub f1 (fpowi (beta2 st') (t st')) in
    h' ← for_loop
           (adam_param_body parameters st' bias_correction1 bias_correction2)
           0 num_parameters h;
    Some (st', h')
  else None.

(** The state tensors that belong to parameter [i]. *)
Definition sgd_slots (st : SGDState) (i : nat) : list nat :=
  match velocity_at st i with Some p => [p] | None => [] end.

Definition adam_slots (st : AdamState) (i : nat) : list nat :=
  match m st !! i with Some p => [p] | None => [] end ++
  match v st !! i with Some p => [p] | None => [] end.

(** The state tensors were created by the optimizer for itself: none of
    them is a parameter, and the slots of two parameters do not meet. *)
Definition slots_separate (parameters : list nat) (slots : nat → list nat) : Prop :=
  ∀ i x, x ∈ slots i →
    (x ∉ parameters) ∧ (∀ j, j ≠ i → x ∉ slots j).

End Steps.
Arguments SGDState : clear implicits.
Arguments AdamState : clear implicits.

(** ** Vocabulary of the statements *)

Section StepSpec.
Context {F : Type} `{FloatOps F}.

(** A piece of code [c] writes only the data buffers of the tensors in
    [mods]: every gradient pointer and every other tensor is as before. *)
Definition writes_only
    (c : gmap nat (Tensor F) → option (gmap nat (Tensor F))) (mods : list nat) : Prop :=
  ∀ h h', c h = Some h' →
    (∀ q, grad <$> h' !! q = grad <$> h !! q) ∧
    (∀ x, x ∉ mods → h' !! x = h !! x).

(** What one iteration of a loop over the parameters does: it reads
    [parameters[i]], keeps every gradient pointer, does nothing at all when
    the gradient of the parameter is null, and otherwise writes only the
    parameter and its slots. *)
Definition param_body_spec
    (body : nat → gmap nat (Tensor F) → option (gmap nat (Tensor F)))
    (parameters : list nat) (slots : nat → list nat) : Prop :=
  ∀ i h h', body i h = Some h' →
    ∃ p tP, parameters !! i = Some p ∧ h !! p = Some tP ∧
      (∀ q, grad <$> h' !! q = grad <$> h !! q) ∧
      (grad tP = None → h' = h) ∧
      (∀ x, x ≠ p → x ∉ slots i → h' !! x = h !! x).

(** [tX'] is [tX] with the first [n] cells of its data buffer rewritten,
    cell [j] becoming [val j] of its content; nothing else of the tensor
    differs. *)
Definition data_updated (n : nat) (val : nat → F → F) (tX tX' : Tensor F) : Prop :=
  ∃ d', tX' = set_data tX d' ∧ length d' = length (data tX) ∧
    (∀ j, (j < n)%nat → d' !! j = Some (val j (at0 (data tX) j))) ∧
    (∀ j, (n ≤ j)%nat → d' !! j = data tX !! j).

(** The tensors iteration [i] of a step may write: the parameter and its
    state tensors; and those of a whole step over [n] parameters. *)
Definition touched (parameters : list nat) (slots : nat → list nat) (i : nat) : list nat :=
  option_list (parameters !! i) ++ slots i.

Definition step_cells (parameters : list nat) (slots : nat → list nat) (n : nat)
  : list nat :=
  concat (touched parameters slots <$> seq 0 n).

(** Parameter [i] can be stepped on [h]: it is live, and when it has a
    gradient buffer, that buffer and its data buffer hold [size] cells, it
    has its [k] state tensors, and they are live and hold as many cells. *)
Definition param_ready (h : gmap nat (Tensor F)) (parameters : list nat)
    (slots : nat → list nat) (k i : nat) : Prop :=
  ∃ p tP, parameters !! i = Some p ∧ h !! p = Some tP ∧
    ∀ g, grad tP = Some g →
      (size tP ≤ length g)%nat ∧ (size tP ≤ length (data tP))%nat ∧
      length (slots i) = k ∧
      ∀ s, s ∈ slots i → ∃ tS, h !! s = Some tS ∧ (size tP ≤ length (data tS))%nat.

(** The cells of one Adam update, from the cells read. *)
Definition adam_m_cell (st : AdamState F) (mj gj : F) : F :=
  fadd (fmul (beta1 st) mj) (fmul (fsub f1 (beta1 st)) gj).

Definition adam_v_cell (st : AdamState F) (vj gj : F) : F :=
  fadd (fmul (beta2 st) vj) (fmul (fmul (fsub f1 (beta2 st)) gj) gj).

Definition adam_p_cell (st : AdamState F) (pj m' v' : F) : F :=
  let bias_correction1 := fsub f1 (fpowi (beta1 st) (t st)) in
  let bias_correction2 := fsub f1 (fpowi (beta2 st) (t st)) in
  fsub pj (fdiv (fmul (adam_learning_rate st) (fdiv m' bias_correction1))
                (fadd (fsqrt (fdiv v' bias_correction2)) (epsilon st))).

(** [state->t += 1] *)
Definition adam_tick (st : AdamState F) : AdamState F :=
  {| adam_learning_rate := adam_learning_rate st;
     beta1 := beta1 st; beta2 := beta2 st; epsilon := epsilon st;
     t := t st + 1; m := m st; v := v st |}.

End StepSpec.

(** ** Concrete tensors and states, in exact integer arithmetic *)

Definition plain (d : list Z) (g : option (list Z)) : Tensor Z :=
  {| data := d; grad := g; shape := [length d]; size := length d;
     requires_grad := true; op_name := None; inputs := [] |}.

(** Two parameters, the first without a gradient buffer (as in
    [TEST(optimizer_step_without_gradients)]), and at 2..5 the state tensors
    of the optimizer. *)
Definition step_heap : gmap nat (Tensor Z) :=
  {[ 0%nat := plain [10; 20] None;
     1%nat := plain [100; 200] (Some [1; 2]);
     2%nat := plain [7; 7] None; 3%nat := plain [0; 0] None;
     4%nat := plain [9; 9] None; 5%nat := plain [0; 0] None ]}.

Definition sgd_state : SGDState Z :=
  {| learning_rate := 3; momentum := 2; velocity := Some [2%nat; 3%nat] |}.

Definition sgd_plain_state : SGDState Z :=
  {| learning_rate := 3; momentum := 0; velocity := None |}.

Definition adam_state : AdamState Z :=
  {| adam_learning_rate := 3; beta1 := 2; beta2 := 2; epsilon := 1; t := 0;
     m := [2%nat; 3%nat]; v := [4%nat; 5%nat] |}.

End Optim.

(* ===================================================================== *)
(** * The WebGPU backend *)
(* ===================================================================== *)

Module WebGPU.
Import Registry Autograd.

(** ** Session singleton and bounded poll loops *)

(** [WebGPUContext]: opaque handles, null as [None], and the [int] flag. *)
Record WebGPUContext := {
  instance : option nat;
  adapter : option nat;
  device : option nat;
  queue : option nat;
  initialized : Z
}.

(** [static WebGPUContext g_webgpu_ctx = {NULL, NULL, NULL, NULL, 0}] *)
Definition g_webgpu_ctx : WebGPUContext :=
  {| instance := None; adapter := None; device := None; queue := None;
     initialized := 0 |}.

(** An asynchronous request as the program sees it: the callback runs once
    [fires_after] calls of [wgpuInstanceProcessEvents] have been made (0: it
    ran inside the request, [None]: it never runs), and hands over [granted]
    (null unless the status is success). *)
Record Async := {
  fires_after : option nat;
  granted : option nat
}.

(** The [done] flag after [polls] calls of [wgpuInstanceProcessEvents]. *)
Definition done_flag (a : Async) (polls : nat) : bool :=
  match fires_after a with
  | Some n => bool_decide (n ≤ polls)%nat
  | None => false
  end.

(** [while (!done && timeout < budget) { wgpuInstanceProcessEvents (..);
    timeout++; }] with [remaining = budget - timeout]; the value is the
    counter on exit. *)
Fixpoint poll_loop (a : Async) (remaining timeout : nat) : nat :=
  match remaining with
  | O => timeout
  | S remaining' =>
      if done_flag a timeout then timeout
      else poll_loop a remaining' (S timeout)
  end.

Definition poll (a : Async) (budget : nat) : nat := poll_loop a budget 0.

(** What the callback stored when the loop was left. *)
Definition stored (a : Async) (timeout : nat) : option nat :=
  if done_flag a timeout then granted a else None.

(** The message the callback prints on a status other than success. *)
Definition callback_log (a : Async) (timeout : nat) (msg : string) : list string :=
  if done_flag a timeout then
    match granted a with Some _ => [] | None => [msg] end
  else [].

(** The answers of the WebGPU implementation to [webgpu_init]. *)
Record InitEnv := {
  create_instance : option nat;       (* wgpuCreateInstance *)
  metal_adapter : Async;              (* request with backendType Metal *)
  fallback_adapter : Async;           (* request with backendType Undefined *)
  request_device : Async;             (* wgpuAdapterRequestDevice *)
  get_queue : option nat              (* wgpuDeviceGetQueue *)
}.

Definition set_instance (c : WebGPUContext) (x : option nat) : WebGPUContext :=
  {| instance := x; adapter := adapter c; device := device c; queue := queue c;
     initialized := initialized c |}.
Definition set_adapter (c : WebGPUContext) (x : option nat) : WebGPUContext :=
  {| instance := instance c; adapter := x; device := device c; queue := queue c;
     initialized := initialized c |}.
Definition set_device (c : WebGPUContext) (x : option nat) : WebGPUContext :=
  {| instance := instance c; adapter := adapter c; device := x; queue := queue c;
     initialized := initialized c |}.
Definition set_queue (c : WebGPUContext) (x : option nat) : WebGPUContext :=
  {| instance := instance c; adapter := adapter c; device := device c; queue := x;
     initialized := initialized c |}.
Definition set_initialized (c : WebGPUContext) (x : Z) : WebGPUContext :=
  {| instance := instance c; adapter := adapter c; device := device c;
     queue := queue c; initialized := x |}.

(** The second half of [webgpu_init], from the device request on; [c] has
    the instance and the adapter set. *)
Definition webgpu_init_device (env : InitEnv) (c : WebGPUContext) (log : list string)
  : Z * WebGPUContext * list string :=
  let device_timeout := poll (request_device env) 1000 in
  let log := log ++ callback_log (request_device env) device_timeout
                      "WebGPU device request failed" in
  if decide (1000 ≤ device_timeout)%nat then
    (-1, set_instance (set_adapter c None) None,
     log ++ ["Timeout waiting for device!"%string])
  else
    match stored (request_device env) device_timeout with
    | None =>
        (-1, set_instance (set_adapter c None) None,
         log ++ ["Failed to get WebGPU device"%string])
    | Some d =>
        let c := set_device c (Some d) in
        let c := set_queue c (get_queue env) in
        match queue c with
        | None =>
            (-1, set_instance (set_adapter (set_device c None) None) None,
             log ++ ["Failed to get WebGPU queue"%string])
        | Some _ => (0, set_initialized c 1, log)
        end
    end.

(** [int webgpu_init (void)]: the status, the context afterwards and what
    was written to [stderr] (the progress lines on [stdout] are left out). *)
Definition webgpu_init (env : InitEnv) (c : WebGPUContext)
  : Z * WebGPUContext * list string :=
  if decide (initialized c ≠ 0) then (0, c, [])
  else
    let c := set_instance c (create_instance env) in
    match instance c with
    | None => (-1, c, ["Failed to create WebGPU instance"%string])
    | Some _ =>
        let adapter_timeout := poll (metal_adapter env) 1000 in
        let log := callback_log (metal_adapter env) adapter_timeout
                     "WebGPU adapter request failed" in
        if decide (1000 ≤ adapter_timeout)%nat then
          (-1, set_instance c None, log ++ ["Timeout waiting for adapter!"%string])
        else
          match stored (metal_adapter env) adapter_timeout with
          | Some a => webgpu_init_device env (set_adapter c (Some a)) log
          | None =>
              let log := log ++
                ["Failed to get Metal adapter, trying without backend constraint..."%string] in
              let adapter_timeout := poll (fallback_adapter env) 1000 in
              let log := log ++ callback_log (fallback_adapter env) adapter_timeout
                                  "WebGPU adapter request failed" in
              if decide (1000 ≤ adapter_timeout)%nat then
                (-1, set_instance c None,
                 log ++ ["Timeout waiting for fallback adapter!"%string])
              else
                match stored (fallback_adapter env) adapter_timeout with
                | None =>
                    (-1, set_instance c None,
                     log ++ ["Failed to get any WebGPU adapter"%string])
                | Some a => webgpu_init_device env (set_adapter c (Some a)) log
                end
          end
    end.

Definition webgpu_cleanup (c : WebGPUContext) : WebGPUContext :=
  {| instance := None; adapter := None; device := None; queue := None;
     initialized := 0 |}.

Definition webgpu_available (c : WebGPUContext) : Z := initialized c.

(** ** Implementations to run the session against *)

(** An implementation that grants everything at the first poll. *)
Definition granting : InitEnv :=
  {| create_instance := Some 1%nat;
     metal_adapter := {| fires_after := Some 1%nat; granted := Some 2%nat |};
     fallback_adapter := {| fires_after := Some 1%nat; granted := Some 2%nat |};
     request_device := {| fires_after := Some 0%nat; granted := Some 3%nat |};
     get_queue := Some 4%nat |}.

Definition ready_ctx : WebGPUContext :=
  {| instance := Some 1%nat; adapter := Some 2%nat; device := Some 3%nat;
     queue := Some 4%nat; initialized := 1 |}.

(** An implementation whose adapter request is never answered. *)
Definition silent_adapter : InitEnv :=
  {| create_instance := Some 1%nat;
     metal_adapter := {| fires_after := None; granted := None |};
     fallback_adapter := {| fires_after := None; granted := None |};
     request_device := {| fires_after := None; granted := None |};
     get_queue := None |}.

(** The three timeout lines of [webgpu_init]. *)
Definition init_timeout_lines : list string :=
  ["Timeout waiting for adapter!"; "Timeout waiting for fallback adapter!";
   "Timeout waiting for device!"]%string.

(** One of the poll loops that [webgpu_init] runs exceeds its budget. *)
Definition init_exceeds (env : InitEnv) : Prop :=
  let t1 := poll (metal_adapter env) 1000 in
  let t2 := poll (fallback_adapter env) 1000 in
  let t3 := poll (request_device env) 1000 in
  (1000 ≤ t1)%nat ∨
  ((t1 < 1000)%nat ∧ stored (metal_adapter env) t1 = None ∧ (1000 ≤ t2)%nat) ∨
  ((t1 < 1000)%nat ∧ is_Some (stored (metal_adapter env) t1) ∧ (1000 ≤ t3)%nat) ∨
  ((t1 < 1000)%nat ∧ stored (metal_adapter env) t1 = None ∧ (t2 < 1000)%nat ∧
   is_Some (stored (fallback_adapter env) t2) ∧ (1000 ≤ t3)%nat).

(** What a request has handed over when its poll loop is left: [Some] of
    the handle (null as [None]) when the callback ran in fewer than [budget]
    polls, and [None] when the budget is exceeded. *)
Definition answered (a : Async) (budget : nat) : option (option nat) :=
  match fires_after a with
  | Some n => if decide (n < budget)%nat then Some (granted a) else None
  | None => None
  end.

(** The adapter the two requests of [webgpu_init] come to: the fallback
    request is made only after the Metal request was answered with no
    adapter. *)
Definition chosen_adapter (env : InitEnv) : option nat :=
  match answered (metal_adapter env) 1000 with
  | Some (Some a) => Some a
  | Some None =>
      match answered (fallback_adapter env) 1000 with
      | Some (Some a) => Some a
      | _ => None
      end
  | None => None
  end.

(** ** Reading a buffer back *)

(** The poll budget of the map, ten thousand. *)
Definition MAP_BUDGET : nat := 10 * 1000.

Section ReadBuffer.
Context {F : Type}.

(** The answers of the WebGPU implementation to one [webgpu_read_buffer]:
    when the map callback runs (it sets [done] whatever the status), and
    what [wgpuBufferGetConstMappedRange] returns. *)
Record ReadEnv := {
  map_fires_after : option nat;
  mapped_range : option (list F)
}.

Definition map_request (env : ReadEnv) : Async :=
  {| fires_after := map_fires_after env; granted := None |}.

(** [memcpy (data, mapped, size)], sizes counted in cells. *)
Definition memcpy (data mapped : list F) (size : nat) : list F :=
  take size mapped ++ drop size data.

(** [void webgpu_read_buffer (buffer, data, size)]: the content of [data]
    afterwards ([None] when the pointer is null) and what was written to
    [stderr]. Nothing is returned to the caller. *)
Definition webgpu_read_buffer (env : ReadEnv) (c : WebGPUContext)
    (buffer : option nat) (data : option (list F)) (size : nat)
  : option (list F) * list string :=
  match buffer, data with
  | Some _, Some d =>
      if decide (webgpu_available c = 0) then (data, [])
      else
        let map_timeout := poll (map_request env) MAP_BUDGET in
        if decide (MAP_BUDGET ≤ map_timeout)%nat then
          (data, ["Timeout waiting for buffer map!"%string])
        else
          match mapped_range env with
          | Some mapped => (Some (memcpy d mapped size), [])
          | None => (data, [])
          end
  | _, _ => (data, [])
  end.

End ReadBuffer.
Arguments ReadEnv : clear implicits.

(** ** Dispatch parameters of the softmax kernel *)

(** Conversion to [uint32_t]. *)
Definition to_u32 (z : Z) : Z := z mod 2 ^ 32.

(** [for (size_t i = 1; i < Z->ndim; i++) stride *= Z->shape[i]] on the
    dimensions after the first. *)
Definition stride_loop (stride : Z) (dims : list nat) : Z :=
  foldl (λ s d, to_u32 (s * Z.of_nat d)) stride dims.

(** [batch], [size] and [stride] as [webgpu_tensor_softmax] computes them
    for a shape of at least two dimensions; [None] where [stride /= batch]
    divides by zero. *)
Definition softmax_params (shape : list nat) : option (Z * Z * Z) :=
  match shape with
  | d0 :: rest =>
      let batch := to_u32 (Z.of_nat d0) in
      let size := to_u32 (Z.of_nat (List.last shape 0%nat)) in
      let stride := stride_loop size rest in
      if decide (batch = 0) then None
      else Some (batch, size, stride / batch)
  | [] => None
  end.

(** The cells that workgroup [batch_idx] of [SHADER_SOFTMAX] reads from
    [input] and writes to [output]: [offset + i] for [i < params.size], with
    [offset = batch_idx * params.stride]. *)
Definition workgroup_cells (size stride : Z) (batch_idx : nat) : list Z :=
  let offset := to_u32 (Z.of_nat batch_idx * stride) in
  (λ i, to_u32 (offset + Z.of_nat i)) <$> seq 0 (Z.to_nat size).

(** One workgroup per batch element:
    [wgpuComputePassEncoderDispatchWorkgroups (pass, batch, 1, 1)]. *)
Definition dispatched_cells (batch size stride : Z) : list (list Z) :=
  workgroup_cells size stride <$> seq 0 (Z.to_nat batch).

(** The rows of a [batch x size] tensor in its flat buffer, which are what
    the reference softmax normalizes one by one (the two rows [0..2] and
    [3..5] of [TEST(tensor_softmax_2d)]). *)
Definition tensor_rows (batch size : Z) : list (list Z) :=
  (λ b, (λ i, Z.of_nat b * size + Z.of_nat i) <$> seq 0 (Z.to_nat size))
    <$> seq 0 (Z.to_nat batch).

(** ** The accelerated operations *)

(** The functions that [webgpu_register_ops] enters in the operation
    registry. *)
Inductive OpImpl :=
  | webgpu_tensor_add_fn | webgpu_tensor_sub_fn | webgpu_tensor_mul_fn
  | webgpu_tensor_matmul_fn
  | webgpu_tensor_relu_fn | webgpu_tensor_sigmoid_fn | webgpu_tensor_tanh_fn
  | webgpu_tensor_softmax_fn.

Definition webgpu_register_ops (c : WebGPUContext)
    (reg : Registry (OperationRegistryEntry OpImpl))
  : Registry (OperationRegistryEntry OpImpl) :=
  if decide (webgpu_available c = 0) then reg
  else
    let reg := register_operation_backend reg "add" (Some webgpu_tensor_add_fn) 10 in
    let reg := register_operation_backend reg "sub" (Some webgpu_tensor_sub_fn) 10 in
    let reg := register_operation_backend reg "mul" (Some webgpu_tensor_mul_fn) 10 in
    let reg := register_operation_backend reg "matmul" (Some webgpu_tensor_matmul_fn) 10 in
    let reg := register_operation_backend reg "relu" (Some webgpu_tensor_relu_fn) 10 in
    let reg := register_operation_backend reg "sigmoid" (Some webgpu_tensor_sigmoid_fn) 10 in
    let reg := register_operation_backend reg "tanh" (Some webgpu_tensor_tanh_fn) 10 in
    register_operation_backend reg "softmax" (Some webgpu_tensor_softmax_fn) 10.

(** The names [webgpu_register_ops] registers and their functions, in the
    order of the calls. *)
Definition webgpu_ops : list (string * OpImpl) :=
  [("add", webgpu_tensor_add_fn); ("sub", webgpu_tensor_sub_fn);
   ("mul", webgpu_tensor_mul_fn); ("matmul", webgpu_tensor_matmul_fn);
   ("relu", webgpu_tensor_relu_fn); ("sigmoid", webgpu_tensor_sigmoid_fn);
   ("tanh", webgpu_tensor_tanh_fn); ("softmax", webgpu_tensor_softmax_fn)]%string.

(** [backend_init_all] with [HAS_WEBGPU]. *)
Definition backend_init_all (env : InitEnv) (c : WebGPUContext)
    (reg : Registry (OperationRegistryEntry OpImpl))
  : WebGPUContext * Registry (OperationRegistryEntry OpImpl) :=
  let '(status, c', _) := webgpu_init env c in
  if decide (status = 0) then (c', webgpu_register_ops c' reg) else (c', reg).

(** How a call ends: with a value, in undefined behaviour, or not within
    the number of nested calls allowed. *)
Inductive outcome (A : Type) :=
  | Done (a : A)
  | Undefined
  | OutOfFuel.
Arguments Done {A} a.
Arguments Undefined {A}.
Arguments OutOfFuel {A}.

Section Ops.
Context {F : Type} `{FloatOps F}.

(** Everything an operation can read or change. *)
Record World := {
  heap : gmap nat (Tensor F);
  ctx : WebGPUContext;
  operation_registry : Registry (OperationRegistryEntry OpImpl);
  stdout : list string;
  stderr : list string;
  dispatch_count : Z;                 (* static in elementwise_binary_op *)
  call_count : Z                      (* static in webgpu_tensor_add *)
}.

(** The output tensor is filled in; [log] goes to [stderr]. *)
Definition set_heap (w : World) (h : gmap nat (Tensor F)) (log : list string) : World :=
  {| heap := h; ctx := ctx w; operation_registry := operation_registry w;
     stdout := stdout w; stderr := stderr w ++ log;
     dispatch_count := dispatch_count w; call_count := call_count w |}.

(** [printf (..); dispatch_count++] (the size is left out of the line) *)
Definition print_dispatch (w : World) (line : string) : World :=
  {| heap := heap w; ctx := ctx w; operation_registry := operation_registry w;
     stdout := stdout w ++ [line]; stderr := stderr w;
     dispatch_count := dispatch_count w + 1; call_count := call_count w |}.

(** [printf (..); call_count++] *)
Definition print_call (w : World) (line : string) : World :=
  {| heap := heap w; ctx := ctx w; operation_registry := operation_registry w;
     stdout := stdout w ++ [line]; stderr := stderr w;
     dispatch_count := dispatch_count w; call_count := call_count w + 1 |}.

(** What one dispatch on the device ends in: the staging buffer obtained
    and the answers to the read back. *)
Record DeviceRun := {
  staging : option nat;
  read_env : ReadEnv F
}.

(** The reference implementations of [core/src/ops.c], [tensor_create] of
    [core/src/tensor.c] and the device are not part of the backend: they
    are parameters. A tensor pointer is [None] when null. *)
Variables tensor_add_cpu tensor_sub_cpu tensor_mul_cpu tensor_matmul_cpu
  : option nat → option nat → World → option nat * World.
Variables tensor_relu_cpu tensor_sigmoid_cpu tensor_tanh_cpu tensor_softmax_cpu
  : option nat → World → option nat * World.
Variable tensor_create : list nat → World → option nat * World.
Variable device_run : string → World → DeviceRun.

(** [setup_autograd_two_inputs] and [setup_autograd_one_input], as the
    update of the output tensor (the [backward_fn] pointer is not kept in
    the model of a tensor). *)
Definition setup_autograd (ins : list nat) (rg : bool) (op : string)
    (tC : Tensor F) : Tensor F :=
  if rg then
    {| data := data tC; grad := grad tC; shape := shape tC; size := size tC;
       requires_grad := true; op_name := Some op; inputs := ins |}
  else tC.

(** The part shared by every operation after its guard: the output tensor
    is created (a null result is returned at once), the parameters of the
    dispatch are computed ([defined] tells whether that is defined), the
    kernel runs, [count] cells are read back into the output, the graph edges
    are set. *)
Definition device_path (op : string) (shape_out : list nat) (count : nat)
    (defined : bool) (ins : list nat) (rg : bool) (w : World)
  : outcome (option nat * World) :=
  match tensor_create shape_out w with
  | (None, w1) => Done (None, w1)
  | (Some c, w1) =>
      match heap w1 !! c with
      | None => Undefined
      | Some tC =>
          if defined then
            let run := device_run op w1 in
            match webgpu_read_buffer (read_env run) (ctx w1) (staging run)
                    (Some (data tC)) count with
            | (Some d, log) =>
                Done (Some c,
                      set_heap w1
                        (<[c := setup_autograd ins rg op (set_data tC d)]> (heap w1))
                        log)
            | (None, _) => Undefined
            end
          else Undefined
      end
  end.

(** [elementwise_binary_op] *)
Definition elementwise_binary_op (A B : option nat) (op : string)
    (cpu_fallback : option nat → option nat → World → option nat * World)
    (w : World) : outcome (option nat * World) :=
  match A, B with
  | Some a, Some b =>
      if decide (webgpu_available (ctx w) = 0) then Done (cpu_fallback A B w)
      else
        match heap w !! a, heap w !! b with
        | Some tA, Some tB =>
            let w :=
              if decide (dispatch_count w < 5)
              then print_dispatch w ("[GPU] Dispatching " ++ op ++ " compute shader")
              else w in
            if decide (ndim tA ≠ ndim tB) then Done (cpu_fallback A B w)
            else if decide (shape tA ≠ shape tB) then Done (cpu_fallback A B w)
            else
              device_path op (shape tA) (size tA) true [a; b]
                (requires_grad tA || requires_grad tB) w
        | _, _ => Undefined
        end
  | _, _ => Done (cpu_fallback A B w)
  end.

Definition webgpu_tensor_add (A B : option nat) (w : World) :=
  let w :=
    if decide (call_count w < 3)
    then print_call w "[DEBUG] webgpu_tensor_add called!"
    else w in
  elementwise_binary_op A B "add" tensor_add_cpu w.

Definition webgpu_tensor_sub (A B : option nat) (w : World) :=
  elementwise_binary_op A B "sub" tensor_sub_cpu w.

Definition webgpu_tensor_mul (A B : option nat) (w : World) :=
  elementwise_binary_op A B "mul" tensor_mul_cpu w.

(** [webgpu_tensor_matmul]; [M], [K], [N] are [uint32_t]. *)
Definition webgpu_tensor_matmul (A B : option nat) (w : World)
  : outcome (option nat * World) :=
  match A, B with
  | Some a, Some b =>
      if decide (webgpu_available (ctx w) = 0) then Done (tensor_matmul_cpu A B w)
      else
        match heap w !! a, heap w !! b with
        | Some tA, Some tB =>
            match shape tA, shape tB with
            | [a0; a1], [b0; b1] =>
                if decide (a1 ≠ b0) then Done (tensor_matmul_cpu A B w)
                else
                  let M := Z.to_nat (to_u32 (Z.of_nat a0)) in
                  let N := Z.to_nat (to_u32 (Z.of_nat b1)) in
                  device_path "matmul" [M; N] (M * N) true [a; b]
                    (requires_grad tA || requires_grad tB) w
            | _, _ => Done (tensor_matmul_cpu A B w)
            end
        | _, _ => Undefined
        end
  | _, _ => Done (tensor_matmul_cpu A B w)
  end.

(** [elementwise_unary_op]; the fallback may itself not return. *)
Definition elementwise_unary_op (Z : option nat) (op : string)
    (cpu_fallback : option nat → World → outcome (option nat * World))
    (w : World) : outcome (option nat * World) :=
  match Z with
  | Some z =>
      if decide (webgpu_available (ctx w) = 0) then cpu_fallback Z w
      else
        match heap w !! z with
        | Some tZ =>
            device_path op (shape tZ) (size tZ) true [z] (requires_grad tZ) w
        | None => Undefined
        end
  | None => cpu_fallback Z w
  end.

(** [webgpu_tensor_softmax] *)
Definition webgpu_tensor_softmax (Z : option nat) (w : World)
  : outcome (option nat * World) :=
  match Z with
  | Some z =>
      if decide (webgpu_available (ctx w) = 0) then Done (tensor_softmax_cpu Z w)
      else
        match heap w !! z with
        | Some tZ =>
            if decide (ndim tZ < 2)%nat then Done (tensor_softmax_cpu Z w)
            else
              device_path "softmax" (shape tZ) (size tZ)
                (bool_decide (is_Some (softmax_params (shape tZ))))
                [z] (requires_grad tZ) w
        | None => Undefined
        end
  | None => Done (tensor_softmax_cpu Z w)
  end.

(** Modelled from the spec: the public entry points [tensor_relu],
    [tensor_sigmoid] and [tensor_tanh] of [core/src/ops.c], which is not
    among the sources. They are the dispatcher of the specification, written
    [DISPATCH_OP_1 (name, cpu, Z)] in the migration report: the operation
    registry is asked for [name]; the implementation found is called, and the
    reference implementation when there is none. [call] is the call through
    the function pointer. *)
Definition dispatch_unary
    (call : OpImpl → option nat → World → outcome (option nat * World))
    (op : string) (cpu : option nat → World → option nat * World)
    (Z : option nat) (w : World) : outcome (option nat * World) :=
  match get_operation_fn (operation_registry w) op with
  | Some fn => call fn Z w
  | None => Done (cpu Z w)
  end.

(** A call of one of the registered functions, with at most [fuel] nested
    calls. [webgpu_tensor_relu], [webgpu_tensor_sigmoid] and
    [webgpu_tensor_tanh] hand [tensor_relu], [tensor_sigmoid] and
    [tensor_tanh] to [elementwise_unary_op] as the fallback. *)
Fixpoint call_op (fuel : nat) (fn : OpImpl) (A B : option nat) (w : World)
  : outcome (option nat * World) :=
  match fuel with
  | O => OutOfFuel
  | S fuel' =>
      let call := λ fn Z w, call_op fuel' fn Z None w in
      match fn with
      | webgpu_tensor_add_fn => webgpu_tensor_add A B w
      | webgpu_tensor_sub_fn => webgpu_tensor_sub A B w
      | webgpu_tensor_mul_fn => webgpu_tensor_mul A B w
      | webgpu_tensor_matmul_fn => webgpu_tensor_matmul A B w
      | webgpu_tensor_relu_fn =>
          elementwise_unary_op A "relu" (dispatch_unary call "relu" tensor_relu_cpu) w
      | webgpu_tensor_sigmoid_fn =>
          elementwise_unary_op A "sigmoid"
            (dispatch_unary call "sigmoid" tensor_sigmoid_cpu) w
      | webgpu_tensor_tanh_fn =>
          elementwise_unary_op A "tanh" (dispatch_unary call "tanh" tensor_tanh_cpu) w
      | webgpu_tensor_softmax_fn => webgpu_tensor_softmax A w
      end
  end.

Definition webgpu_tensor_relu (fuel : nat) (Z : option nat) (w : World) :=
  call_op fuel webgpu_tensor_relu_fn Z None w.
Definition webgpu_tensor_sigmoid (fuel : nat) (Z : option nat) (w : World) :=
  call_op fuel webgpu_tensor_sigmoid_fn Z None w.
Definition webgpu_tensor_tanh (fuel : nat) (Z : option nat) (w : World) :=
  call_op fuel webgpu_tensor_tanh_fn Z None w.

(** The guard of the specification: the session is not ready, or the shapes
    are incompatible. *)
Definition not_ready (w : World) : Prop := webgpu_available (ctx w) = 0.

(** The session of a process that initialized the backend and then released
    it with [webgpu_cleanup]: the registry still resolves the eight names to
    the accelerated functions. *)
Definition torn_down (h : gmap nat (Tensor F)) : World :=
  let '(c, reg) := backend_init_all granting g_webgpu_ctx registry_empty in
  {| heap := h; ctx := webgpu_cleanup c; operation_registry := reg;
     stdout := []; stderr := []; dispatch_count := 0; call_count := 0 |}.

End Ops.
Arguments World : clear implicits.
Arguments DeviceRun : clear implicits.

(** A read back whose map is never answered, on a ready session: the
    destination keeps its three cells. *)
Definition silent_map : ReadEnv Z :=
  {| map_fires_after := None; mapped_range := Some [7; 8; 9] |}.


(** An implementation that hands over an adapter and then never answers the
    device request. *)
Definition silent_device : InitEnv :=
  {| create_instance := Some 1%nat;
     metal_adapter := {| fires_after := Some 1%nat; granted := Some 2%nat |};
     fallback_adapter := {| fires_after := Some 1%nat; granted := Some 2%nat |};
     request_device := {| fires_after := None; granted := None |};
     get_queue := None |}.

(** A ready session with no tensor yet, a [tensor_create] that puts a
    zeroed tensor of three cells at address 7, and a device whose staging
    buffer is never mapped. *)
Definition fresh_output : Tensor Z :=
  {| data := [0; 0; 0]; grad := None; shape := [3%nat]; size := 3;
     requires_grad := false; op_name := None; inputs := [] |}.

Definition ready_world : World Z :=
  {| heap := ∅; ctx := ready_ctx; operation_registry := registry_empty;
     stdout := []; stderr := []; dispatch_count := 0; call_count := 0 |}.

Definition create_at_7 (shape : list nat) (w : World Z) : option nat * World Z :=
  (Some 7%nat, set_heap w (<[7%nat := fresh_output]> (heap w)) []).

Definition silent_run (op : string) (w : World Z) : DeviceRun Z :=
  {| staging := Some 5%nat; read_env := silent_map |}.

End WebGPU.

(* ===================================================================== *)
(** * Facts about the registry *)
(* ===================================================================== *)

Module RegistryFacts.
Import Registry.

(** The bucket of some of the names that [registry_init] and
    [webgpu_register_ops] enter. *)
Example hash_names :
  hash "add" = 14%nat ∧ hash "relu" = 61%nat ∧ hash "softmax" = 39%nat ∧
  hash "sgd" = 3%nat ∧ hash "adam" = 24%nat.
Proof. by vm_compute. Qed.

(** ** Lookup after update *)

Section TableFacts.
Context {V : Type}.
Implicit Types (reg : Registry V) (entry : list (string * V)).

Lemma hash_lt key : (hash key < REGISTRY_SIZE)%nat.
Proof.
  unfold hash, REGISTRY_SIZE.
  pose proof (Z.mod_pos_bound (hash_loop 5381 key) (Z.of_nat 64)). lia.
Qed.

Lemma chain_overwrite_get key value entry entry' :
  chain_overwrite key value entry = Some entry' →
  chain_get key entry' = Some value.
Proof.
  revert entry'. induction entry as [|[k v] next IH]; intros entry'; simpl.
  - discriminate.
  - destruct (decide (k = key)) as [->|Hne].
    + intros [= <-]. simpl. by rewrite decide_True.
    + destruct (chain_overwrite key value next) as [c|] eqn:E; simpl; [|discriminate].
      intros [= <-]. simpl. rewrite decide_False by done. by apply IH.
Qed.

Lemma chain_overwrite_get_ne key key' value entry entry' :
  key ≠ key' →
  chain_overwrite key value entry = Some entry' →
  chain_get key' entry' = chain_get key' entry.
Proof.
  intros Hk. revert entry'. induction entry as [|[k v] next IH]; intros entry'; simpl.
  - discriminate.
  - destruct (decide (k = key)) as [->|Hne].
    + intros [= <-]. simpl. by rewrite !decide_False.
    + destruct (chain_overwrite key value next) as [c|] eqn:E; simpl; [|discriminate].
      intros [= <-]. simpl. destruct (decide (k = key')); [done|]. by apply IH.
Qed.

Lemma chain_overwrite_None key value entry :
  chain_overwrite key value entry = None ↔ chain_get key entry = None.
Proof.
  induction entry as [|[k v] next IH]; simpl; [done|].
  destruct (decide (k = key)); [done|].
  destruct (chain_overwrite key value next); simpl; split; intros H;
    try done; by apply IH in H.
Qed.

Lemma registry_set_wf reg key value :
  registry_wf reg → registry_wf (registry_set reg key value).
Proof.
  unfold registry_wf, registry_set.
  destruct (chain_overwrite _ _ _); simpl; by rewrite length_insert.
Qed.

Lemma registry_empty_wf : registry_wf (@registry_empty V).
Proof. reflexivity. Qed.

Lemma registry_get_empty key : registry_get (@registry_empty V) key = None.
Proof.
  unfold registry_get, bucket, registry_empty. cbn [buckets].
  rewrite lookup_replicate_2; [done|apply hash_lt].
Qed.

Lemma registry_get_set_eq reg key value :
  registry_wf reg → registry_get (registry_set reg key value) key = Some value.
Proof.
  intros Hwf. unfold registry_get, registry_set, bucket.
  pose proof (hash_lt key) as Hlt. unfold registry_wf in Hwf.
  destruct (chain_overwrite _ _ _) as [c|] eqn:E; simpl;
    rewrite list_lookup_insert_eq by lia; simpl.
  - by eapply chain_overwrite_get.
  - by rewrite decide_True.
Qed.

Lemma registry_get_set_ne reg key key' value :
  key ≠ key' →
  registry_get (registry_set reg key value) key' = registry_get reg key'.
Proof.
  intros Hk. unfold registry_get, registry_set, bucket.
  destruct (decide (hash key = hash key')) as [Hh|Hh].
  - rewrite <- Hh.
    destruct (buckets reg !! hash key) as [entry|] eqn:Hb; simpl.
    + assert (hash key < length (buckets reg))%nat by by eapply lookup_lt_Some.
      destruct (chain_overwrite key value entry) as [c|] eqn:E; simpl;
        rewrite list_lookup_insert_eq by done; simpl.
      * by eapply chain_overwrite_get_ne.
      * by rewrite decide_False.
    + assert (length (buckets reg) ≤ hash key)%nat by by apply lookup_ge_None.
      simpl. rewrite list_insert_ge by done. by rewrite Hb.
  - destruct (chain_overwrite _ _ _); simpl; by rewrite list_lookup_insert_ne.
Qed.

End TableFacts.

(** ** The priority law of the operation registry *)

Section OperationFacts.
Context {OpFn : Type}.
Implicit Types (reg : Registry (OperationRegistryEntry OpFn))
  (calls : list (string * option OpFn * Z)).

Lemma register_operation_backend_wf reg name fn prio :
  registry_wf reg → registry_wf (register_operation_backend reg name fn prio).
Proof.
  intros Hwf. unfold register_operation_backend.
  destruct (registry_get reg name) as [e|]; [case_bool_decide|];
    auto using registry_set_wf.
Qed.

Lemma register_operation_backend_other reg name name' fn prio :
  name ≠ name' →
  registry_get (register_operation_backend reg name fn prio) name'
  = registry_get reg name'.
Proof.
  intros Hne. unfold register_operation_backend.
  destruct (registry_get reg name) as [e|]; [case_bool_decide|];
    auto using registry_get_set_ne.
Qed.

Lemma run_registrations_snoc calls reg name fn prio :
  run_registrations (calls ++ [(name, fn, prio)]) reg
  = register_operation_backend (run_registrations calls reg) name fn prio.
Proof. unfold run_registrations. by rewrite foldl_app. Qed.

Lemma run_registrations_wf calls reg :
  registry_wf reg → registry_wf (run_registrations calls reg).
Proof.
  intros Hwf. induction calls as [|[[n f] p] calls IH] using rev_ind; [done|].
  rewrite run_registrations_snoc. by apply register_operation_backend_wf.
Qed.

Lemma winner_snoc_other calls name c o :
  c.1.1 ≠ name → winner calls name o → winner (calls ++ [c]) name o.
Proof.
  intros Hc. destruct o as [e|]; simpl.
  - intros (i & Hi & Hall). exists i. split.
    + by apply lookup_app_l_Some.
    + intros j f p Hj. apply lookup_app_Some in Hj as [Hj|[_ Hj]]; [by eauto|].
      apply list_lookup_singleton_Some in Hj as [_ ->]. by destruct Hc.
  - intros Hall i f p Hi. apply lookup_app_Some in Hi as [Hi|[_ Hi]].
    + by eapply Hall.
    + apply list_lookup_singleton_Some in Hi as [_ ->]. by destruct Hc.
Qed.

Lemma run_registrations_winner calls name :
  winner calls name (registry_get (run_registrations calls registry_empty) name).
Proof.
  induction calls as [|[[n f] p] calls IH] using rev_ind.
  - simpl. rewrite registry_get_empty. intros i f p. by rewrite lookup_nil.
  - rewrite run_registrations_snoc.
    pose proof (run_registrations_wf calls registry_empty registry_empty_wf) as Hwf.
    set (reg := run_registrations calls registry_empty) in *.
    destruct (decide (n = name)) as [->|Hne].
    2:{ rewrite register_operation_backend_other by done.
        by apply winner_snoc_other. }
    unfold register_operation_backend.
    destruct (registry_get reg name) as [e|] eqn:He; [case_bool_decide|].
    + (* strictly greater: the new registration wins *)
      rewrite registry_get_set_eq by done. simpl.
      destruct IH as (i & Hi & Hall).
      exists (length calls). split.
      * by rewrite lookup_app_r, Nat.sub_diag.
      * intros j f' p' Hj. apply lookup_app_Some in Hj as [Hj|[Hge Hj]].
        -- apply Hall in Hj as [Hle _]. lia.
        -- apply list_lookup_singleton_Some in Hj as [_ [= <- <-]]. lia.
    + (* equal or lower: the incumbent stays *)
      rewrite He. destruct IH as (i & Hi & Hall).
      exists i. split; [by apply lookup_app_l_Some|].
      intros j f' p' Hj. apply lookup_app_Some in Hj as [Hj|[Hge Hj]]; [by eauto|].
      apply list_lookup_singleton_Some in Hj as [Hj [= <- <-]].
      apply lookup_lt_Some in Hi. lia.
    + (* first registration of the name *)
      rewrite registry_get_set_eq by done. simpl in *.
      exists (length calls). split.
      * by rewrite lookup_app_r, Nat.sub_diag.
      * intros j f' p' Hj. apply lookup_app_Some in Hj as [Hj|[Hge Hj]].
        -- by apply IH in Hj.
        -- apply list_lookup_singleton_Some in Hj as [_ [= <- <-]]. lia.
Qed.

(** C2. In every registry reached by a history of registrations,
    [register_operation_backend name fn prio] installs [fn] exactly when
    [name] has no entry yet or [prio] is strictly greater than the stored
    priority, and otherwise leaves the whole registry as it was; the entry of
    any other name is never affected; and [get_operation_fn name] is the
    implementation of the registration of greatest priority seen so far for
    [name] (the earliest one among equals), or null when there was none. *)
Theorem register_operation_backend_priority calls name fn prio :
  let reg := run_registrations calls registry_empty in
  let reg' := register_operation_backend reg name fn prio in
  (* installed when absent or strictly greater *)
  ((registry_get reg name = None ∨
    ∃ e, registry_get reg name = Some e ∧ priority e < prio) →
   registry_get reg' name = Some {| op_fn := fn; priority := prio |} ∧
   get_operation_fn reg' name = fn) ∧
  (* equal or lower priority: nothing changes *)
  (∀ e, registry_get reg name = Some e → prio ≤ priority e →
        reg' = reg ∧ get_operation_fn reg' name = op_fn e) ∧
  (* other names keep their entry *)
  (∀ name', name ≠ name' → registry_get reg' name' = registry_get reg name') ∧
  (* the resolved implementation is the one of greatest priority seen *)
  winner calls name (registry_get reg name) ∧
  get_operation_fn reg name = (registry_get reg name) ≫= op_fn.
Proof.
  intros reg reg'.
  pose proof (run_registrations_wf calls registry_empty registry_empty_wf) as Hwf.
  fold reg in Hwf. split; [|split; [|split; [|split]]].
  - intros Hcond.
    assert (registry_get reg' name = Some {| op_fn := fn; priority := prio |}) as Hg.
    { destruct Hcond as [Hn|(e & He & Hlt)]; subst reg';
        unfold register_operation_backend.
      + rewrite Hn. by apply registry_get_set_eq.
      + rewrite He, bool_decide_true by lia. by apply registry_get_set_eq. }
    split; [done|]. unfold get_operation_fn. by rewrite Hg.
  - intros e He Hle. subst reg'. unfold register_operation_backend, get_operation_fn.
    by rewrite He, bool_decide_false, He by lia.
  - intros name' Hne. by apply register_operation_backend_other.
  - apply run_registrations_winner.
  - unfold get_operation_fn. by destruct (registry_get reg name).
Qed.

End OperationFacts.

(** The dispatcher priority law on the reference and accelerator pairing:
    priority 0, then 10, then 5. *)
Example priority_0_10_5 :
  let cpu := 1%nat in let gpu := 2%nat in let other := 3%nat in
  let r0 := register_operation registry_empty "add" (Some cpu) in
  let r1 := register_operation_backend r0 "add" (Some gpu) 10 in
  let r2 := register_operation_backend r1 "add" (Some other) 5 in
  get_operation_fn r0 "add" = Some cpu ∧
  get_operation_fn r1 "add" = Some gpu ∧
  get_operation_fn r2 "add" = Some gpu ∧ r2 = r1.
Proof. vm_compute. done. Qed.

(** Two names that collide in one bucket are kept apart by the chain. *)
Example colliding_names :
  let r := registry_set (registry_set registry_empty "a" 1%nat) "!" 2%nat in
  hash "a" = hash "!" ∧
  registry_get r "a" = Some 1%nat ∧ registry_get r "!" = Some 2%nat.
Proof. vm_compute. done. Qed.

(** ** Insert and lookup *)

Section SetGet.
Context {V : Type}.
Implicit Types (reg : Registry V) (chain : list (string * V)).

(** X1. In a table of 64 buckets, a key that has just been set is found
    with the value set, also when it collides with other keys or replaces an
    earlier value; every other key is found as before; the table keeps its
    64 buckets. *)
Theorem registry_set_then_get reg key value :
  registry_wf reg →
  registry_get (registry_set reg key value) key = Some value ∧
  (∀ key', key' ≠ key →
     registry_get (registry_set reg key value) key' = registry_get reg key') ∧
  registry_wf (registry_set reg key value).
Proof.
  intros Hwf. split; [by apply registry_get_set_eq|]. split.
  - intros key' Hne. by apply registry_get_set_ne.
  - by apply registry_set_wf.
Qed.

Lemma elem_of_concat {A} (x : A) (ls : list (list A)) :
  x ∈ concat ls ↔ ∃ l, x ∈ l ∧ l ∈ ls.
Proof.
  induction ls as [|l ls IH]; simpl.
  - split; [intros Hin; by apply elem_of_nil in Hin|].
    intros (l & _ & Hl). by apply elem_of_nil in Hl.
  - rewrite elem_of_app, IH. split.
    + intros [Hx|(l' & Hx & Hl')]; [exists l; split; [done|by left]|].
      exists l'. split; [done|by right].
    + intros (l' & Hx & Hl'). apply elem_of_cons in Hl' as [->|Hl']; [by left|].
      right. by exists l'.
Qed.

Lemma chain_overwrite_keys key value chain chain' :
  chain_overwrite key value chain = Some chain' → chain'.*1 = chain.*1.
Proof.
  revert chain'. induction chain as [|[k v] next IH]; intros chain'; simpl; [done|].
  destruct (decide (k = key)) as [->|Hne].
  - by intros [= <-].
  - destruct (chain_overwrite key value next) as [c|]; simpl; [|done].
    intros [= <-]. simpl. f_equal. by apply IH.
Qed.

Lemma chain_get_None_keys key chain :
  chain_get key chain = None ↔ key ∉ chain.*1.
Proof.
  induction chain as [|[k v] next IH]; simpl.
  - split; [intros _ Hin; by apply elem_of_nil in Hin|done].
  - destruct (decide (k = key)) as [->|Hne].
    + split; [done|]. intros Hn. destruct Hn. by left.
    + rewrite IH. rewrite not_elem_of_cons. split; [by intros|by intros [_ ?]].
Qed.

Lemma chain_get_elem key value chain :
  NoDup chain.*1 → chain_get key chain = Some value ↔ (key, value) ∈ chain.
Proof.
  induction chain as [|[k v] next IH]; simpl; intros Hnd.
  - split; [done|]. intros Hin. by apply elem_of_nil in Hin.
  - apply NoDup_cons in Hnd as [Hk Hnd].
    destruct (decide (k = key)) as [->|Hne].
    + split.
      * intros [= ->]. by left.
      * intros Hin. apply elem_of_cons in Hin as [[= ->]|Hin]; [done|].
        destruct Hk. apply list_elem_of_fmap. by exists (key, value).
    + rewrite IH by done. split.
      * intros Hin. by right.
      * intros Hin. apply elem_of_cons in Hin as [[= -> ->]|Hin]; done.
Qed.

Lemma registry_set_chains_ok reg key value :
  chains_ok reg → chains_ok (registry_set reg key value).
Proof.
  intros Hok idx chain. unfold registry_set, bucket.
  destruct (buckets reg !! hash key) as [old|] eqn:Hold; simpl.
  - assert (hash key < length (buckets reg))%nat by by eapply lookup_lt_Some.
    destruct (Hok _ _ Hold) as [Hnd Hh].
    destruct (chain_overwrite key value old) as [c|] eqn:E; simpl;
      (destruct (decide (idx = hash key)) as [->|Hne];
       [rewrite list_lookup_insert_eq by done; intros [= <-]
       |rewrite list_lookup_insert_ne by done; apply Hok]).
    + by rewrite (chain_overwrite_keys _ _ _ _ E).
    + simpl. split.
      * apply NoDup_cons. split; [|done].
        by apply chain_get_None_keys, chain_overwrite_None with value.
      * intros k Hk. apply elem_of_cons in Hk as [->|Hk]; [done|by apply Hh].
  - assert (length (buckets reg) ≤ hash key)%nat by by apply lookup_ge_None.
    simpl. rewrite list_insert_ge by done. apply Hok.
Qed.

Lemma run_sets_snoc (sets : list (string * V)) reg key value :
  run_sets (sets ++ [(key, value)]) reg = registry_set (run_sets sets reg) key value.
Proof. unfold run_sets. by rewrite foldl_app. Qed.

Lemma run_sets_ok (sets : list (string * V)) :
  registry_wf (run_sets sets registry_empty) ∧ chains_ok (run_sets sets registry_empty).
Proof.
  induction sets as [|[k v] sets [IHwf IHok]] using rev_ind.
  - split; [apply registry_empty_wf|]. intros idx chain Hl.
    apply lookup_replicate in Hl as [-> _]. split; [constructor|].
    intros k Hk. by apply elem_of_nil in Hk.
  - rewrite run_sets_snoc. split; [by apply registry_set_wf|by apply registry_set_chains_ok].
Qed.

(** Chains whose keys hash to their position hold no key twice between
    them. *)
Lemma chains_NoDup (bs : list (list (string * V))) (off : nat) :
  (∀ i chain, bs !! i = Some chain →
     NoDup chain.*1 ∧ ∀ k, k ∈ chain.*1 → hash k = (off + i)%nat) →
  NoDup (concat bs).*1.
Proof.
  revert off. induction bs as [|b bs IH]; intros off Hbs; simpl; [constructor|].
  rewrite fmap_app. apply NoDup_app. split; [|split].
  - by apply (Hbs 0%nat b).
  - intros k Hk Hin. destruct (Hbs 0%nat b eq_refl) as [_ Hh].
    apply list_elem_of_fmap in Hin as ([k' v] & -> & Hin). simpl in *.
    apply elem_of_concat in Hin as (chain & Hkv & Hchain).
    apply list_elem_of_lookup in Hchain as [i Hi].
    destruct (Hbs (S i) chain Hi) as [_ Hh'].
    assert (hash k' = (off + S i)%nat) as H1.
    { apply Hh'. apply list_elem_of_fmap. by exists (k', v). }
    rewrite (Hh k' Hk) in H1. lia.
  - apply (IH (S off)). intros i chain Hi.
    destruct (Hbs (S i) chain Hi) as [Hnd Hh]. split; [done|].
    intros k Hk. rewrite (Hh k Hk). lia.
Qed.

Lemma latest_snoc key k (v : V) sets :
  latest key (sets ++ [(k, v)])
  = if decide (k = key) then Some v else latest key sets.
Proof.
  unfold latest. rewrite filter_app. simpl.
  rewrite filter_cons, filter_nil. simpl. destruct (decide (k = key)).
  - by rewrite last_snoc.
  - by rewrite app_nil_r.
Qed.

Lemma run_sets_latest (sets : list (string * V)) key :
  registry_get (run_sets sets registry_empty) key = latest key sets.
Proof.
  induction sets as [|[k v] sets IH] using rev_ind.
  - change (run_sets [] registry_empty) with (@registry_empty V).
    by rewrite registry_get_empty.
  - rewrite run_sets_snoc, latest_snoc. destruct (run_sets_ok sets) as [Hwf _].
    destruct (decide (k = key)) as [->|Hne].
    + by apply registry_get_set_eq.
    + by rewrite registry_get_set_ne.
Qed.

(** X2. Whatever sequence of [registry_set] calls built the table from the
    empty one: [registry_get] of a key returns the value of the last call
    for that key, and null when there was none; the table has its 64
    buckets, no key is stored twice (an overwrite never adds a cell), every
    cell sits in the bucket of its key's hash, and a lookup finds exactly
    the cells that are stored. *)
Theorem registry_history_invariant (sets : list (string * V)) :
  let reg := run_sets sets registry_empty in
  (∀ key, registry_get reg key = latest key sets) ∧
  registry_wf reg ∧ chains_ok reg ∧ NoDup (entries reg).*1 ∧
  ∀ key value, registry_get reg key = Some value ↔ (key, value) ∈ entries reg.
Proof.
  intros reg. destruct (run_sets_ok sets) as [Hwf Hok]. fold reg in Hwf, Hok.
  split; [intros key; apply run_sets_latest|].
  split; [done|]. split; [done|]. split.
  - apply (chains_NoDup _ 0). intros i chain Hi. by apply Hok.
  - intros key value. unfold registry_get, bucket, entries.
    pose proof (hash_lt key) as Hlt. unfold registry_wf in Hwf.
    destruct (lookup_lt_is_Some_2 (buckets reg) (hash key)) as [chain Hchain]; [lia|].
    rewrite Hchain. simpl. destruct (Hok _ _ Hchain) as [Hnd _].
    rewrite (chain_get_elem _ _ _ Hnd). split.
    + intros Hin. apply elem_of_concat. exists chain. split; [done|].
      by eapply list_elem_of_lookup_2.
    + intros Hin. apply elem_of_concat in Hin as (chain' & Hkv & Hc).
      apply list_elem_of_lookup in Hc as [i Hi].
      destruct (Hok _ _ Hi) as [_ Hh].
      assert (hash key = i) as <-.
      { apply Hh. apply list_elem_of_fmap. by exists (key, value). }
      rewrite Hchain in Hi. by injection Hi as ->.
Qed.

End SetGet.

(** ** The registries without priority *)

Lemma foldl_pointwise {A B} (f g : A → B → A) (a : A) (l : list B) :
  (∀ a b, f a b = g a b) → foldl f a l = foldl g a l.
Proof.
  intros Hfg. revert a. induction l as [|b l IH]; intros a; simpl; [done|].
  by rewrite Hfg, IH.
Qed.

Section Plain.
Context {CreateFn ForwardFn BackwardFn InitFn StepFn FreeFn : Type}.

(** X3. The layer, tensor operation and optimizer registries have no
    priority: after any sequence of registrations each lookup gives what the
    latest registration of that name put there (its create or forward
    function; the backward function; the init, step or free function), and
    null when the name was never registered. *)
Theorem plain_registries_latest_wins :
  (∀ (calls : list (string * LayerRegistryEntry CreateFn ForwardFn)) name,
     let reg := foldl (λ r c, register_layer r c.1 (create_fn c.2) (forward_fn c.2))
                  registry_empty calls in
     get_layer_create_fn reg name = latest name calls ≫= create_fn ∧
     get_layer_forward_fn reg name = latest name calls ≫= forward_fn) ∧
  (∀ (calls : list (string * option BackwardFn)) name,
     let reg := foldl (λ r c, register_tensor_op r c.1 c.2) registry_empty calls in
     get_tensor_op_backward_fn reg name = latest name calls ≫= id) ∧
  (∀ (calls : list (string * OptimizerRegistryEntry InitFn StepFn FreeFn)) name,
     let reg := foldl (λ r c, register_optimizer r c.1 (init_state_fn c.2)
                                (step_fn c.2) (free_state_fn c.2))
                  registry_empty calls in
     get_optimizer_init_state_fn reg name = latest name calls ≫= init_state_fn ∧
     get_optimizer_step_fn reg name = latest name calls ≫= step_fn ∧
     get_optimizer_free_state_fn reg name = latest name calls ≫= free_state_fn).
Proof.
  split; [|split].
  - intros calls name reg.
    assert (reg = run_sets calls registry_empty) as ->.
    { apply foldl_pointwise. intros r [k [c f]]. done. }
    unfold get_layer_create_fn, get_layer_forward_fn.
    rewrite run_sets_latest. by destruct (latest name calls).
  - intros calls name reg.
    assert (reg = run_sets calls registry_empty) as -> by done.
    unfold get_tensor_op_backward_fn.
    rewrite run_sets_latest. by destruct (latest name calls).
  - intros calls name reg.
    assert (reg = run_sets calls registry_empty) as ->.
    { apply foldl_pointwise. intros r [k [i s f]]. done. }
    unfold get_optimizer_init_state_fn, get_optimizer_step_fn,
      get_optimizer_free_state_fn.
    rewrite run_sets_latest. by destruct (latest name calls).
Qed.

End Plain.

(** ** Order of the registrations of an operation *)

Section Order.
Context {OpFn : Type}.
Implicit Types (calls : list (string * option OpFn * Z)).

Lemma winner_registered calls name e :
  winner calls name (Some e) →
  (name, op_fn e, priority e) ∈ calls ∧
  ∀ f p, (name, f, p) ∈ calls → p ≤ priority e.
Proof.
  intros (i & Hi & Hall). split; [by eapply list_elem_of_lookup_2|].
  intros f p Hin. apply list_elem_of_lookup in Hin as [j Hj].
  by apply (Hall j f p).
Qed.

Lemma winner_none calls name f p :
  winner calls name None → (name, f, p) ∉ calls.
Proof.
  intros Hall Hin. apply list_elem_of_lookup in Hin as [j Hj]. by apply (Hall j f p).
Qed.

(** X4. The order of the registrations does not matter as long as the
    greatest priority of a name is carried by one function: two histories
    that are permutations of each other then resolve the name to the same
    implementation (the reference at priority 0 and the accelerator at
    priority 10, in either order, resolve to the accelerator). *)
Theorem operation_order_independent calls calls' name :
  calls ≡ₚ calls' → top_agree calls name →
  get_operation_fn (run_registrations calls registry_empty) name
  = get_operation_fn (run_registrations calls' registry_empty) name.
Proof.
  intros Hperm Htop. unfold get_operation_fn.
  pose proof (run_registrations_winner calls name) as Hw.
  pose proof (run_registrations_winner calls' name) as Hw'.
  destruct (registry_get (run_registrations calls registry_empty) name) as [e|];
    destruct (registry_get (run_registrations calls' registry_empty) name) as [e'|].
  - apply winner_registered in Hw as [Hin Hmax].
    apply winner_registered in Hw' as [Hin' Hmax'].
    pose proof Hin as Hin2. rewrite Hperm in Hin2.
    pose proof Hin' as Hin2'. rewrite <- Hperm in Hin2'.
    pose proof (Hmax _ _ Hin2'). pose proof (Hmax' _ _ Hin2).
    apply (Htop _ (priority e) _ (priority e')); [done|done|lia|done].
  - apply winner_registered in Hw as [Hin _]. rewrite Hperm in Hin.
    by destruct (winner_none _ _ _ _ Hw' Hin).
  - apply winner_registered in Hw' as [Hin' _]. rewrite <- Hperm in Hin'.
    by destruct (winner_none _ _ _ _ Hw Hin').
  - done.
Qed.

End Order.

Lemma operation_order_independent_witness :
  get_operation_fn
    (run_registrations [("add"%string, Some 1%nat, 0); ("add"%string, Some 2%nat, 10)]
       registry_empty) "add"
  = get_operation_fn
      (run_registrations [("add"%string, Some 2%nat, 10); ("add"%string, Some 1%nat, 0)]
         registry_empty) "add".
Proof.
  apply operation_order_independent.
  - apply Permutation_swap.
  - intros f p f' p' Hin Hin' -> Hmax.
    assert (10 ≤ p') as Hp by (apply (Hmax (Some 2%nat)); right; by left).
    apply elem_of_cons in Hin as [[= -> ->]|Hin]; [lia|].
    apply list_elem_of_singleton in Hin as [= -> _].
    apply elem_of_cons in Hin' as [[= -> ->]|Hin']; [lia|].
    by apply list_elem_of_singleton in Hin' as [= -> _].
Defined.

(** A table with two colliding keys, for running the lemmas. *)
Lemma registry_set_then_get_witness :
  let reg := registry_set registry_empty "a" 1%nat in
  registry_get (registry_set reg "!" 2%nat) "!" = Some 2%nat ∧
  (∀ key', key' ≠ "!"%string →
     registry_get (registry_set reg "!" 2%nat) key' = registry_get reg key') ∧
  registry_wf (registry_set reg "!" 2%nat).
Proof.
  intros reg. apply (registry_set_then_get reg "!" 2%nat).
  apply registry_set_wf, registry_empty_wf.
Defined.

End RegistryFacts.

(* ===================================================================== *)
(** * Facts about the gradient rules *)
(* ===================================================================== *)

Module AutogradFacts.
Import Autograd.

Section Loops.
Context {F : Type} `{FloatOps F}.
Implicit Types (h : gmap nat (Tensor F)) (t : Tensor F) (g : list F).

Lemma load_grad_with_grad h Z t g i :
  load_grad (with_grad h Z t g) Z i = g !! i.
Proof. unfold load_grad, with_grad. by rewrite lookup_insert_eq. Qed.

Lemma load_grad_with_grad_ne h Z t g A i :
  A ≠ Z → load_grad (with_grad h Z t g) A i = load_grad h A i.
Proof. intros. unfold load_grad, with_grad. by rewrite lookup_insert_ne. Qed.

Lemma load_data_with_grad h Z t g p i :
  h !! Z = Some t → load_data (with_grad h Z t g) p i = load_data h p i.
Proof.
  intros Ht. unfold load_data, with_grad.
  destruct (decide (p = Z)) as [->|Hne].
  - by rewrite lookup_insert_eq, Ht.
  - by rewrite lookup_insert_ne.
Qed.

Lemma store_grad_with_grad h Z t g i v :
  (i < length g)%nat →
  store_grad (with_grad h Z t g) Z i v = Some (with_grad h Z t (<[i := v]> g)).
Proof.
  intros Hi. unfold store_grad, with_grad. rewrite lookup_insert_eq. simpl.
  rewrite decide_True by done. by rewrite insert_insert_eq.
Qed.

Lemma length_upd_range val count start g :
  length (upd_range val start count g) = length g.
Proof.
  revert start g. induction count as [|c IH]; intros start g; simpl; [done|].
  by rewrite IH, length_alter.
Qed.

Lemma lookup_upd_range val count start g k :
  upd_range val start count g !! k
  = if decide (start ≤ k < start + count)%nat then val k <$> g !! k else g !! k.
Proof.
  revert start g. induction count as [|c IH]; intros start g; simpl.
  - rewrite decide_False by lia. done.
  - rewrite IH. destruct (decide (k = start)) as [->|Hne].
    + rewrite decide_False by lia. rewrite decide_True by lia.
      by rewrite list_lookup_alter_eq.
    + rewrite list_lookup_alter_ne by done.
      destruct (decide (S start ≤ k < S start + c)%nat);
        [rewrite decide_True by lia|rewrite decide_False by lia]; done.
Qed.

Lemma insert_as_alter g i x (f : F → F) :
  g !! i = Some x → <[i := f x]> g = alter f i g.
Proof.
  intros Hx. apply list_eq. intros k. destruct (decide (k = i)) as [->|Hne].
  - rewrite list_lookup_alter_eq, Hx. simpl.
    apply list_lookup_insert_eq. by eapply lookup_lt_Some.
  - by rewrite list_lookup_insert_ne, list_lookup_alter_ne.
Qed.

(** A loop whose iteration [i] rewrites cell [i] of the gradient buffer of
    [Z] from its content alone rewrites the whole range. *)
Lemma for_loop_pointwise body Z t (val : nat → F → F) h n :
  (∀ i g x, (i < n)%nat → g !! i = Some x →
     body i (with_grad h Z t g) = Some (with_grad h Z t (<[i := val i x]> g))) →
  ∀ count start g, (start + count ≤ n)%nat → (n ≤ length g)%nat →
    for_loop body start count (with_grad h Z t g)
    = Some (with_grad h Z t (upd_range val start count g)).
Proof.
  intros Hbody. induction count as [|c IH]; intros start g Hle Hn; simpl; [done|].
  destruct (lookup_lt_is_Some_2 g start) as [x Hx]; [lia|].
  rewrite (Hbody start g x) by (done || lia). simpl.
  rewrite (insert_as_alter _ _ _ (val start)) by done.
  apply IH; [lia|by rewrite length_alter].
Qed.

(** A loop whose every iteration [j] adds [term j] into the one cell [i]. *)
Lemma for_loop_accumulate body Z t (term : nat → F) h n i :
  (∀ j g x, (j < n)%nat → g !! i = Some x →
     body j (with_grad h Z t g)
     = Some (with_grad h Z t (<[i := fadd x (term j)]> g))) →
  ∀ count start g x, (start + count ≤ n)%nat → g !! i = Some x →
    for_loop body start count (with_grad h Z t g)
    = Some (with_grad h Z t
        (<[i := foldl (λ acc j, fadd acc (term j)) x (seq start count)]> g)).
Proof.
  intros Hbody. induction count as [|c IH]; intros start g x Hle Hx; simpl.
  - by rewrite list_insert_id.
  - rewrite (Hbody start g x) by (done || lia). simpl.
    assert (i < length g)%nat as Hi by by eapply lookup_lt_Some.
    rewrite (IH (S start) _ (fadd x (term start))); [|lia|].
    + by rewrite list_insert_insert_eq.
    + by apply list_lookup_insert_eq.
Qed.

End Loops.


Section Rules.
Context {F : Type} `{FloatOps F}.
Implicit Types (h : gmap nat (Tensor F)) (t : Tensor F) (g : list F).

Lemma length_grad_in h A Z tA tZ gA :
  unary_node h A Z tA tZ gA → length (grad_in tZ) = size tZ.
Proof.
  intros (_ & _ & _ & _ & _ & _ & _ & _ & Hg). unfold grad_in.
  destruct (grad tZ) as [g|]; simpl; [by apply Hg|by rewrite length_replicate].
Qed.

Lemma set_grad_same t g : grad t = Some g → set_grad t (Some g) = t.
Proof. destruct t; simpl. by intros ->. Qed.

(** Entry of every rule: the loops start on the heap in which [Z] has its
    incoming gradient buffer. *)
Lemma backward_unary_enter step h A Z tA tZ gA :
  unary_node h A Z tA tZ gA →
  backward_unary step A h = step A Z (size tZ) (with_grad h Z tZ (grad_in tZ)).
Proof.
  intros (HA & Hin & HZ & Hne & Hrg & HgA & _).
  unfold backward_unary, ensure_grad, with_grad, grad_in.
  rewrite HA. simpl. rewrite Hin. simpl. rewrite HZ. simpl. rewrite Hrg. simpl.
  destruct (grad tZ) as [g|] eqn:Hg; simpl; [|done].
  by rewrite (set_grad_same _ _ Hg), insert_id.
Qed.

Lemma backward_unary_no_grad step h A Z tA tZ :
  h !! A = Some tA → inputs tA !! 0%nat = Some Z → h !! Z = Some tZ →
  requires_grad tZ = false → backward_unary step A h = Some h.
Proof.
  intros HA Hin HZ Hrg. unfold backward_unary.
  rewrite HA. simpl. rewrite Hin. simpl. rewrite HZ. simpl. by rewrite Hrg.
Qed.

Lemma node_load_grad h A Z tA tZ gA g i :
  unary_node h A Z tA tZ gA → (i < size tZ)%nat →
  load_grad (with_grad h Z tZ g) A i = Some (at0 gA i).
Proof.
  intros (HA & _ & _ & Hne & _ & HgA & Hl & _) Hi.
  rewrite load_grad_with_grad_ne by done. unfold load_grad, at0.
  rewrite HA. simpl. rewrite HgA. simpl.
  destruct (lookup_lt_is_Some_2 gA i) as [x ->]; [lia|done].
Qed.

Lemma node_load_data h A Z tA tZ gA g i :
  unary_node h A Z tA tZ gA → (i < size tZ)%nat →
  load_data (with_grad h Z tZ g) A i = Some (at0 (data tA) i).
Proof.
  intros (HA & _ & HZ & Hne & _ & _ & _ & Hl & _) Hi.
  rewrite load_data_with_grad by done. unfold load_data, at0.
  rewrite HA. simpl.
  destruct (lookup_lt_is_Some_2 (data tA) i) as [x ->]; [lia|done].
Qed.

Lemma length_rule_result val h A Z tA tZ gA :
  unary_node h A Z tA tZ gA → length (rule_result val tZ) = size tZ.
Proof.
  intros Hnode. unfold rule_result.
  by rewrite length_upd_range, (length_grad_in _ _ _ _ _ _ Hnode).
Qed.

Lemma lookup_rule_result val h A Z tA tZ gA i :
  unary_node h A Z tA tZ gA → (i < size tZ)%nat →
  rule_result val tZ !! i = Some (val i (at0 (grad_in tZ) i)).
Proof.
  intros Hnode Hi. pose proof (length_grad_in _ _ _ _ _ _ Hnode) as Hlen.
  unfold rule_result. rewrite lookup_upd_range, decide_True by lia. unfold at0.
  destruct (lookup_lt_is_Some_2 (grad_in tZ) i) as [x ->]; [lia|done].
Qed.

Lemma pointwise_rule step body (val : nat → F → F) h A Z tA tZ gA :
  unary_node h A Z tA tZ gA →
  step A Z (size tZ) = for_loop body 0 (size tZ) →
  (∀ i g x, (i < size tZ)%nat → g !! i = Some x →
     body i (with_grad h Z tZ g)
     = Some (with_grad h Z tZ (<[i := val i x]> g))) →
  backward_unary step A h = Some (with_grad h Z tZ (rule_result val tZ)).
Proof.
  intros Hnode Hstep Hbody.
  pose proof (length_grad_in _ _ _ _ _ _ Hnode) as Hlen.
  rewrite (backward_unary_enter _ _ _ _ _ _ _ Hnode), Hstep.
  apply (for_loop_pointwise _ _ _ val _ (size tZ)); [done|lia|lia].
Qed.

(** ** relu *)


(** ** sigmoid and tanh *)

Lemma unary_node_set_data h A Z tA tZ gA d :
  unary_node h A Z tA tZ gA →
  unary_node (<[Z := set_data tZ d]> h) A Z tA (set_data tZ d) gA.
Proof.
  intros (HA & Hin & HZ & Hne & Hrg & HgA & Hl1 & Hl2 & Hg).
  repeat split; try done.
  - by rewrite lookup_insert_ne.
  - by rewrite lookup_insert_eq.
Qed.

Lemma set_data_same t : set_data t (data t) = t.
Proof. by destruct t. Qed.

Lemma backward_sigmoid_run h A Z tA tZ gA :
  unary_node h A Z tA tZ gA →
  backward_sigmoid A h
  = Some (with_grad h Z tZ (rule_result (sigmoid_val gA (data tA)) tZ)).
Proof.
  intros Hnode.
  apply (pointwise_rule (λ A Z n, for_loop (sigmoid_body A Z) 0 n) (sigmoid_body A Z)
           _ h A Z tA tZ gA); [done|done|].
  intros i g x Hi Hx. unfold sigmoid_body.
  rewrite (node_load_data _ _ _ _ _ _ _ _ Hnode Hi). simpl.
  rewrite (node_load_grad _ _ _ _ _ _ _ _ Hnode Hi). simpl.
  rewrite load_grad_with_grad, Hx. simpl.
  by rewrite store_grad_with_grad by by eapply lookup_lt_Some.
Qed.

Lemma backward_tanh_run h A Z tA tZ gA :
  unary_node h A Z tA tZ gA →
  backward_tanh A h
  = Some (with_grad h Z tZ (rule_result (tanh_val gA (data tA)) tZ)).
Proof.
  intros Hnode.
  apply (pointwise_rule (λ A Z n, for_loop (tanh_body A Z) 0 n) (tanh_body A Z)
           _ h A Z tA tZ gA); [done|done|].
  intros i g x Hi Hx. unfold tanh_body.
  rewrite (node_load_data _ _ _ _ _ _ _ _ Hnode Hi). simpl.
  rewrite (node_load_grad _ _ _ _ _ _ _ _ Hnode Hi). simpl.
  rewrite load_grad_with_grad, Hx. simpl.
  by rewrite store_grad_with_grad by by eapply lookup_lt_Some.
Qed.

(** C7. [backward_sigmoid] and [backward_tanh] on the output [A] of the
    operation on [Z], when [Z] requires gradients: each returns and changes
    only the gradient buffer of [Z], whose cell [i] receives
    [A.grad[i] * s * (1 - s)] with [s = A.data[i]], respectively
    [A.grad[i] * (1 - t * t)] with [t = A.data[i]]; and the buffer obtained is
    the same whatever the data buffer of [Z] holds, of whatever length: the
    input values are never read. *)
Theorem backward_sigmoid_tanh_rule h A Z tA tZ gA :
  unary_node h A Z tA tZ gA →
  ∃ gs gt,
    backward_sigmoid A h = Some (with_grad h Z tZ gs) ∧
    backward_tanh A h = Some (with_grad h Z tZ gt) ∧
    length gs = size tZ ∧ length gt = size tZ ∧
    (∀ i, (i < size tZ)%nat →
       let s := at0 (data tA) i in
       gs !! i = Some (fadd (at0 (grad_in tZ) i)
                         (fmul (fmul (at0 gA i) s) (fsub f1 s))) ∧
       gt !! i = Some (fadd (at0 (grad_in tZ) i)
                         (fmul (at0 gA i) (fsub f1 (fmul s s))))) ∧
    (∀ d, let tZ' := set_data tZ d in
          let h' := <[Z := tZ']> h in
       backward_sigmoid A h' = Some (with_grad h' Z tZ' gs) ∧
       backward_tanh A h' = Some (with_grad h' Z tZ' gt)).
Proof.
  intros Hnode.
  exists (rule_result (sigmoid_val gA (data tA)) tZ),
         (rule_result (tanh_val gA (data tA)) tZ).
  split; [by apply backward_sigmoid_run|].
  split; [by apply backward_tanh_run|].
  split; [by eapply length_rule_result|].
  split; [by eapply length_rule_result|]. split.
  - intros i Hi s.
    by rewrite !(lookup_rule_result _ _ _ _ _ _ _ _ Hnode Hi).
  - intros d tZ' h'. subst tZ' h'.
    pose proof (unary_node_set_data _ _ _ _ _ _ d Hnode) as Hnode'.
    split.
    + by rewrite (backward_sigmoid_run _ _ _ _ _ _ Hnode').
    + by rewrite (backward_tanh_run _ _ _ _ _ _ Hnode').
Qed.

(** ** softmax *)

Lemma accumulate_exact term x js :
  ExactLaws F → accumulate term x js = fadd x (fsum (term <$> js)).
Proof.
  intros Hex. revert x. induction js as [|j js IH]; intros x; simpl.
  - by rewrite (fadd_0_r F Hex).
  - unfold accumulate in *. simpl. by rewrite IH, (fadd_assoc F Hex).
Qed.

(** C5. [backward_softmax] on the output [A] of a softmax of [Z], when [Z]
    requires gradients: it returns and changes only the gradient buffer of
    [Z], and into every flat cell [i] it accumulates, for [j] running over
    every flat index [0 .. Z.size) of the tensor whatever its shape, the
    term [A.grad[j] * A.data[j] * (delta_ij - A.data[i])]; in exact
    arithmetic cell [i] grows by the sum of these terms over the whole
    tensor. *)
Theorem backward_softmax_rule h A Z tA tZ gA :
  unary_node h A Z tA tZ gA →
  ∃ gZ', backward_softmax A h = Some (with_grad h Z tZ gZ') ∧
    length gZ' = size tZ ∧
    ∀ i, (i < size tZ)%nat →
      let all := seq 0 (size tZ) in
      gZ' !! i = Some (accumulate (softmax_term gA (data tA) i)
                         (at0 (grad_in tZ) i) all) ∧
      (ExactLaws F →
       gZ' !! i = Some (fadd (at0 (grad_in tZ) i)
                          (fsum (softmax_term gA (data tA) i <$> all)))).
Proof.
  intros Hnode.
  set (val := λ i x, accumulate (softmax_term gA (data tA) i) x (seq 0 (size tZ))).
  exists (rule_result val tZ). split; [|split].
  - apply (pointwise_rule
      (λ A Z n, for_loop (λ i, for_loop (softmax_body A Z i) 0 n) 0 n)
      (λ i, for_loop (softmax_body A Z i) 0 (size tZ)) _ h A Z tA tZ gA);
      [done|done|].
    intros i g x Hi Hx.
    apply (for_loop_accumulate (softmax_body A Z i) Z tZ
             (softmax_term gA (data tA) i) h (size tZ) i); [|lia|done].
    intros j g' x' Hj Hx'. unfold softmax_body.
    rewrite (node_load_grad _ _ _ _ _ _ _ _ Hnode Hj). simpl.
    rewrite (node_load_data _ _ _ _ _ _ _ _ Hnode Hj). simpl.
    rewrite (node_load_data _ _ _ _ _ _ _ _ Hnode Hi). simpl.
    rewrite load_grad_with_grad, Hx'. simpl.
    by rewrite store_grad_with_grad by by eapply lookup_lt_Some.
  - by eapply length_rule_result.
  - intros i Hi all. rewrite (lookup_rule_result _ _ _ _ _ _ _ _ Hnode Hi).
    split; [done|]. intros Hex. unfold val. by rewrite accumulate_exact.
Qed.

End Rules.

(** ** Rules of the two-input operations *)

Section TwoInputFacts.
Context {F : Type} `{FloatOps F} `{LossOps F}.
Implicit Types (h : gmap nat (Tensor F)) (t : Tensor F) (g : list F).

Lemma length_grad_in_wf t :
  (∀ g, grad t = Some g → length g = size t) → length (grad_in t) = size t.
Proof.
  intros Hg. unfold grad_in.
  destruct (grad t) as [g|]; simpl; [by apply Hg|by rewrite length_replicate].
Qed.

Lemma length_rule_result_wf val t :
  (∀ g, grad t = Some g → length g = size t) → length (rule_result val t) = size t.
Proof.
  intros Hg. unfold rule_result. rewrite length_upd_range. by apply length_grad_in_wf.
Qed.

Lemma lookup_rule_result_wf val t i :
  (∀ g, grad t = Some g → length g = size t) → (i < size t)%nat →
  rule_result val t !! i = Some (val i (at0 (grad_in t) i)).
Proof.
  intros Hg Hi. pose proof (length_grad_in_wf t Hg) as Hlen.
  unfold rule_result. rewrite lookup_upd_range, decide_True by lia. unfold at0.
  destruct (lookup_lt_is_Some_2 (grad_in t) i) as [x ->]; [lia|done].
Qed.

Lemma pass_result_updated val t :
  (∀ g, grad t = Some g → length g = size t) → updated val t (pass_result val t).
Proof.
  intros Hg. pose proof (length_grad_in_wf t Hg) as Hlen.
  unfold updated, pass_result. destruct (requires_grad t); [|done].
  exists (rule_result val t). split; [done|]. unfold rule_result. split.
  - by rewrite length_upd_range.
  - intros i Hi. rewrite lookup_upd_range, decide_True by lia. unfold at0.
    destruct (lookup_lt_is_Some_2 (grad_in t) i) as [x ->]; [lia|done].
Qed.

(** A pass whose iteration [i] rewrites cell [i] from its content. *)
Lemma grad_pass_pointwise body (val : nat → F → F) h X t :
  h !! X = Some t → (∀ g, grad t = Some g → length g = size t) →
  (requires_grad t = true → ∀ i g x, (i < size t)%nat → g !! i = Some x →
     body i (with_grad h X t g) = Some (with_grad h X t (<[i := val i x]> g))) →
  grad_pass body X h = Some (<[X := pass_result val t]> h).
Proof.
  intros HX Hg Hbody. pose proof (length_grad_in_wf t Hg) as Hlen.
  unfold grad_pass, pass_result. rewrite HX. simpl.
  destruct (requires_grad t) eqn:Hrg; [|by rewrite insert_id].
  unfold ensure_grad. rewrite HX. simpl.
  assert (∀ h1, h1 = with_grad h X t (grad_in t) →
    for_loop body 0 (size t) h1 = Some (<[X := set_grad t (Some (rule_result val t))]> h))
    as Hloop.
  { intros h1 ->. apply (for_loop_pointwise _ _ _ val _ (size t)); [|lia|lia].
    by apply Hbody. }
  unfold grad_in in Hloop. destruct (grad t) as [g|] eqn:Hgt; simpl in *.
  - apply Hloop. unfold with_grad. by rewrite (set_grad_same _ _ Hgt), insert_id.
  - by apply Hloop.
Qed.

Lemma load_grad_insert_ne h X Y t i :
  Y ≠ X → load_grad (<[X := t]> h) Y i = load_grad h Y i.
Proof. intros. unfold load_grad. by rewrite lookup_insert_ne. Qed.

Lemma load_data_insert_same h X Y t t' i :
  h !! X = Some t → data t' = data t →
  load_data (<[X := t']> h) Y i = load_data h Y i.
Proof.
  intros HX Hd. unfold load_data. destruct (decide (Y = X)) as [->|Hne].
  - by rewrite lookup_insert_eq, HX; simpl; rewrite Hd.
  - by rewrite lookup_insert_ne.
Qed.

Lemma data_pass_result val t : data (pass_result val t) = data t.
Proof. unfold pass_result. by destruct (requires_grad t). Qed.

Lemma load_at0 (l : list F) i n :
  (i < n)%nat → (n ≤ length l)%nat → l !! i = Some (at0 l i).
Proof.
  intros Hi Hn. unfold at0.
  destruct (lookup_lt_is_Some_2 l i) as [x ->]; [lia|done].
Qed.

(** Entry of a two-input rule on distinct operands: the second pass runs on
    the heap the first one left. *)
Lemma backward_binary_distinct body_a body_b (val_a val_b : nat → F → F)
    h C A B tC tA tB gC :
  binary_node h C A B tC tA tB gC → A ≠ B →
  (∀ h0, h0 !! A = Some tA → h0 !! C = Some tC →
     (∀ Y i, load_data h0 Y i = load_data h Y i) →
     requires_grad tA = true → ∀ i g x, (i < size tA)%nat → g !! i = Some x →
     body_a C A B i (with_grad h0 A tA g)
     = Some (with_grad h0 A tA (<[i := val_a i x]> g))) →
  (∀ h0, h0 !! B = Some tB → h0 !! C = Some tC →
     (∀ Y i, load_data h0 Y i = load_data h Y i) →
     requires_grad tB = true → ∀ i g x, (i < size tB)%nat → g !! i = Some x →
     body_b C A B i (with_grad h0 B tB g)
     = Some (with_grad h0 B tB (<[i := val_b i x]> g))) →
  backward_binary body_a body_b C h
  = Some (<[B := pass_result val_b tB]> (<[A := pass_result val_a tA]> h)).
Proof.
  intros (HC & HinA & HinB & HA & HB & HAC & HBC & HgC & HgA & HgB) HAB Ha Hb.
  unfold backward_binary. rewrite HC. simpl. rewrite HinA. simpl. rewrite HinB. simpl.
  rewrite (grad_pass_pointwise _ val_a h A tA HA HgA); [|by apply Ha]. simpl.
  apply grad_pass_pointwise; [by rewrite lookup_insert_ne|done|].
  apply Hb.
  - by rewrite lookup_insert_ne.
  - by rewrite lookup_insert_ne.
  - intros Y i. apply (load_data_insert_same _ _ _ tA); [done|apply data_pass_result].
Qed.

(** Loads during a pass that writes the gradient of [X]. *)
Lemma pass_load_grad h0 X t g C tC gC i n :
  h0 !! C = Some tC → grad tC = Some gC → C ≠ X →
  (i < n)%nat → (n ≤ length gC)%nat →
  load_grad (with_grad h0 X t g) C i = Some (at0 gC i).
Proof.
  intros HC HgC Hne Hi Hn. rewrite load_grad_with_grad_ne by done.
  unfold load_grad. rewrite HC. simpl. rewrite HgC. simpl. by eapply load_at0.
Qed.

Lemma pass_load_data h0 h X t g Y tY i n :
  h0 !! X = Some t → (∀ Y i, load_data h0 Y i = load_data h Y i) →
  h !! Y = Some tY → (i < n)%nat → (n ≤ length (data tY))%nat →
  load_data (with_grad h0 X t g) Y i = Some (at0 (data tY) i).
Proof.
  intros HX Hsame HY Hi Hn. rewrite load_data_with_grad by done. rewrite Hsame.
  unfold load_data. rewrite HY. simpl. by eapply load_at0.
Qed.

Lemma pass_store h0 X t g i x v :
  g !! i = Some x →
  store_grad (with_grad h0 X t g) X i v = Some (with_grad h0 X t (<[i := v]> g)).
Proof. intros Hx. apply store_grad_with_grad. by eapply lookup_lt_Some. Qed.

(** X5. [backward_add], [backward_sub] and [backward_mul] on the output
    [C] of an operation on two distinct tensors [A] and [B]: each returns and
    changes nothing but the gradient buffers of the operands that require
    gradients (an operand that does not is left alone, with no buffer
    allocated). Cell [i] of [A] receives [C.grad[i]] (for mul,
    [C.grad[i] * B.data[i]]); cell [i] of [B] receives [C.grad[i]] for add,
    loses it for sub and receives [C.grad[i] * A.data[i]] for mul. *)
Theorem backward_add_sub_mul_rule h C A B tC tA tB gC :
  binary_node h C A B tC tA tB gC → A ≠ B →
  (size tA ≤ length gC)%nat → (size tB ≤ length gC)%nat →
  (size tA ≤ length (data tB))%nat → (size tB ≤ length (data tA))%nat →
  (∃ tA' tB',
     backward_add C h = Some (<[B := tB']> (<[A := tA']> h)) ∧
     updated (λ i x, fadd x (at0 gC i)) tA tA' ∧
     updated (λ i x, fadd x (at0 gC i)) tB tB') ∧
  (∃ tA' tB',
     backward_sub C h = Some (<[B := tB']> (<[A := tA']> h)) ∧
     updated (λ i x, fadd x (at0 gC i)) tA tA' ∧
     updated (λ i x, fsub x (at0 gC i)) tB tB') ∧
  (∃ tA' tB',
     backward_mul C h = Some (<[B := tB']> (<[A := tA']> h)) ∧
     updated (λ i x, fadd x (fmul (at0 gC i) (at0 (data tB) i))) tA tA' ∧
     updated (λ i x, fadd x (fmul (at0 gC i) (at0 (data tA) i))) tB tB').
Proof.
  intros Hnode HAB HlA HlB HdB HdA.
  pose proof Hnode as (HC & HinA & HinB & HA & HB & HAC & HBC & HgC & HgA & HgB).
  assert (C ≠ A) as HCA by (by intros ->).
  assert (C ≠ B) as HCB by (by intros ->).
  split; [|split]; eexists _, _;
    (split; [|split; [by apply pass_result_updated|by apply pass_result_updated]]).
  - apply (backward_binary_distinct _ _ _ _ h C A B tC tA tB gC Hnode HAB).
    + intros h0 Hh0 Hh0C Hsame Hrg i g x Hi Hx. unfold add_cell.
      rewrite (pass_load_grad h0 A tA g C tC gC i (size tA)) by done. simpl.
      rewrite load_grad_with_grad, Hx. simpl. by eapply pass_store.
    + intros h0 Hh0 Hh0C Hsame Hrg i g x Hi Hx. unfold add_cell.
      rewrite (pass_load_grad h0 B tB g C tC gC i (size tB)) by done. simpl.
      rewrite load_grad_with_grad, Hx. simpl. by eapply pass_store.
  - apply (backward_binary_distinct _ _ _ _ h C A B tC tA tB gC Hnode HAB).
    + intros h0 Hh0 Hh0C Hsame Hrg i g x Hi Hx. unfold add_cell.
      rewrite (pass_load_grad h0 A tA g C tC gC i (size tA)) by done. simpl.
      rewrite load_grad_with_grad, Hx. simpl. by eapply pass_store.
    + intros h0 Hh0 Hh0C Hsame Hrg i g x Hi Hx. unfold sub_cell.
      rewrite (pass_load_grad h0 B tB g C tC gC i (size tB)) by done. simpl.
      rewrite load_grad_with_grad, Hx. simpl. by eapply pass_store.
  - apply (backward_binary_distinct _ _ _ _ h C A B tC tA tB gC Hnode HAB).
    + intros h0 Hh0 Hh0C Hsame Hrg i g x Hi Hx. unfold mul_cell.
      rewrite (pass_load_grad h0 A tA g C tC gC i (size tA)) by done. simpl.
      rewrite (pass_load_data h0 h A tA g B tB i (size tA)) by done. simpl.
      rewrite load_grad_with_grad, Hx. simpl. by eapply pass_store.
    + intros h0 Hh0 Hh0C Hsame Hrg i g x Hi Hx. unfold mul_cell.
      rewrite (pass_load_grad h0 B tB g C tC gC i (size tB)) by done. simpl.
      rewrite (pass_load_data h0 h B tB g A tA i (size tB)) by done. simpl.
      rewrite load_grad_with_grad, Hx. simpl. by eapply pass_store.
Qed.

(** ** The same tensor as both operands *)

Lemma pass_result_wf val t :
  (∀ g, grad t = Some g → length g = size t) →
  ∀ g, grad (pass_result val t) = Some g → length g = size (pass_result val t).
Proof.
  intros Hg g. pose proof (length_grad_in_wf t Hg) as Hlen.
  unfold pass_result. destruct (requires_grad t); [|by apply Hg].
  simpl. intros [= <-]. unfold rule_result. by rewrite length_upd_range.
Qed.

Lemma pass_result_twice_updated (val_a val_b : nat → F → F) t :
  (∀ g, grad t = Some g → length g = size t) →
  updated (λ i x, val_b i (val_a i x)) t (pass_result val_b (pass_result val_a t)).
Proof.
  intros Hg. pose proof (length_grad_in_wf t Hg) as Hlen.
  unfold updated, pass_result. destruct (requires_grad t) eqn:Hrg; simpl.
  2:{ by rewrite Hrg. }
  rewrite Hrg.
  exists (rule_result val_b (set_grad t (Some (rule_result val_a t)))).
  assert (∀ g, grad (set_grad t (Some (rule_result val_a t))) = Some g →
    length g = size (set_grad t (Some (rule_result val_a t)))) as Hg1.
  { simpl. intros g [= <-]. by apply length_rule_result_wf. }
  split; [done|]. split.
  - by rewrite (length_rule_result_wf val_b _ Hg1).
  - intros i Hi.
    rewrite (lookup_rule_result_wf val_b _ i Hg1 Hi).
    do 2 f_equal. unfold grad_in at 1. simpl. unfold at0 at 1.
    by rewrite (lookup_rule_result_wf val_a t i Hg Hi).
Qed.

Lemma backward_binary_aliased body_a body_b (val_a val_b : nat → F → F)
    h C A tC tA gC :
  binary_node h C A A tC tA tA gC →
  (∀ h0 t, h0 !! A = Some t → h0 !! C = Some tC → size t = size tA →
     (∀ Y i, load_data h0 Y i = load_data h Y i) →
     ∀ i g x, (i < size tA)%nat → g !! i = Some x →
     body_a C A A i (with_grad h0 A t g)
     = Some (with_grad h0 A t (<[i := val_a i x]> g)) ∧
     body_b C A A i (with_grad h0 A t g)
     = Some (with_grad h0 A t (<[i := val_b i x]> g))) →
  backward_binary body_a body_b C h
  = Some (<[A := pass_result val_b (pass_result val_a tA)]> h).
Proof.
  intros (HC & HinA & HinB & HA & _ & HAC & _ & HgC & HgA & _) Hbody.
  unfold backward_binary. rewrite HC. simpl. rewrite HinA. simpl. rewrite HinB. simpl.
  rewrite (grad_pass_pointwise _ val_a h A tA HA HgA).
  2:{ intros _ i g x Hi Hx. by apply (Hbody h tA). }
  simpl.
  rewrite (grad_pass_pointwise _ val_b _ A (pass_result val_a tA)).
  - by rewrite insert_insert_eq.
  - by rewrite lookup_insert_eq.
  - by apply pass_result_wf.
  - intros _ i g x Hi Hx.
    assert (size (pass_result val_a tA) = size tA) as Hs
      by (unfold pass_result; by destruct (requires_grad tA)).
    rewrite Hs in Hi. apply (Hbody _ (pass_result val_a tA)); try done.
    + by rewrite lookup_insert_eq.
    + by rewrite lookup_insert_ne.
    + intros Y j. apply (load_data_insert_same _ _ _ tA); [done|apply data_pass_result].
Qed.

(** X6. When the two operands are one tensor [A] (the gradient of [a + a],
    [a - a] or [a * a]), the two halves of the rule both land in the one
    buffer: every cell receives [C.grad[i]] twice for add, receives it and
    loses it again for sub, and receives [C.grad[i] * A.data[i]] twice for
    mul; nothing else changes. *)
Theorem backward_same_operand_rule h C A tC tA gC :
  binary_node h C A A tC tA tA gC →
  (size tA ≤ length gC)%nat → (size tA ≤ length (data tA))%nat →
  (∃ tA', backward_add C h = Some (<[A := tA']> h) ∧
     updated (λ i x, fadd (fadd x (at0 gC i)) (at0 gC i)) tA tA') ∧
  (∃ tA', backward_sub C h = Some (<[A := tA']> h) ∧
     updated (λ i x, fsub (fadd x (at0 gC i)) (at0 gC i)) tA tA') ∧
  (∃ tA', backward_mul C h = Some (<[A := tA']> h) ∧
     updated (λ i x, fadd (fadd x (fmul (at0 gC i) (at0 (data tA) i)))
                          (fmul (at0 gC i) (at0 (data tA) i))) tA tA').
Proof.
  intros Hnode HlA HdA.
  pose proof Hnode as (HC & HinA & HinB & HA & _ & HAC & _ & HgC & HgA & _).
  assert (C ≠ A) as HCA by (by intros ->).
  split; [|split].
  - exists (pass_result (λ i x, fadd x (at0 gC i))
             (pass_result (λ i x, fadd x (at0 gC i)) tA)).
    split; [|by apply (pass_result_twice_updated (λ i x, fadd x (at0 gC i))
                         (λ i x, fadd x (at0 gC i)))].
    apply (backward_binary_aliased _ _ _ _ h C A tC tA gC Hnode).
    intros h0 t Hh0 Hh0C Hsz Hsame i g x Hi Hx. unfold add_cell.
    rewrite (pass_load_grad h0 A t g C tC gC i (size tA)) by done. simpl.
    rewrite load_grad_with_grad, Hx. simpl. split; by eapply pass_store.
  - exists (pass_result (λ i x, fsub x (at0 gC i))
             (pass_result (λ i x, fadd x (at0 gC i)) tA)).
    split; [|by apply (pass_result_twice_updated (λ i x, fadd x (at0 gC i))
                         (λ i x, fsub x (at0 gC i)))].
    apply (backward_binary_aliased _ _ _ _ h C A tC tA gC Hnode).
    intros h0 t Hh0 Hh0C Hsz Hsame i g x Hi Hx. unfold add_cell, sub_cell.
    rewrite (pass_load_grad h0 A t g C tC gC i (size tA)) by done. simpl.
    rewrite load_grad_with_grad, Hx. simpl. split; by eapply pass_store.
  - exists (pass_result (λ i x, fadd x (fmul (at0 gC i) (at0 (data tA) i)))
             (pass_result (λ i x, fadd x (fmul (at0 gC i) (at0 (data tA) i))) tA)).
    split; [|by apply (pass_result_twice_updated
                         (λ i x, fadd x (fmul (at0 gC i) (at0 (data tA) i)))
                         (λ i x, fadd x (fmul (at0 gC i) (at0 (data tA) i))))].
    apply (backward_binary_aliased _ _ _ _ h C A tC tA gC Hnode).
    intros h0 t Hh0 Hh0C Hsz Hsame i g x Hi Hx. unfold mul_cell.
    rewrite (pass_load_grad h0 A t g C tC gC i (size tA)) by done. simpl.
    rewrite (pass_load_data h0 h A t g A tA i (size tA)) by done. simpl.
    rewrite load_grad_with_grad, Hx. simpl. split; by eapply pass_store.
Qed.

(** ** Loss rules *)

Lemma lookup_with_grad (h0 : gmap nat (Tensor F)) X t g :
  with_grad h0 X t g !! X = Some (set_grad t (Some g)).
Proof. unfold with_grad. by rewrite lookup_insert_eq. Qed.

(** X7. [backward_mse] on a loss [L] of distinct predictions [P] and targets
    [T]: each cell of the predictions' gradient gains
    [(2 / P.size) * (P.data[i] - T.data[i]) * L.grad[0]], each cell of the
    targets' gradient loses the same term scaled by [T.size] instead; an
    operand that does not require gradients is left alone, and nothing else
    on the heap changes. *)
Theorem backward_mse_rule h L P T tL tP tT gL :
  binary_node h L P T tL tP tT gL → P ≠ T → (0 < length gL)%nat →
  (size tP ≤ length (data tP))%nat → (size tP ≤ length (data tT))%nat →
  (size tT ≤ length (data tP))%nat → (size tT ≤ length (data tT))%nat →
  ∃ tP' tT', backward_mse L h = Some (<[T := tT']> (<[P := tP']> h)) ∧
    updated (λ i x, fadd x (fmul (fmul (fdiv f2 (of_size (size tP)))
                                   (fsub (at0 (data tP) i) (at0 (data tT) i)))
                              (at0 gL 0))) tP tP' ∧
    updated (λ i x, fsub x (fmul (fmul (fdiv f2 (of_size (size tT)))
                                   (fsub (at0 (data tP) i) (at0 (data tT) i)))
                              (at0 gL 0))) tT tT'.
Proof.
  intros Hnode HPT HgL HPP HPT' HTP HTT.
  pose proof Hnode as (HL & HinP & HinT & HP & HT & HPL & HTL & HgL' & HgP & HgT).
  assert (L ≠ P) as HLP by (by intros ->).
  assert (L ≠ T) as HLT by (by intros ->).
  eexists _, _. split; [|split; [by apply pass_result_updated|by apply pass_result_updated]].
  apply (backward_binary_distinct _ _ _ _ h L P T tL tP tT gL Hnode HPT).
  - intros h0 Hh0 Hh0L Hsame Hrg i g x Hi Hx. unfold mse_cell_p, mse_term.
    rewrite lookup_with_grad. simpl.
    rewrite (pass_load_data h0 h P tP g P tP i (size tP)) by done. simpl.
    rewrite (pass_load_data h0 h P tP g T tT i (size tP)) by done. simpl.
    rewrite (pass_load_grad h0 P tP g L tL gL 0 1) by (try done; lia). simpl.
    rewrite load_grad_with_grad, Hx. simpl. by eapply pass_store.
  - intros h0 Hh0 Hh0L Hsame Hrg i g x Hi Hx. unfold mse_cell_t, mse_term.
    rewrite lookup_with_grad. simpl.
    rewrite (pass_load_data h0 h T tT g P tP i (size tT)) by done. simpl.
    rewrite (pass_load_data h0 h T tT g T tT i (size tT)) by done. simpl.
    rewrite (pass_load_grad h0 T tT g L tL gL 0 1) by (try done; lia). simpl.
    rewrite load_grad_with_grad, Hx. simpl. by eapply pass_store.
Qed.

(** X8. [backward_cross_entropy] and [backward_binary_cross_entropy] on a
    loss [L] of distinct predictions [P] and targets [T]: the predictions'
    gradient gains [(-t / p) * L.grad[0]], respectively
    [(-(t / p) + (1 - t) / (1 - p)) * L.grad[0]], per cell; the targets'
    gradient loses [(-log p) * L.grad[0]], respectively
    [(-log p + -log (1 - p)) * L.grad[0]]; nothing else changes. *)
Theorem backward_cross_entropy_rules h L P T tL tP tT gL :
  binary_node h L P T tL tP tT gL → P ≠ T → (0 < length gL)%nat →
  (size tP ≤ length (data tP))%nat → (size tP ≤ length (data tT))%nat →
  (size tT ≤ length (data tP))%nat →
  let p := at0 (data tP) in
  let t := at0 (data tT) in
  (∃ tP' tT', backward_cross_entropy L h = Some (<[T := tT']> (<[P := tP']> h)) ∧
     updated (λ i x, fadd x (fmul (fdiv (fneg (t i)) (p i)) (at0 gL 0))) tP tP' ∧
     updated (λ i x, fsub x (fmul (fneg (flog (p i))) (at0 gL 0))) tT tT') ∧
  (∃ tP' tT', backward_binary_cross_entropy L h
              = Some (<[T := tT']> (<[P := tP']> h)) ∧
     updated (λ i x, fadd x (fmul (fadd (fneg (fdiv (t i) (p i)))
                                        (fdiv (fsub f1 (t i)) (fsub f1 (p i))))
                                  (at0 gL 0))) tP tP' ∧
     updated (λ i x, fsub x (fmul (fadd (fneg (flog (p i)))
                                        (fneg (flog (fsub f1 (p i)))))
                                  (at0 gL 0))) tT tT').
Proof.
  intros Hnode HPT HgL HPP HPT' HTP p t.
  pose proof Hnode as (HL & HinP & HinT & HP & HT & HPL & HTL & HgL' & HgP & HgT).
  assert (L ≠ P) as HLP by (by intros ->).
  assert (L ≠ T) as HLT by (by intros ->).
  split; eexists _, _;
    (split; [|split; [by apply pass_result_updated|by apply pass_result_updated]]).
  - apply (backward_binary_distinct _ _ _ _ h L P T tL tP tT gL Hnode HPT).
    + intros h0 Hh0 Hh0L Hsame Hrg i g x Hi Hx. unfold ce_cell_p.
      rewrite (pass_load_data h0 h P tP g T tT i (size tP)) by done. simpl.
      rewrite (pass_load_data h0 h P tP g P tP i (size tP)) by done. simpl.
      rewrite (pass_load_grad h0 P tP g L tL gL 0 1) by (try done; lia). simpl.
      rewrite load_grad_with_grad, Hx. simpl. by eapply pass_store.
    + intros h0 Hh0 Hh0L Hsame Hrg i g x Hi Hx. unfold ce_cell_t.
      rewrite (pass_load_data h0 h T tT g P tP i (size tT)) by done. simpl.
      rewrite (pass_load_grad h0 T tT g L tL gL 0 1) by (try done; lia). simpl.
      rewrite load_grad_with_grad, Hx. simpl. by eapply pass_store.
  - apply (backward_binary_distinct _ _ _ _ h L P T tL tP tT gL Hnode HPT).
    + intros h0 Hh0 Hh0L Hsame Hrg i g x Hi Hx. unfold bce_cell_p.
      rewrite (pass_load_data h0 h P tP g T tT i (size tP)) by done. simpl.
      rewrite (pass_load_data h0 h P tP g P tP i (size tP)) by done. simpl.
      rewrite (pass_load_grad h0 P tP g L tL gL 0 1) by (try done; lia). simpl.
      rewrite load_grad_with_grad, Hx. simpl. by eapply pass_store.
    + intros h0 Hh0 Hh0L Hsame Hrg i g x Hi Hx. unfold bce_cell_t.
      rewrite (pass_load_data h0 h T tT g P tP i (size tT)) by done. simpl.
      rewrite (pass_load_grad h0 T tT g L tL gL 0 1) by (try done; lia). simpl.
      rewrite load_grad_with_grad, Hx. simpl. by eapply pass_store.
Qed.

End TwoInputFacts.

(** ** The rules run on concrete tensors, in exact integer arithmetic *)

Section Concrete.
Local Existing Instance Z_ops.

Lemma relu_heap_node :
  unary_node relu_heap 1 0 relu_out relu_in [5; 7; 11; 13].
Proof.
  unfold unary_node. repeat split; try reflexivity; try (simpl; lia).
  intros g. simpl. discriminate.
Defined.

Example backward_relu_run :
  (backward_relu 1 relu_heap ≫= (.!! 0%nat)) ≫= grad = Some [0; 0; 0; 13].
Proof. vm_compute. reflexivity. Qed.




Lemma softmax_heap_node :
  unary_node softmax_heap 1 0 softmax_out softmax_in [0; 0; 0; 1; 0; 0].
Proof.
  unfold unary_node. repeat split; try reflexivity; try (simpl; lia).
  intros g. simpl. intros [= <-]. reflexivity.
Defined.

(** The upstream gradient of the second row reaches every cell of the first
    row: the contraction is over the flattened tensor. *)
Example backward_softmax_crosses_rows :
  (backward_softmax 1 softmax_heap ≫= (.!! 0%nat)) ≫= grad
  = Some [-4; -8; -12; -12; -20; -24].
Proof. vm_compute. reflexivity. Qed.

Lemma backward_softmax_rule_witness :
  ∃ gZ', backward_softmax 1 softmax_heap
         = Some (with_grad softmax_heap 0 softmax_in gZ') ∧
         gZ' !! 0%nat = Some (-4).
Proof.
  destruct (backward_softmax_rule softmax_heap 1 0 softmax_out softmax_in
              [0; 0; 0; 1; 0; 0] softmax_heap_node) as (gZ' & Hrun & _ & Hval).
  exists gZ'. split; [exact Hrun|].
  assert (0 < size softmax_in)%nat as Hi by (simpl; lia).
  destruct (Hval 0%nat Hi) as [Hv _]. exact Hv.
Defined.

Lemma backward_sigmoid_tanh_rule_witness :
  ∃ gs gt,
    backward_sigmoid 1 softmax_heap = Some (with_grad softmax_heap 0 softmax_in gs) ∧
    backward_tanh 1 softmax_heap = Some (with_grad softmax_heap 0 softmax_in gt) ∧
    gs !! 3%nat = Some (-12) ∧ gt !! 3%nat = Some (-15).
Proof.
  destruct (backward_sigmoid_tanh_rule softmax_heap 1 0 softmax_out softmax_in
              [0; 0; 0; 1; 0; 0] softmax_heap_node)
    as (gs & gt & Hs & Ht & _ & _ & Hval & _).
  exists gs, gt. split; [exact Hs|]. split; [exact Ht|].
  assert (3 < size softmax_in)%nat as Hi by (simpl; lia).
  exact (Hval 3%nat Hi).
Defined.

Local Existing Instance Z_loss_ops.

Lemma binary_heap_node (C B : nat) d g op :
  (C = 2%nat ∨ C = 4%nat) → binary_heap !! C = Some (result d g op [0%nat; 1%nat]) →
  B = 1%nat →
  binary_node binary_heap C 0 B (result d g op [0%nat; 1%nat])
    (operand [2; 3] None) (operand [4; 5] (Some [10; 20])) g.
Proof.
  intros HC Hlook ->. unfold binary_node.
  split; [exact Hlook|]. do 4 (split; [reflexivity|]).
  split; [destruct HC as [-> | ->]; discriminate|].
  split; [destruct HC as [-> | ->]; discriminate|].
  split; [reflexivity|]. split; simpl; intros g'; [discriminate|].
  intros [= <-]. reflexivity.
Defined.

(** [TEST(backward_mul)]: [a = (2, 3)], [b = (4, 5)]; the gradient of [b]
    held [(10, 20)] already and is added to. *)
Example backward_mul_run :
  (backward_mul 2 binary_heap ≫= (.!! 0%nat)) ≫= grad = Some [4; 35] ∧
  (backward_mul 2 binary_heap ≫= (.!! 1%nat)) ≫= grad = Some [12; 41].
Proof. split; vm_compute; reflexivity. Qed.

(** [a * a]: the gradient is [2 * a * g]. *)
Example backward_mul_same_run :
  (backward_mul 3 binary_heap ≫= (.!! 0%nat)) ≫= grad = Some [4; 42].
Proof. vm_compute. reflexivity. Qed.

Lemma backward_add_sub_mul_rule_witness :
  ∃ tA' tB',
    backward_mul 2 binary_heap = Some (<[1%nat := tB']> (<[0%nat := tA']> binary_heap)) ∧
    updated (λ i x, x + at0 [1; 7] i * at0 [4; 5] i) (operand [2; 3] None) tA' ∧
    updated (λ i x, x + at0 [1; 7] i * at0 [2; 3] i)
      (operand [4; 5] (Some [10; 20])) tB'.
Proof.
  refine (proj2 (proj2 (backward_add_sub_mul_rule binary_heap 2 0 1 _ _ _ [1; 7]
    (binary_heap_node 2 1 [8; 15] [1; 7] "mul" (or_introl eq_refl) eq_refl eq_refl)
    _ _ _ _ _))); simpl; (discriminate || lia).
Defined.

Lemma backward_same_operand_rule_witness :
  ∃ tA', backward_mul 3 binary_heap = Some (<[0%nat := tA']> binary_heap) ∧
    updated (λ i x, x + at0 [1; 7] i * at0 [2; 3] i + at0 [1; 7] i * at0 [2; 3] i)
      (operand [2; 3] None) tA'.
Proof.
  refine (proj2 (proj2 (backward_same_operand_rule binary_heap 3 0
    (result [4; 9] [1; 7] "mul" [0%nat; 0%nat]) (operand [2; 3] None) [1; 7]
    _ _ _))); [|simpl; lia..].
  unfold binary_node. do 5 (split; [reflexivity|]).
  do 2 (split; [discriminate|]). split; [reflexivity|].
  split; simpl; intros g'; discriminate.
Defined.

Lemma backward_mse_rule_witness :
  ∃ tP' tT',
    backward_mse 4 binary_heap = Some (<[1%nat := tT']> (<[0%nat := tP']> binary_heap)) ∧
    updated (λ i x, x + 2 `div` 2 * (at0 [2; 3] i - at0 [4; 5] i) * 3)
      (operand [2; 3] None) tP' ∧
    updated (λ i x, x - 2 `div` 2 * (at0 [2; 3] i - at0 [4; 5] i) * 3)
      (operand [4; 5] (Some [10; 20])) tT'.
Proof.
  refine (backward_mse_rule binary_heap 4 0 1 _ _ _ [3]
    (binary_heap_node 4 1 [13] [3] "mse" (or_intror eq_refl) eq_refl eq_refl)
    _ _ _ _ _ _); simpl; (discriminate || lia).
Defined.

Lemma backward_cross_entropy_rules_witness :
  ∃ tP' tT',
    backward_cross_entropy 4 binary_heap
    = Some (<[1%nat := tT']> (<[0%nat := tP']> binary_heap)) ∧
    updated (λ i x, x + (- at0 [4; 5] i) `div` at0 [2; 3] i * 3)
      (operand [2; 3] None) tP' ∧
    updated (λ i x, x - - Z.log2 (at0 [2; 3] i) * 3)
      (operand [4; 5] (Some [10; 20])) tT'.
Proof.
  refine (proj1 (backward_cross_entropy_rules binary_heap 4 0 1 _ _ _ [3]
    (binary_heap_node 4 1 [13] [3] "mse" (or_intror eq_refl) eq_refl eq_refl)
    _ _ _ _ _)); simpl; (discriminate || lia).
Defined.

End Concrete.

End AutogradFacts.

(* ===================================================================== *)
(** * Facts about the optimizers *)
(* ===================================================================== *)

Module OptimFacts.
Import Registry Autograd Optim.

Section CreateFacts.
Context {InitFn StepFn FreeFn State Params W : Type}.
Variable call_init : InitFn → list nat → nat → Params → W → option State * W.

(** C9. [optimizer_create] returns null, and leaves the world as it was,
    whenever the parameter array is null, the count is zero, or one of the
    three lookups under the configured name gives null; a non-null optimizer
    comes back only when the array is not null, the count is not zero, the
    three lookups succeed and the state initializer returns a non-null
    state, and it then carries exactly these; conversely, when all of that
    holds and the allocation of the [Optimizer] succeeds, the result is not
    null. *)
Theorem optimizer_create_null_cases
    (reg : Registry (OptimizerRegistryEntry InitFn StepFn FreeFn))
    (parameters : option (list nat)) (num_parameters : nat)
    (config : OptimizerConfig Params) (malloc_ok : bool) (w : W) :
  let r := optimizer_create call_init reg parameters num_parameters config malloc_ok w in
  let init_fn := get_optimizer_init_state_fn reg (name config) in
  let step_fn := get_optimizer_step_fn reg (name config) in
  let free_fn := get_optimizer_free_state_fn reg (name config) in
  ((parameters = None ∨ num_parameters = 0%nat ∨
    init_fn = None ∨ step_fn = None ∨ free_fn = None) → r = (None, w)) ∧
  (∀ opt, r.1 = Some opt →
     ∃ ps i s f st,
       parameters = Some ps ∧ num_parameters ≠ 0%nat ∧
       init_fn = Some i ∧ step_fn = Some s ∧ free_fn = Some f ∧
       malloc_ok = true ∧
       call_init i ps num_parameters (params config) w = (Some st, r.2) ∧
       opt = {| opt_name := name config; parameters := ps;
                num_parameters := num_parameters; step := s;
                free_state := f; state := st |}) ∧
  (∀ ps i s f st w',
     parameters = Some ps → num_parameters ≠ 0%nat →
     init_fn = Some i → step_fn = Some s → free_fn = Some f →
     malloc_ok = true →
     call_init i ps num_parameters (params config) w = (Some st, w') →
     ∃ opt, r = (Some opt, w')).
Proof.
  intros r init_fn step_fn free_fn. subst r. unfold optimizer_create.
  fold init_fn step_fn free_fn. split; [|split].
  - intros Hcase. destruct parameters as [ps|]; [|done].
    destruct (decide (num_parameters = 0%nat)) as [|Hn]; [done|].
    destruct Hcase as [|[|[Hc|[Hc|Hc]]]]; try done; rewrite Hc.
    + done.
    + by destruct init_fn.
    + by destruct init_fn, step_fn.
  - intros opt. destruct parameters as [ps|]; [|done].
    destruct (decide (num_parameters = 0%nat)) as [|Hn]; [done|].
    destruct init_fn as [i|], step_fn as [s|], free_fn as [f|]; try done.
    destruct malloc_ok; [|done].
    destruct (call_init i ps num_parameters (params config) w) as [[st|] w'] eqn:E;
      simpl; [|done].
    intros [= <-]. by exists ps, i, s, f, st.
  - intros ps i s f st w' -> Hn -> -> -> -> Hinit.
    rewrite decide_False by done. rewrite Hinit. eauto.
Qed.

End CreateFacts.

(** [TEST(get_nonexistent_optimizer)] and [TEST(sgd_creation)] on the
    registry of [registry_init], with a state initializer that returns a
    state. *)
Lemma optimizer_create_null_cases_witness :
  let call_init :=
    λ (_ : string) (_ : list nat) (_ : nat) (_ : unit) (w : unit), (Some 7%nat, w) in
  optimizer_create call_init builtin_optimizers (Some [0%nat; 1%nat]) 2
    {| name := "nonexistent_optimizer"; params := tt |} true tt = (None, tt) ∧
  optimizer_create call_init builtin_optimizers None 2
    {| name := "sgd"; params := tt |} true tt = (None, tt) ∧
  ∃ opt, optimizer_create call_init builtin_optimizers (Some [0%nat; 1%nat]) 2
           {| name := "sgd"; params := tt |} true tt = (Some opt, tt).
Proof.
  intros call_init.
  split; [|split].
  - apply (optimizer_create_null_cases call_init). right. right. left. by vm_compute.
  - apply (optimizer_create_null_cases call_init). by left.
  - eapply (optimizer_create_null_cases call_init); try done; by vm_compute.
Defined.

(** ** What a step leaves alone *)

(** Membership in the short lists of written tensors. *)
Ltac list_mem :=
  repeat match goal with
  | H : _ ∉ _ :: _ |- _ => apply not_elem_of_cons in H as [? ?]
  | H : _ ∉ _ ++ _ |- _ => apply not_elem_of_app in H as [? ?]
  | H : _ ∈ _ ++ _ |- _ => apply elem_of_app in H as [?|?]
  | H : _ ∈ match ?o with Some _ => _ | None => _ end |- _ => destruct o
  | H : _ ∈ [] |- _ => by apply elem_of_nil in H
  | H : _ ∈ [_] |- _ => apply list_elem_of_singleton in H
  | |- _ ∉ _ => intros ?
  | H : _ ∈ _ :: _ |- _ => apply elem_of_cons in H as [?|?]
  | |- _ ≠ _ => intros ?
  end;
  subst; try done;
  repeat match goal with
  | H : _ ∉ match ?o with Some _ => _ | None => _ end |- _ => destruct o
  | H : ?x ∉ _ |- _ =>
      solve [ exfalso; apply H;
              rewrite ?elem_of_app, ?elem_of_cons, ?list_elem_of_singleton; auto ]
  end.

Section StepFacts.
Context {F : Type} `{FloatOps F}.
Implicit Types (h : gmap nat (Tensor F))
  (c : gmap nat (Tensor F) → option (gmap nat (Tensor F)))
  (body : nat → gmap nat (Tensor F) → option (gmap nat (Tensor F))).

Lemma writes_only_store_data p i val :
  writes_only (λ h : gmap nat (Tensor F), store_data h p i val) [p].
Proof.
  intros h h' Hs. unfold store_data in Hs.
  destruct (h !! p) as [tp|] eqn:Hp; simpl in Hs; [|done].
  case_decide; [|done]. injection Hs as <-. split.
  - intros q. destruct (decide (q = p)) as [->|Hne].
    + by rewrite lookup_insert_eq, Hp.
    + by rewrite lookup_insert_ne.
  - intros x Hx. rewrite lookup_insert_ne; [done|]. list_mem.
Qed.

Lemma writes_only_seq
    (c1 c2 : gmap nat (Tensor F) → option (gmap nat (Tensor F))) mods :
  writes_only c1 mods → writes_only c2 mods →
  writes_only (λ h : gmap nat (Tensor F), h1 ← c1 h; c2 h1) mods.
Proof.
  intros H1 H2 h h' Hrun.
  destruct (c1 h) as [h1|] eqn:E1; simpl in Hrun; [|done].
  destruct (H1 h h1 E1) as [Hg1 Hx1], (H2 h1 h' Hrun) as [Hg2 Hx2]. split.
  - intros q. by rewrite Hg2.
  - intros x Hx. by rewrite Hx2, Hx1.
Qed.

Lemma writes_only_for_loop body mods count start :
  (∀ j, writes_only (body j) mods) →
  writes_only (for_loop body start count) mods.
Proof.
  intros Hbody. revert start. induction count as [|c IH]; intros start h h' Hrun.
  - simpl in Hrun. by injection Hrun as <-.
  - simpl in Hrun. by apply (writes_only_seq (body start) (for_loop body (S start) c) mods).
Qed.

Lemma writes_only_sgd_plain st param j :
  writes_only (sgd_plain_body st param j) [param].
Proof.
  intros h h' Hrun. unfold sgd_plain_body in Hrun.
  destruct (load_data h param j) as [pj|]; simpl in Hrun; [|done].
  destruct (load_grad h param j) as [gj|]; simpl in Hrun; [|done].
  exact (writes_only_store_data _ _ _ _ _ Hrun).
Qed.

Lemma writes_only_sgd_momentum st i param j :
  writes_only (sgd_momentum_body st i param j) (param :: sgd_slots st i).
Proof.
  intros h h' Hrun. unfold sgd_momentum_body in Hrun. unfold sgd_slots.
  destruct (velocity_at st i) as [vel|]; simpl in Hrun; [|done].
  destruct (load_data h vel j) as [vj|]; simpl in Hrun; [|done].
  destruct (load_grad h param j) as [gj|]; simpl in Hrun; [|done].
  destruct (store_data h vel j _) as [h1|] eqn:E1; simpl in Hrun; [|done].
  destruct (load_data h1 param j) as [pj|]; simpl in Hrun; [|done].
  destruct (load_data h1 vel j) as [vj'|]; simpl in Hrun; [|done].
  destruct (writes_only_store_data _ _ _ _ _ E1) as [Hg1 Hx1].
  destruct (writes_only_store_data _ _ _ _ _ Hrun) as [Hg2 Hx2].
  split.
  - intros q. by rewrite Hg2.
  - intros x Hx. rewrite Hx2, Hx1; [done|list_mem..].
Qed.

Lemma writes_only_adam st bc1 bc2 i param j :
  writes_only (adam_body st bc1 bc2 i param j) (param :: adam_slots st i).
Proof.
  intros h h' Hrun. unfold adam_body in Hrun. unfold adam_slots.
  destruct (m st !! i) as [mi|]; simpl in Hrun; [|done].
  destruct (v st !! i) as [vi|]; simpl in Hrun; [|done].
  destruct (load_data h mi j); simpl in Hrun; [|done].
  destruct (load_grad h param j); simpl in Hrun; [|done].
  destruct (store_data h mi j _) as [h1|] eqn:E1; simpl in Hrun; [|done].
  destruct (load_data h1 vi j); simpl in Hrun; [|done].
  destruct (load_grad h1 param j); simpl in Hrun; [|done].
  destruct (store_data h1 vi j _) as [h2|] eqn:E2; simpl in Hrun; [|done].
  destruct (load_data h2 mi j); simpl in Hrun; [|done].
  destruct (load_data h2 vi j); simpl in Hrun; [|done].
  destruct (load_data h2 param j); simpl in Hrun; [|done].
  destruct (writes_only_store_data _ _ _ _ _ E1) as [Hg1 Hx1].
  destruct (writes_only_store_data _ _ _ _ _ E2) as [Hg2 Hx2].
  destruct (writes_only_store_data _ _ _ _ _ Hrun) as [Hg3 Hx3].
  split.
  - intros q. by rewrite Hg3, Hg2.
  - intros x Hx. rewrite Hx3, Hx2, Hx1; [done|list_mem..].
Qed.

Lemma sgd_param_body_spec parameters st :
  param_body_spec (sgd_param_body parameters st) parameters (sgd_slots st).
Proof.
  intros i h h' Hrun. unfold sgd_param_body in Hrun.
  destruct (parameters !! i) as [param|]; simpl in *; [|done].
  destruct (h !! param) as [tP|] eqn:HP; simpl in Hrun; [|done].
  exists param, tP. split; [done|split; [done|]].
  destruct (grad tP) eqn:Hg.
  2:{ injection Hrun as <-. done. }
  destruct (fgt (momentum st) f0).
  - destruct (writes_only_for_loop _ _ _ _ (writes_only_sgd_momentum st i param) _ _ Hrun)
      as [Hgr Hx].
    split; [done|split; [done|]]. intros x Hne Hsl. apply Hx. list_mem.
  - destruct (writes_only_for_loop _ _ _ _ (writes_only_sgd_plain st param) _ _ Hrun)
      as [Hgr Hx].
    split; [done|split; [done|]]. intros x Hne Hsl. apply Hx. list_mem.
Qed.

Lemma adam_param_body_spec parameters st bc1 bc2 :
  param_body_spec (adam_param_body parameters st bc1 bc2) parameters (adam_slots st).
Proof.
  intros i h h' Hrun. unfold adam_param_body in Hrun.
  destruct (parameters !! i) as [param|]; simpl in *; [|done].
  destruct (h !! param) as [tP|] eqn:HP; simpl in Hrun; [|done].
  exists param, tP. split; [done|split; [done|]].
  destruct (grad tP) eqn:Hg.
  2:{ injection Hrun as <-. done. }
  destruct (writes_only_for_loop _ _ _ _ (writes_only_adam st bc1 bc2 i param) _ _ Hrun)
    as [Hgr Hx].
  split; [done|split; [done|]]. intros x Hne Hsl. apply Hx. list_mem.
Qed.

Lemma sgd_param_null_grad parameters st i p tP h :
  parameters !! i = Some p → h !! p = Some tP → grad tP = None →
  sgd_param_body parameters st i h = Some h.
Proof.
  intros Hp HP Hg. unfold sgd_param_body.
  rewrite Hp. simpl. rewrite HP. simpl. by rewrite Hg.
Qed.

Lemma adam_param_null_grad parameters st bc1 bc2 i p tP h :
  parameters !! i = Some p → h !! p = Some tP → grad tP = None →
  adam_param_body parameters st bc1 bc2 i h = Some h.
Proof.
  intros Hp HP Hg. unfold adam_param_body.
  rewrite Hp. simpl. rewrite HP. simpl. by rewrite Hg.
Qed.

(** The loop over the parameters, seen from a tensor [x] that is neither a
    parameter with a gradient nor a slot of one. *)
Lemma param_loop_frame body parameters slots h0 x :
  param_body_spec body parameters slots →
  (∀ j q tQ, parameters !! j = Some q → h0 !! q = Some tQ → is_Some (grad tQ) →
     x ≠ q ∧ x ∉ slots j) →
  ∀ count start h h',
    (∀ q, grad <$> h !! q = grad <$> h0 !! q) → h !! x = h0 !! x →
    for_loop body start count h = Some h' →
    h' !! x = h0 !! x.
Proof.
  intros Hspec Hx. induction count as [|c IH]; intros start h h' Hg Hhx Hrun.
  - simpl in Hrun. by injection Hrun as <-.
  - simpl in Hrun. destruct (body start h) as [h1|] eqn:E; simpl in Hrun; [|done].
    destruct (Hspec start h h1 E) as (p & tP & Hp & HP & Hg1 & Hnull & Hfr).
    apply (IH (S start) h1 h'); [| |done].
    + intros q. by rewrite Hg1.
    + destruct (grad tP) as [g|] eqn:HgP; [|by rewrite Hnull].
      specialize (Hg p). rewrite HP in Hg. simpl in Hg.
      destruct (h0 !! p) as [tQ|] eqn:HQ; simpl in Hg; [|done].
      injection Hg as Hg. destruct (Hx start p tQ Hp HQ) as [Hne Hsl].
      { rewrite <- Hg, HgP. by eexists. }
      by rewrite Hfr.
Qed.

(** A parameter whose gradient is null, and its slots, are out of reach of
    every iteration that writes. *)
Lemma null_grad_out_of_reach parameters (slots : nat → list nat) h i p tP :
  slots_separate parameters slots →
  parameters !! i = Some p → h !! p = Some tP → grad tP = None →
  ∀ x, x = p ∨ x ∈ slots i →
  ∀ j q tQ, parameters !! j = Some q → h !! q = Some tQ → is_Some (grad tQ) →
    x ≠ q ∧ x ∉ slots j.
Proof.
  intros Hsep Hp HP Hg x Hx j q tQ Hq HQ [g HgQ].
  assert (q ≠ p) as Hqp. { intros ->. rewrite HP in HQ. injection HQ as <-. congruence. }
  assert (j ≠ i) as Hji. { intros ->. congruence. }
  destruct Hx as [->|Hx].
  - split; [done|]. intros Hin. destruct (Hsep j p Hin) as [Hnp _].
    apply Hnp. by eapply list_elem_of_lookup_2.
  - destruct (Hsep i x Hx) as [Hnp Hsl]. split; [|by apply Hsl].
    intros ->. apply Hnp. by eapply list_elem_of_lookup_2.
Qed.

(** C10. A parameter tensor whose gradient buffer is null is skipped by
    [sgd_step] and by [adam_step]: when the state tensors are the
    optimizer's own, the tensor at that address (its data buffer with it) and
    the state tensors that belong to it (its velocity, its first and second
    moments) are after the step what they were before, and the iteration for
    it alone changes nothing at all. [adam_step] still counts the step in
    [t], which belongs to no parameter. *)
Theorem step_skips_null_grad (parameters : list nat) (num_parameters : nat)
    (h : gmap nat (Tensor F)) (i p : nat) (tP : Tensor F) :
  parameters !! i = Some p → h !! p = Some tP → grad tP = None →
  (∀ (st : SGDState F) h',
     slots_separate parameters (sgd_slots st) →
     sgd_step parameters num_parameters st h = Some h' →
     sgd_param_body parameters st i h = Some h ∧
     h' !! p = Some tP ∧ ∀ x, x ∈ sgd_slots st i → h' !! x = h !! x) ∧
  (∀ (st st' : AdamState F) h',
     slots_separate parameters (adam_slots st) →
     adam_step parameters num_parameters st h = Some (st', h') →
     (∀ bc1 bc2, adam_param_body parameters st' bc1 bc2 i h = Some h) ∧
     h' !! p = Some tP ∧ (∀ x, x ∈ adam_slots st i → h' !! x = h !! x) ∧
     m st' = m st ∧ v st' = v st ∧ t st' = t st + 1).
Proof.
  intros Hp HP Hg. split.
  - intros st h' Hsep Hrun. split; [by eapply sgd_param_null_grad|].
    unfold sgd_step in Hrun.
    pose proof (null_grad_out_of_reach _ _ _ _ _ _ Hsep Hp HP Hg) as Hout.
    split.
    + rewrite <- HP.
      eapply (param_loop_frame _ _ _ h p (sgd_param_body_spec parameters st));
        [apply Hout; by left| | |exact Hrun]; done.
    + intros x Hx.
      eapply (param_loop_frame _ _ _ h x (sgd_param_body_spec parameters st));
        [apply Hout; by right| | |exact Hrun]; done.
  - intros st st' h' Hsep Hrun. unfold adam_step in Hrun.
    case_decide; [|done].
    match type of Hrun with
    | context [for_loop ?b 0%nat num_parameters h] =>
        destruct (for_loop b 0%nat num_parameters h) as [h1|] eqn:E
    end; simpl in Hrun; [|done].
    injection Hrun as <- <-. simpl.
    split; [intros; by eapply adam_param_null_grad|].
    pose proof (null_grad_out_of_reach _ _ _ _ _ _ Hsep Hp HP Hg) as Hout.
    split; [|split; [|done]].
    + rewrite <- HP.
      eapply (param_loop_frame _ _ _ h p (adam_param_body_spec parameters _ _ _));
        [apply Hout; by left| | |exact E]; done.
    + intros x Hx.
      eapply (param_loop_frame _ _ _ h x (adam_param_body_spec parameters _ _ _));
        [apply Hout; by right| | |exact E]; done.
Qed.

End StepFacts.

(** ** What a step computes *)

Section StepResults.
Context {F : Type} `{FloatOps F}.
Implicit Types (h : gmap nat (Tensor F)).

Lemma load_data_at h p tp j : h !! p = Some tp → load_data h p j = data tp !! j.
Proof. intros Hp. unfold load_data. by rewrite Hp. Qed.

Lemma load_grad_at h p tp g j :
  h !! p = Some tp → grad tp = Some g → load_grad h p j = g !! j.
Proof. intros Hp Hg. unfold load_grad. rewrite Hp. simpl. by rewrite Hg. Qed.

Lemma store_data_at h p tp j x :
  h !! p = Some tp → (j < length (data tp))%nat →
  store_data h p j x = Some (<[p := set_data tp (<[j := x]> (data tp))]> h).
Proof. intros Hp Hj. unfold store_data. rewrite Hp. simpl. by rewrite decide_True. Qed.

Lemma set_data_id (tp : Tensor F) : set_data tp (data tp) = tp.
Proof. by destruct tp. Qed.

Lemma lookup_upd_range_old (val : nat → F → F) n (d : list F) j :
  (n ≤ j)%nat → upd_range val 0 n d !! j = d !! j.
Proof.
  intros Hj. rewrite AutogradFacts.lookup_upd_range. by rewrite decide_False by lia.
Qed.

Lemma upd_range_snoc (val : nat → F → F) n (d : list F) x :
  d !! n = Some x →
  <[n := val n x]> (upd_range val 0 n d) = upd_range val 0 (S n) d.
Proof.
  intros Hx. apply list_eq. intros k.
  assert (n < length d)%nat as Hn by by eapply lookup_lt_Some.
  rewrite AutogradFacts.lookup_upd_range.
  destruct (decide (k = n)) as [->|Hne].
  - rewrite list_lookup_insert_eq by by rewrite AutogradFacts.length_upd_range.
    rewrite decide_True by lia. by rewrite Hx.
  - rewrite list_lookup_insert_ne by done.
    rewrite AutogradFacts.lookup_upd_range.
    destruct (decide (0 ≤ k < 0 + n)%nat);
      [rewrite decide_True by lia|rewrite decide_False by lia]; done.
Qed.

Lemma data_updated_upd_range n (val : nat → F → F) (tX : Tensor F) :
  (n ≤ length (data tX))%nat →
  data_updated n val tX (set_data tX (upd_range val 0 n (data tX))).
Proof.
  intros Hn. exists (upd_range val 0 n (data tX)). split; [done|]. split; [|split].
  - by rewrite AutogradFacts.length_upd_range.
  - intros j Hj. rewrite AutogradFacts.lookup_upd_range, decide_True by lia.
    unfold at0. destruct (lookup_lt_is_Some_2 (data tX) j) as [x ->]; [lia|done].
  - intros j Hj. by apply lookup_upd_range_old.
Qed.

(** A loop that keeps an invariant runs to its end. *)
Lemma for_loop_inv (body : nat → gmap nat (Tensor F) → option (gmap nat (Tensor F)))
    (I : nat → gmap nat (Tensor F) → Prop) count start h :
  I start h →
  (∀ j h1, (start ≤ j < start + count)%nat → I j h1 →
     ∃ h2, body j h1 = Some h2 ∧ I (S j) h2) →
  ∃ h', for_loop body start count h = Some h' ∧ I (start + count)%nat h'.
Proof.
  revert start h. induction count as [|c IH]; intros start h HI Hstep; simpl.
  - exists h. split; [done|]. by rewrite Nat.add_0_r.
  - destruct (Hstep start h) as (h2 & -> & HI2); [lia|done|]. simpl.
    destruct (IH (S start) h2 HI2) as (h' & Hrun & HI').
    { intros j h1 Hj. apply Hstep. lia. }
    exists h'. split; [done|]. by rewrite Nat.add_succ_r.
Qed.

(** The loop over the parameters when the iterations write tensors of their
    own: iteration [i] sees its tensors as they were on entry, and what it
    establishes about them still holds at the end. *)
Lemma for_loop_disjoint
    (body : nat → gmap nat (Tensor F) → option (gmap nat (Tensor F)))
    (K : nat → list nat) (Q : nat → gmap nat (Tensor F) → Prop) n h0 :
  (∀ i j x, (i < n)%nat → (j < n)%nat → x ∈ K i → x ∈ K j → i = j) →
  (∀ i h h', (∀ x, x ∈ K i → h' !! x = h !! x) → Q i h → Q i h') →
  (∀ i h, (i < n)%nat → (∀ x, x ∈ K i → h !! x = h0 !! x) →
     ∃ h', body i h = Some h' ∧ (∀ x, x ∉ K i → h' !! x = h !! x) ∧ Q i h') →
  ∃ h', for_loop body 0 n h0 = Some h' ∧
    (∀ i, (i < n)%nat → Q i h') ∧
    (∀ x, (∀ i, (i < n)%nat → x ∉ K i) → h' !! x = h0 !! x).
Proof.
  intros Hdisj Hloc Hbody.
  destruct (for_loop_inv body
    (λ s h, (∀ i x, (s ≤ i < n)%nat → x ∈ K i → h !! x = h0 !! x) ∧
            (∀ i, (i < s)%nat → (i < n)%nat → Q i h) ∧
            (∀ x, (∀ i, (i < n)%nat → x ∉ K i) → h !! x = h0 !! x)) n 0 h0)
    as (h' & Hrun & _ & HQ & Hfr).
  - split; [done|]. split; [|done]. intros i Hi. lia.
  - intros j h1 Hj (Hsame & HQ & Hfr).
    destruct (Hbody j h1) as (h2 & Hrun & Hout & HQj);
      [lia|intros x Hx; apply (Hsame j); [lia|done]|].
    exists h2. split; [done|]. split; [|split].
    + intros i x Hi Hx. rewrite Hout; [apply (Hsame i); [lia|done]|].
      intros Hxj. assert (i = j) by (apply (Hdisj i j x); [lia|lia|done|done]). lia.
    + intros i Hi Hin. destruct (decide (i = j)) as [->|Hne]; [done|].
      apply (Hloc i h1); [|apply HQ; [lia|done]].
      intros x Hx. apply Hout. intros Hxj.
      apply Hne. apply (Hdisj i j x); [lia|lia|done|done].
    + intros x Hx. rewrite Hout; [by apply Hfr|]. apply Hx. lia.
  - exists h'. split; [done|]. split; [|done]. intros i Hi. by apply HQ.
Qed.

(** The tensors of two iterations of a step do not meet when the tensors of
    the step are all different. *)
Lemma step_cells_disjoint (K : nat → list nat) n :
  NoDup (concat (K <$> seq 0 n)) →
  (∀ i, (i < n)%nat → NoDup (K i)) ∧
  (∀ i j x, (i < n)%nat → (j < n)%nat → x ∈ K i → x ∈ K j → i = j).
Proof.
  induction n as [|n IH]; intros Hnd.
  - split; intros; lia.
  - rewrite seq_S, fmap_app, concat_app in Hnd. simpl in Hnd.
    rewrite app_nil_r in Hnd. apply NoDup_app in Hnd as (Hnd1 & Hsep & Hnd2).
    destruct (IH Hnd1) as [IH1 IH2].
    assert (∀ i x, (i < n)%nat → x ∈ K i → x ∈ concat (K <$> seq 0 n)) as Hin.
    { intros i x Hi Hx. apply RegistryFacts.elem_of_concat. exists (K i). split; [done|].
      apply list_elem_of_fmap. exists i. split; [done|].
      apply elem_of_seq. lia. }
    split.
    + intros i Hi. destruct (decide (i = n)) as [->|Hne]; [done|]. apply IH1. lia.
    + intros i j x Hi Hj Hxi Hxj.
      destruct (decide (i = n)) as [->|Hni], (decide (j = n)) as [->|Hnj]; [done| | |].
      * exfalso. apply (Hsep x); [apply (Hin j)|]; [lia|done..].
      * exfalso. apply (Hsep x); [apply (Hin i)|]; [lia|done..].
      * apply (IH2 i j x); [lia|lia|done..].
Qed.

Lemma not_in_step_cells parameters slots n x :
  x ∉ step_cells parameters slots n →
  ∀ i, (i < n)%nat → x ∉ touched parameters slots i.
Proof.
  intros Hx i Hi Hin. apply Hx. unfold step_cells.
  apply RegistryFacts.elem_of_concat. exists (touched parameters slots i). split; [done|].
  apply list_elem_of_fmap. exists i. split; [done|]. apply elem_of_seq. lia.
Qed.

Local Arguments upd_range : simpl never.

Lemma sgd_plain_loop (st : SGDState F) p tP g h :
  h !! p = Some tP → grad tP = Some g →
  (size tP ≤ length g)%nat → (size tP ≤ length (data tP))%nat →
  ∃ h', for_loop (sgd_plain_body st p) 0 (size tP) h = Some h' ∧
    (∀ x, x ≠ p → h' !! x = h !! x) ∧
    h' !! p = Some (set_data tP
      (upd_range (λ j x, fsub x (fmul (learning_rate st) (at0 g j)))
         0 (size tP) (data tP))).
Proof.
  intros Hp Hg Hlg Hld.
  set (val := λ (j : nat) (x : F), fsub x (fmul (learning_rate st) (at0 g j))).
  apply (for_loop_inv (sgd_plain_body st p)
    (λ j h1, (∀ x, x ≠ p → h1 !! x = h !! x) ∧
             h1 !! p = Some (set_data tP (upd_range val 0 j (data tP))))
    (size tP) 0 h).
  - split; [done|]. unfold upd_range. by rewrite set_data_id.
  - intros j h1 Hj [Hfr Hp1].
    destruct (lookup_lt_is_Some_2 (data tP) j) as [pj Hpj]; [lia|].
    destruct (lookup_lt_is_Some_2 g j) as [gj Hgj]; [lia|].
    unfold sgd_plain_body.
    rewrite (load_data_at h1 p _ j Hp1). simpl.
    rewrite lookup_upd_range_old by lia. rewrite Hpj. simpl.
    rewrite (load_grad_at h1 p _ g j Hp1 Hg), Hgj. simpl.
    rewrite (store_data_at h1 p _ j _ Hp1)
      by (simpl; rewrite AutogradFacts.length_upd_range; lia).
    eexists. split; [done|]. split.
    + intros x Hx. rewrite lookup_insert_ne by done. by apply Hfr.
    + rewrite lookup_insert_eq. simpl.
      rewrite <- (upd_range_snoc val j (data tP) pj Hpj).
      unfold val, at0. by rewrite Hgj.
Qed.

Lemma sgd_momentum_loop (st : SGDState F) i p vel tP tV g h :
  velocity_at st i = Some vel → p ≠ vel →
  h !! p = Some tP → h !! vel = Some tV → grad tP = Some g →
  (size tP ≤ length g)%nat → (size tP ≤ length (data tP))%nat →
  (size tP ≤ length (data tV))%nat →
  ∃ h', for_loop (sgd_momentum_body st i p) 0 (size tP) h = Some h' ∧
    (∀ x, x ≠ p → x ≠ vel → h' !! x = h !! x) ∧
    h' !! vel = Some (set_data tV
      (upd_range (λ j vj, fsub (fmul (momentum st) vj)
                               (fmul (learning_rate st) (at0 g j)))
         0 (size tP) (data tV))) ∧
    h' !! p = Some (set_data tP
      (upd_range (λ j pj, fadd pj (fsub (fmul (momentum st) (at0 (data tV) j))
                                        (fmul (learning_rate st) (at0 g j))))
         0 (size tP) (data tP))).
Proof.
  intros Hvel Hne Hp Hv Hg Hlg Hld Hlv.
  assert (vel ≠ p) as Hne' by done.
  set (valV := λ (j : nat) (vj : F),
         fsub (fmul (momentum st) vj) (fmul (learning_rate st) (at0 g j))).
  set (valP := λ (j : nat) (pj : F), fadd pj (valV j (at0 (data tV) j))).
  apply (for_loop_inv (sgd_momentum_body st i p)
    (λ j h1, (∀ x, x ≠ p → x ≠ vel → h1 !! x = h !! x) ∧
             h1 !! vel = Some (set_data tV (upd_range valV 0 j (data tV))) ∧
             h1 !! p = Some (set_data tP (upd_range valP 0 j (data tP))))
    (size tP) 0 h).
  - split; [done|]. unfold upd_range. by rewrite !set_data_id.
  - intros j h1 Hj (Hfr & Hv1 & Hp1).
    destruct (lookup_lt_is_Some_2 (data tP) j) as [pj Hpj]; [lia|].
    destruct (lookup_lt_is_Some_2 (data tV) j) as [vj Hvj]; [lia|].
    destruct (lookup_lt_is_Some_2 g j) as [gj Hgj]; [lia|].
    unfold sgd_momentum_body. rewrite Hvel. simpl.
    rewrite (load_data_at h1 vel _ j Hv1). simpl.
    rewrite lookup_upd_range_old by lia. rewrite Hvj. simpl.
    rewrite (load_grad_at h1 p _ g j Hp1 Hg), Hgj. simpl.
    rewrite (store_data_at h1 vel _ j _ Hv1)
      by (simpl; rewrite AutogradFacts.length_upd_range; lia).
    simpl.
    erewrite (load_data_at _ p) by (rewrite lookup_insert_ne by done; exact Hp1).
    simpl. rewrite lookup_upd_range_old by lia. rewrite Hpj. simpl.
    erewrite (load_data_at _ vel) by apply lookup_insert_eq.
    simpl. rewrite list_lookup_insert_eq
      by (rewrite AutogradFacts.length_upd_range; lia).
    simpl.
    erewrite (store_data_at _ p);
      [|rewrite lookup_insert_ne by done; exact Hp1
       |simpl; rewrite AutogradFacts.length_upd_range; lia].
    eexists. split; [done|]. split; [|split].
    + intros x Hxp Hxv. rewrite !lookup_insert_ne by done. by apply Hfr.
    + rewrite lookup_insert_ne by done. rewrite lookup_insert_eq. simpl.
      rewrite <- (upd_range_snoc valV j (data tV) vj Hvj).
      unfold valV, at0. by rewrite Hgj.
    + rewrite lookup_insert_eq. simpl.
      rewrite <- (upd_range_snoc valP j (data tP) pj Hpj).
      unfold valP, valV, at0. by rewrite Hvj, Hgj.
Qed.

Lemma adam_loop (st : AdamState F) bc1 bc2 i p mi vi tP tM tV g h :
  m st !! i = Some mi → v st !! i = Some vi →
  p ≠ mi → p ≠ vi → mi ≠ vi →
  h !! p = Some tP → h !! mi = Some tM → h !! vi = Some tV → grad tP = Some g →
  (size tP ≤ length g)%nat → (size tP ≤ length (data tP))%nat →
  (size tP ≤ length (data tM))%nat → (size tP ≤ length (data tV))%nat →
  ∃ h', for_loop (adam_body st bc1 bc2 i p) 0 (size tP) h = Some h' ∧
    (∀ x, x ≠ p → x ≠ mi → x ≠ vi → h' !! x = h !! x) ∧
    h' !! mi = Some (set_data tM
      (upd_range (λ j x, adam_m_cell st x (at0 g j)) 0 (size tP) (data tM))) ∧
    h' !! vi = Some (set_data tV
      (upd_range (λ j x, adam_v_cell st x (at0 g j)) 0 (size tP) (data tV))) ∧
    h' !! p = Some (set_data tP
      (upd_range (λ j x,
          fsub x (fdiv (fmul (adam_learning_rate st)
                          (fdiv (adam_m_cell st (at0 (data tM) j) (at0 g j)) bc1))
                       (fadd (fsqrt (fdiv (adam_v_cell st (at0 (data tV) j) (at0 g j)) bc2))
                             (epsilon st))))
         0 (size tP) (data tP))).
Proof.
  intros Hmi Hvi Hpm Hpv Hmv Hp Hm Hv Hg Hlg Hld Hlm Hlv.
  assert (mi ≠ p) as Hmp by done. assert (vi ≠ p) as Hvp by done.
  assert (vi ≠ mi) as Hvm by done.
  set (valM := λ (j : nat) (x : F), adam_m_cell st x (at0 g j)).
  set (valV := λ (j : nat) (x : F), adam_v_cell st x (at0 g j)).
  set (valP := λ (j : nat) (x : F),
     fsub x (fdiv (fmul (adam_learning_rate st)
                     (fdiv (adam_m_cell st (at0 (data tM) j) (at0 g j)) bc1))
                  (fadd (fsqrt (fdiv (adam_v_cell st (at0 (data tV) j) (at0 g j)) bc2))
                        (epsilon st)))).
  apply (for_loop_inv (adam_body st bc1 bc2 i p)
    (λ j h1, (∀ x, x ≠ p → x ≠ mi → x ≠ vi → h1 !! x = h !! x) ∧
             h1 !! mi = Some (set_data tM (upd_range valM 0 j (data tM))) ∧
             h1 !! vi = Some (set_data tV (upd_range valV 0 j (data tV))) ∧
             h1 !! p = Some (set_data tP (upd_range valP 0 j (data tP))))
    (size tP) 0 h).
  - split; [done|]. unfold upd_range. by rewrite !set_data_id.
  - intros j h1 Hj (Hfr & Hm1 & Hv1 & Hp1).
    destruct (lookup_lt_is_Some_2 (data tP) j) as [pj Hpj]; [lia|].
    destruct (lookup_lt_is_Some_2 (data tM) j) as [mj Hmj]; [lia|].
    destruct (lookup_lt_is_Some_2 (data tV) j) as [vj Hvj]; [lia|].
    destruct (lookup_lt_is_Some_2 g j) as [gj Hgj]; [lia|].
    unfold adam_body. rewrite Hmi, Hvi. simpl.
    rewrite (load_data_at h1 mi _ j Hm1). simpl.
    rewrite lookup_upd_range_old by lia. rewrite Hmj. simpl.
    rewrite (load_grad_at h1 p _ g j Hp1 Hg), Hgj. simpl.
    rewrite (store_data_at h1 mi _ j _ Hm1)
      by (simpl; rewrite AutogradFacts.length_upd_range; lia).
    simpl.
    erewrite (load_data_at _ vi) by (rewrite lookup_insert_ne by done; exact Hv1).
    simpl. rewrite lookup_upd_range_old by lia. rewrite Hvj. simpl.
    erewrite (load_grad_at _ p);
      [|rewrite lookup_insert_ne by done; exact Hp1|exact Hg].
    rewrite Hgj. simpl.
    erewrite (store_data_at _ vi);
      [|rewrite lookup_insert_ne by done; exact Hv1
       |simpl; rewrite AutogradFacts.length_upd_range; lia].
    simpl.
    erewrite (load_data_at _ mi)
      by (rewrite lookup_insert_ne by done; apply lookup_insert_eq).
    simpl. rewrite list_lookup_insert_eq
      by (rewrite AutogradFacts.length_upd_range; lia).
    simpl.
    erewrite (load_data_at _ vi) by apply lookup_insert_eq.
    simpl. rewrite list_lookup_insert_eq
      by (rewrite AutogradFacts.length_upd_range; lia).
    simpl.
    erewrite (load_data_at _ p) by (rewrite !lookup_insert_ne by done; exact Hp1).
    simpl. rewrite lookup_upd_range_old by lia. rewrite Hpj. simpl.
    erewrite (store_data_at _ p);
      [|rewrite !lookup_insert_ne by done; exact Hp1
       |simpl; rewrite AutogradFacts.length_upd_range; lia].
    eexists. split; [done|]. split; [|split; [|split]].
    + intros x Hxp Hxm Hxv. rewrite !lookup_insert_ne by done. by apply Hfr.
    + rewrite !lookup_insert_ne by done. rewrite lookup_insert_eq. simpl.
      rewrite <- (upd_range_snoc valM j (data tM) mj Hmj).
      unfold valM, adam_m_cell, at0. by rewrite Hgj.
    + rewrite lookup_insert_ne by done. rewrite lookup_insert_eq. simpl.
      rewrite <- (upd_range_snoc valV j (data tV) vj Hvj).
      unfold valV, adam_v_cell, at0. by rewrite Hgj.
    + rewrite lookup_insert_eq. simpl.
      rewrite <- (upd_range_snoc valP j (data tP) pj Hpj).
      unfold valP, adam_m_cell, adam_v_cell, at0. by rewrite Hmj, Hvj, Hgj.
Qed.

Lemma step_cells_plain parameters n :
  (n ≤ length parameters)%nat →
  step_cells parameters (λ _, []) n = take n parameters.
Proof.
  unfold step_cells. induction n as [|n IH]; intros Hn; [by rewrite take_0|].
  rewrite seq_S, fmap_app, concat_app, IH by lia. simpl.
  destruct (lookup_lt_is_Some_2 parameters n) as [p Hp]; [lia|].
  rewrite (take_S_r _ _ p Hp). unfold touched. rewrite Hp. simpl. done.
Qed.

Lemma touched_param parameters slots i p :
  parameters !! i = Some p → p ∈ touched parameters slots i.
Proof. intros Hp. unfold touched. rewrite Hp. simpl. by left. Qed.

Lemma touched_slot parameters (slots : nat → list nat) i s :
  s ∈ slots i → s ∈ touched parameters slots i.
Proof. intros Hs. unfold touched. apply elem_of_app. by right. Qed.

Lemma not_touched parameters (slots : nat → list nat) i p x :
  parameters !! i = Some p → x ∉ touched parameters slots i →
  x ≠ p ∧ x ∉ slots i.
Proof.
  intros Hp Hx. split.
  - intros ->. apply Hx. by apply touched_param.
  - intros Hs. apply Hx. by apply touched_slot.
Qed.

Lemma ready_length h parameters slots k n :
  (∀ i, (i < n)%nat → param_ready h parameters slots k i) →
  (n ≤ length parameters)%nat.
Proof.
  intros Hready. destruct n as [|n]; [lia|].
  destruct (Hready n) as (p & tP & Hp & _); [lia|].
  apply lookup_lt_Some in Hp. lia.
Qed.

(** X9. [sgd_step] without momentum, on distinct parameter tensors that are
    live and whose buffers hold [size] cells: the step succeeds; a parameter
    with a gradient buffer gets [data[j] - learning_rate * grad[j]] in every
    cell [j < size] and is otherwise as before; a parameter without a
    gradient buffer and every tensor that is not a parameter are untouched.
    No velocity is read. *)
Theorem sgd_step_plain parameters n (st : SGDState F) h :
  fgt (momentum st) f0 = false →
  NoDup (take n parameters) →
  (∀ i, (i < n)%nat → param_ready h parameters (λ _, []) 0 i) →
  ∃ h', sgd_step parameters n st h = Some h' ∧
    (∀ x, x ∉ take n parameters → h' !! x = h !! x) ∧
    (∀ i p tP, (i < n)%nat → parameters !! i = Some p → h !! p = Some tP →
       match grad tP with
       | None => h' !! p = Some tP
       | Some g => ∃ tP', h' !! p = Some tP' ∧
           data_updated (size tP)
             (λ j x, fsub x (fmul (learning_rate st) (at0 g j))) tP tP'
       end).
Proof.
  intros Hmom Hnd Hready.
  pose proof (ready_length _ _ _ _ _ Hready) as Hn.
  rewrite <- (step_cells_plain parameters n Hn) in Hnd.
  rewrite <- (step_cells_plain parameters n Hn).
  destruct (step_cells_disjoint _ n Hnd) as [HndK Hdisj].
  destruct (for_loop_disjoint (sgd_param_body parameters st)
    (touched parameters (λ _, []))
    (λ i h', ∀ p tP, parameters !! i = Some p → h !! p = Some tP →
       match grad tP with
       | None => h' !! p = Some tP
       | Some g => ∃ tP', h' !! p = Some tP' ∧
           data_updated (size tP)
             (λ j x, fsub x (fmul (learning_rate st) (at0 g j))) tP tP'
       end) n h Hdisj) as (h' & Hrun & HQ & Hfr).
  - intros i h1 h2 Hsame HQ p tP Hp HP. specialize (HQ p tP Hp HP).
    pose proof (touched_param parameters (λ _, []) i p Hp) as Hin.
    destruct (grad tP); [|by rewrite Hsame].
    destruct HQ as (tP' & Hl & Hu). exists tP'. split; [by rewrite Hsame|done].
  - intros i h1 Hi Hsame. destruct (Hready i Hi) as (p & tP & Hp & HP & Hwf).
    pose proof (touched_param parameters (λ _, []) i p Hp) as Hin.
    assert (h1 !! p = Some tP) as Hp1 by (by rewrite Hsame).
    unfold sgd_param_body. rewrite Hp. simpl. rewrite Hp1. simpl.
    destruct (grad tP) as [g|] eqn:Hg.
    + rewrite Hmom. destruct (Hwf g eq_refl) as (Hlg & Hld & _).
      destruct (sgd_plain_loop st p tP g h1 Hp1 Hg Hlg Hld)
        as (h2 & Hrun & Hfr & Hres).
      exists h2. split; [done|]. split.
      * intros x Hx. apply Hfr. by apply (not_touched parameters (λ _, []) i).
      * intros p' tP' Hp' HP'. injection Hp' as <-.
        rewrite HP in HP'. injection HP' as <-. rewrite Hg.
        eexists. split; [exact Hres|]. by apply data_updated_upd_range.
    + exists h1. split; [done|]. split; [done|].
      intros p' tP' Hp' HP'. injection Hp' as <-.
      rewrite HP in HP'. injection HP' as <-. by rewrite Hg.
  - exists h'. split; [exact Hrun|]. split.
    + intros x Hx. apply Hfr. by apply not_in_step_cells.
    + intros i p tP Hi Hp HP. by apply (HQ i Hi).
Qed.

(** X10. [sgd_step] with momentum, when the parameters and their velocity
    tensors are all different tensors, live, with buffers of [size] cells:
    the step succeeds; for a parameter with a gradient buffer, every cell
    [j < size] of its velocity becomes
    [momentum * velocity[j] - learning_rate * grad[j]] and that new velocity
    is added to the cell of the parameter; a parameter without a gradient
    buffer keeps its data and its velocity; nothing else is touched. *)
Theorem sgd_step_momentum parameters n (st : SGDState F) h :
  fgt (momentum st) f0 = true →
  NoDup (step_cells parameters (sgd_slots st) n) →
  (∀ i, (i < n)%nat → param_ready h parameters (sgd_slots st) 1 i) →
  ∃ h', sgd_step parameters n st h = Some h' ∧
    (∀ x, x ∉ step_cells parameters (sgd_slots st) n → h' !! x = h !! x) ∧
    (∀ i p tP, (i < n)%nat → parameters !! i = Some p → h !! p = Some tP →
       match grad tP with
       | None => h' !! p = Some tP ∧ ∀ s, s ∈ sgd_slots st i → h' !! s = h !! s
       | Some g => ∃ vel tV tP' tV',
           velocity_at st i = Some vel ∧ h !! vel = Some tV ∧
           h' !! vel = Some tV' ∧ h' !! p = Some tP' ∧
           data_updated (size tP)
             (λ j vj, fsub (fmul (momentum st) vj)
                           (fmul (learning_rate st) (at0 g j))) tV tV' ∧
           data_updated (size tP)
             (λ j pj, fadd pj (fsub (fmul (momentum st) (at0 (data tV) j))
                                    (fmul (learning_rate st) (at0 g j)))) tP tP'
       end).
Proof.
  intros Hmom Hnd Hready.
  destruct (step_cells_disjoint _ n Hnd) as [HndK Hdisj].
  destruct (for_loop_disjoint (sgd_param_body parameters st)
    (touched parameters (sgd_slots st))
    (λ i h', ∀ p tP, parameters !! i = Some p → h !! p = Some tP →
       match grad tP with
       | None => h' !! p = Some tP ∧ ∀ s, s ∈ sgd_slots st i → h' !! s = h !! s
       | Some g => ∃ vel tV tP' tV',
           velocity_at st i = Some vel ∧ h !! vel = Some tV ∧
           h' !! vel = Some tV' ∧ h' !! p = Some tP' ∧
           data_updated (size tP)
             (λ j vj, fsub (fmul (momentum st) vj)
                           (fmul (learning_rate st) (at0 g j))) tV tV' ∧
           data_updated (size tP)
             (λ j pj, fadd pj (fsub (fmul (momentum st) (at0 (data tV) j))
                                    (fmul (learning_rate st) (at0 g j)))) tP tP'
       end) n h Hdisj) as (h' & Hrun & HQ & Hfr).
  - intros i h1 h2 Hsame HQ p tP Hp HP. specialize (HQ p tP Hp HP).
    pose proof (touched_param parameters (sgd_slots st) i p Hp) as Hin.
    destruct (grad tP).
    + destruct HQ as (vel & tV & tP' & tV' & Hvel & HV & Hlv & Hlp & Hu).
      exists vel, tV, tP', tV'. split; [done|]. split; [done|].
      split; [|split; [by rewrite Hsame|done]].
      rewrite Hsame; [done|]. apply touched_slot. unfold sgd_slots.
      rewrite Hvel. by left.
    + destruct HQ as [Hl Hs]. split; [by rewrite Hsame|].
      intros s Hin'. rewrite Hsame; [by apply Hs|by apply touched_slot].
  - intros i h1 Hi Hsame. destruct (Hready i Hi) as (p & tP & Hp & HP & Hwf).
    pose proof (touched_param parameters (sgd_slots st) i p Hp) as Hin.
    assert (h1 !! p = Some tP) as Hp1 by (by rewrite Hsame).
    unfold sgd_param_body. rewrite Hp. simpl. rewrite Hp1. simpl.
    destruct (grad tP) as [g|] eqn:Hg.
    + rewrite Hmom. destruct (Hwf g eq_refl) as (Hlg & Hld & Hk & Hsl).
      specialize (HndK i Hi). unfold touched in HndK. rewrite Hp in HndK.
      unfold sgd_slots in Hk, Hsl, HndK.
      destruct (velocity_at st i) as [vel|] eqn:Hvel; [|discriminate].
      destruct (Hsl vel) as (tV & HV & Hlv); [by left|].
      assert (p ≠ vel) as Hne.
      { simpl in HndK. apply NoDup_cons in HndK as [Hnin _].
        intros ->. apply Hnin. by left. }
      assert (vel ∈ touched parameters (sgd_slots st) i) as Hinv.
      { apply touched_slot. unfold sgd_slots. rewrite Hvel. by left. }
      assert (h1 !! vel = Some tV) as Hv1 by (by rewrite Hsame).
      destruct (sgd_momentum_loop st i p vel tP tV g h1 Hvel Hne Hp1 Hv1 Hg Hlg Hld Hlv)
        as (h2 & Hrun & Hfr & Hrv & Hrp).
      exists h2. split; [done|]. split.
      * intros x Hx.
        destruct (not_touched parameters (sgd_slots st) i p x Hp Hx) as [Hxp Hxs].
        apply Hfr; [done|]. intros ->. apply Hxs. unfold sgd_slots.
        rewrite Hvel. by left.
      * intros p' tP' Hp' HP'. injection Hp' as <-.
        rewrite HP in HP'. injection HP' as <-. rewrite Hg.
        eexists vel, tV, _, _. split; [done|]. split; [done|].
        split; [exact Hrv|]. split; [exact Hrp|].
        split; by apply data_updated_upd_range.
    + exists h1. split; [done|]. split; [done|].
      intros p' tP' Hp' HP'. injection Hp' as <-.
      rewrite HP in HP'. injection HP' as <-. rewrite Hg. split; [done|].
      intros s Hs. apply Hsame. by apply touched_slot.
  - exists h'. split; [exact Hrun|]. split.
    + intros x Hx. apply Hfr. by apply not_in_step_cells.
    + intros i p tP Hi Hp HP. by apply (HQ i Hi).
Qed.

(** X11. [adam_step], when the step counter can still be incremented and
    the parameters and their moment tensors are all different tensors, live,
    with buffers of [size] cells: the step succeeds and counts itself in
    [t]; for a parameter with a gradient buffer, every cell [j < size] of
    the first moment becomes [beta1 * m[j] + (1 - beta1) * grad[j]], of the
    second moment [beta2 * v[j] + (1 - beta2) * grad[j] * grad[j]], and the
    parameter loses
    [learning_rate * (m'[j] / (1 - beta1^t)) / (sqrt (v'[j] / (1 - beta2^t)) + epsilon)]
    computed from the new moments and the new [t]; a parameter without a
    gradient buffer keeps its data and its moments; nothing else is
    touched. *)
Theorem adam_step_result parameters n (st : AdamState F) h :
  t st < INT_MAX →
  NoDup (step_cells parameters (adam_slots st) n) →
  (∀ i, (i < n)%nat → param_ready h parameters (adam_slots st) 2 i) →
  ∃ h', adam_step parameters n st h = Some (adam_tick st, h') ∧
    (∀ x, x ∉ step_cells parameters (adam_slots st) n → h' !! x = h !! x) ∧
    (∀ i p tP, (i < n)%nat → parameters !! i = Some p → h !! p = Some tP →
       match grad tP with
       | None => h' !! p = Some tP ∧ ∀ s, s ∈ adam_slots st i → h' !! s = h !! s
       | Some g => ∃ mi vi tM tV tP' tM' tV',
           m st !! i = Some mi ∧ v st !! i = Some vi ∧
           h !! mi = Some tM ∧ h !! vi = Some tV ∧
           h' !! mi = Some tM' ∧ h' !! vi = Some tV' ∧ h' !! p = Some tP' ∧
           data_updated (size tP) (λ j x, adam_m_cell st x (at0 g j)) tM tM' ∧
           data_updated (size tP) (λ j x, adam_v_cell st x (at0 g j)) tV tV' ∧
           data_updated (size tP)
             (λ j x, adam_p_cell (adam_tick st) x
                       (adam_m_cell st (at0 (data tM) j) (at0 g j))
                       (adam_v_cell st (at0 (data tV) j) (at0 g j))) tP tP'
       end).
Proof.
  intros Ht Hnd Hready.
  destruct (step_cells_disjoint _ n Hnd) as [HndK Hdisj].
  set (bc1 := fsub f1 (fpowi (beta1 (adam_tick st)) (t (adam_tick st)))).
  set (bc2 := fsub f1 (fpowi (beta2 (adam_tick st)) (t (adam_tick st)))).
  destruct (for_loop_disjoint (adam_param_body parameters (adam_tick st) bc1 bc2)
    (touched parameters (adam_slots st))
    (λ i h', ∀ p tP, parameters !! i = Some p → h !! p = Some tP →
       match grad tP with
       | None => h' !! p = Some tP ∧ ∀ s, s ∈ adam_slots st i → h' !! s = h !! s
       | Some g => ∃ mi vi tM tV tP' tM' tV',
           m st !! i = Some mi ∧ v st !! i = Some vi ∧
           h !! mi = Some tM ∧ h !! vi = Some tV ∧
           h' !! mi = Some tM' ∧ h' !! vi = Some tV' ∧ h' !! p = Some tP' ∧
           data_updated (size tP) (λ j x, adam_m_cell st x (at0 g j)) tM tM' ∧
           data_updated (size tP) (λ j x, adam_v_cell st x (at0 g j)) tV tV' ∧
           data_updated (size tP)
             (λ j x, adam_p_cell (adam_tick st) x
                       (adam_m_cell st (at0 (data tM) j) (at0 g j))
                       (adam_v_cell st (at0 (data tV) j) (at0 g j))) tP tP'
       end) n h Hdisj) as (h' & Hrun & HQ & Hfr).
  - intros i h1 h2 Hsame HQ p tP Hp HP. specialize (HQ p tP Hp HP).
    pose proof (touched_param parameters (adam_slots st) i p Hp) as Hin.
    destruct (grad tP).
    + destruct HQ as (mi & vi & tM & tV & tP' & tM' & tV' &
                      Hmi & Hvi & HM & HV & Hlm & Hlv & Hlp & Hu).
      exists mi, vi, tM, tV, tP', tM', tV'. do 4 (split; [done|]).
      split; [|split; [|split; [by rewrite Hsame|done]]].
      * rewrite Hsame; [done|]. apply touched_slot. unfold adam_slots.
        rewrite Hmi. by left.
      * rewrite Hsame; [done|]. apply touched_slot. unfold adam_slots.
        rewrite Hmi, Hvi. right. by left.
    + destruct HQ as [Hl Hs]. split; [by rewrite Hsame|].
      intros s Hin'. rewrite Hsame; [by apply Hs|by apply touched_slot].
  - intros i h1 Hi Hsame. destruct (Hready i Hi) as (p & tP & Hp & HP & Hwf).
    pose proof (touched_param parameters (adam_slots st) i p Hp) as Hin.
    assert (h1 !! p = Some tP) as Hp1 by (by rewrite Hsame).
    unfold adam_param_body. rewrite Hp. simpl. rewrite Hp1. simpl.
    destruct (grad tP) as [g|] eqn:Hg.
    + destruct (Hwf g eq_refl) as (Hlg & Hld & Hk & Hsl).
      specialize (HndK i Hi). unfold touched in HndK. rewrite Hp in HndK.
      unfold adam_slots in Hk, Hsl, HndK.
      destruct (m st !! i) as [mi|] eqn:Hmi, (v st !! i) as [vi|] eqn:Hvi;
        try discriminate.
      destruct (Hsl mi) as (tM & HM & Hlm); [by left|].
      destruct (Hsl vi) as (tV & HV & Hlv); [right; by left|].
      simpl in HndK. apply NoDup_cons in HndK as [Hnp HndK].
      apply NoDup_cons in HndK as [Hnm _].
      assert (p ≠ mi) as Hpm by (intros ->; apply Hnp; by left).
      assert (p ≠ vi) as Hpv by (intros ->; apply Hnp; right; by left).
      assert (mi ≠ vi) as Hmv by (intros ->; apply Hnm; by left).
      assert (mi ∈ touched parameters (adam_slots st) i) as Hinm.
      { apply touched_slot. unfold adam_slots. rewrite Hmi. by left. }
      assert (vi ∈ touched parameters (adam_slots st) i) as Hinv.
      { apply touched_slot. unfold adam_slots. rewrite Hmi, Hvi. right. by left. }
      assert (h1 !! mi = Some tM) as Hm1 by (by rewrite Hsame).
      assert (h1 !! vi = Some tV) as Hv1 by (by rewrite Hsame).
      destruct (adam_loop (adam_tick st) bc1 bc2 i p mi vi tP tM tV g h1
                  Hmi Hvi Hpm Hpv Hmv Hp1 Hm1 Hv1 Hg Hlg Hld Hlm Hlv)
        as (h2 & Hrun & Hfr & Hrm & Hrv & Hrp).
      exists h2. split; [done|]. split.
      * intros x Hx.
        destruct (not_touched parameters (adam_slots st) i p x Hp Hx) as [Hxp Hxs].
        unfold adam_slots in Hxs. rewrite Hmi, Hvi in Hxs.
        apply Hfr; [done| |]; intros ->; apply Hxs; [by left|right; by left].
      * intros p' tP' Hp' HP'. injection Hp' as <-.
        rewrite HP in HP'. injection HP' as <-. rewrite Hg.
        eexists mi, vi, tM, tV, _, _, _. do 4 (split; [done|]).
        split; [exact Hrm|]. split; [exact Hrv|]. split; [exact Hrp|].
        split; [|split]; by apply data_updated_upd_range.
    + exists h1. split; [done|]. split; [done|].
      intros p' tP' Hp' HP'. injection Hp' as <-.
      rewrite HP in HP'. injection HP' as <-. rewrite Hg. split; [done|].
      intros s Hs. apply Hsame. by apply touched_slot.
  - exists h'. split.
    + unfold adam_step. rewrite decide_True by done.
      change (for_loop (adam_param_body parameters (adam_tick st) bc1 bc2) 0 n h
              ≫= (λ h', Some (adam_tick st, h')) = Some (adam_tick st, h')).
      by rewrite Hrun.
    + split.
      * intros x Hx. apply Hfr. by apply not_in_step_cells.
      * intros i p tP Hi Hp HP. by apply (HQ i Hi).
Qed.

End StepResults.

(** ** The steps run on concrete tensors, in exact integer arithmetic *)

Section Concrete.
Local Existing Instance Z_ops.

Example sgd_step_run :
  (sgd_step [0%nat; 1%nat] 2 sgd_state step_heap ≫= (.!! 1%nat)) = Some (plain [97; 194] (Some [1; 2])) ∧
  (sgd_step [0%nat; 1%nat] 2 sgd_state step_heap ≫= (.!! 3%nat)) = Some (plain [-3; -6] None) ∧
  (sgd_step [0%nat; 1%nat] 2 sgd_state step_heap ≫= (.!! 0%nat)) = Some (plain [10; 20] None) ∧
  (sgd_step [0%nat; 1%nat] 2 sgd_state step_heap ≫= (.!! 2%nat)) = Some (plain [7; 7] None).
Proof. vm_compute. done. Qed.

Lemma sgd_state_separate :
  slots_separate [0%nat; 1%nat] (sgd_slots sgd_state).
Proof.
  intros i x Hx.
  destruct i as [|[|i]]; simpl in Hx; [| |by apply elem_of_nil in Hx];
    apply list_elem_of_singleton in Hx as ->;
    (split; [intros Hin; repeat (apply elem_of_cons in Hin as [Hin|Hin]; [discriminate|]);
             by apply elem_of_nil in Hin|]);
    intros [|[|j]] Hj Hin; try done; simpl in Hin;
    try (by apply elem_of_nil in Hin);
    by apply list_elem_of_singleton in Hin.
Defined.

Lemma adam_state_separate :
  slots_separate [0%nat; 1%nat] (adam_slots adam_state).
Proof.
  intros i x Hx.
  destruct i as [|[|i]]; simpl in Hx; [| |by apply elem_of_nil in Hx];
    (apply elem_of_cons in Hx as [->|Hx]; [|apply list_elem_of_singleton in Hx as ->]);
    (split; [intros Hin; repeat (apply elem_of_cons in Hin as [Hin|Hin]; [discriminate|]);
             by apply elem_of_nil in Hin|]);
    intros [|[|j]] Hj Hin; try done; simpl in Hin;
    try (by apply elem_of_nil in Hin);
    (apply elem_of_cons in Hin as [Hin|Hin]; [discriminate|]);
    by apply list_elem_of_singleton in Hin.
Defined.

Lemma step_skips_null_grad_witness :
  (∃ h', sgd_step [0%nat; 1%nat] 2 sgd_state step_heap = Some h' ∧
         h' !! 0%nat = Some (plain [10; 20] None) ∧
         h' !! 2%nat = step_heap !! 2%nat) ∧
  (∃ st' h', adam_step [0%nat; 1%nat] 2 adam_state step_heap = Some (st', h') ∧
         h' !! 0%nat = Some (plain [10; 20] None) ∧
         h' !! 2%nat = step_heap !! 2%nat ∧ h' !! 4%nat = step_heap !! 4%nat).
Proof.
  destruct (step_skips_null_grad [0%nat; 1%nat] 2 step_heap 0 0 (plain [10; 20] None)
              eq_refl eq_refl eq_refl) as [Hsgd Hadam].
  split.
  - destruct (sgd_step [0%nat; 1%nat] 2 sgd_state step_heap) as [h'|] eqn:E;
      [|vm_compute in E; discriminate].
    destruct (Hsgd sgd_state h' sgd_state_separate E) as (_ & Hp & Hs).
    exists h'. split; [reflexivity|]. split; [exact Hp|].
    apply Hs. simpl. by left.
  - destruct (adam_step [0%nat; 1%nat] 2 adam_state step_heap) as [[st' h']|] eqn:E;
      [|vm_compute in E; discriminate].
    destruct (Hadam adam_state st' h' adam_state_separate E) as (_ & Hp & Hs & _).
    exists st', h'. split; [reflexivity|]. split; [exact Hp|]. split.
    + apply Hs. simpl. by left.
    + apply Hs. simpl. right. by left.
Defined.

Lemma not_in_cells (x : nat) (l : list nat) :
  bool_decide (x ∈ l) = false → x ∉ l.
Proof. intros Hb Hin. by rewrite bool_decide_true in Hb. Qed.

Lemma step_heap_ready (slots : nat → list nat) k :
  (∀ s, s ∈ slots 1%nat → ∃ tS, step_heap !! s = Some tS ∧ (2 ≤ length (data tS))%nat) →
  length (slots 1%nat) = k →
  ∀ i, (i < 2)%nat → param_ready step_heap [0%nat; 1%nat] slots k i.
Proof.
  intros Hsl Hk [|[|i]] Hi; [| |lia].
  - exists 0%nat, (plain [10; 20] None). split; [reflexivity|]. split; [reflexivity|].
    intros g Hg. discriminate.
  - exists 1%nat, (plain [100; 200] (Some [1; 2])).
    split; [reflexivity|]. split; [reflexivity|].
    intros g Hg. injection Hg as <-. simpl. split; [lia|]. split; [lia|]. by split.
Defined.

Lemma sgd_step_plain_witness :
  ∃ h', sgd_step [0%nat; 1%nat] 2 sgd_plain_state step_heap = Some h' ∧
    h' !! 0%nat = Some (plain [10; 20] None) ∧
    h' !! 2%nat = step_heap !! 2%nat ∧
    ∃ tP', h' !! 1%nat = Some tP' ∧
      data_updated 2 (λ j x, x - 3 * at0 [1; 2] j) (plain [100; 200] (Some [1; 2])) tP'.
Proof.
  destruct (sgd_step_plain [0%nat; 1%nat] 2 sgd_plain_state step_heap)
    as (h' & Hrun & Hframe & Hres).
  { reflexivity. }
  { apply (bool_decide_unpack _). by vm_compute. }
  { apply step_heap_ready; [|done]. intros s Hs. by apply elem_of_nil in Hs. }
  exists h'. split; [exact Hrun|]. split; [|split].
  - apply (Hres 0%nat 0%nat (plain [10; 20] None)); [lia|reflexivity..].
  - apply Hframe. apply not_in_cells. by vm_compute.
  - apply (Hres 1%nat 1%nat (plain [100; 200] (Some [1; 2]))); [lia|reflexivity..].
Defined.

Lemma sgd_step_momentum_witness :
  ∃ h' tP' tV', sgd_step [0%nat; 1%nat] 2 sgd_state step_heap = Some h' ∧
    h' !! 0%nat = Some (plain [10; 20] None) ∧
    h' !! 2%nat = step_heap !! 2%nat ∧ h' !! 4%nat = step_heap !! 4%nat ∧
    h' !! 3%nat = Some tV' ∧ h' !! 1%nat = Some tP' ∧
    data_updated 2 (λ j vj, 2 * vj - 3 * at0 [1; 2] j) (plain [0; 0] None) tV' ∧
    data_updated 2 (λ j pj, pj + (2 * at0 [0; 0] j - 3 * at0 [1; 2] j))
      (plain [100; 200] (Some [1; 2])) tP'.
Proof.
  destruct (sgd_step_momentum [0%nat; 1%nat] 2 sgd_state step_heap)
    as (h' & Hrun & Hframe & Hres).
  { reflexivity. }
  { apply (bool_decide_unpack _). by vm_compute. }
  { apply step_heap_ready; [|done]. intros s Hs.
    apply list_elem_of_singleton in Hs as ->.
    exists (plain [0; 0] None). split; [reflexivity|simpl; lia]. }
  assert (0 < 2)%nat as H0 by lia. assert (1 < 2)%nat as H1 by lia.
  destruct (Hres 0%nat 0%nat (plain [10; 20] None) H0 eq_refl eq_refl) as [Hp0 Hs0].
  destruct (Hres 1%nat 1%nat (plain [100; 200] (Some [1; 2])) H1 eq_refl eq_refl)
    as (vel & tV & tP' & tV' & Hvel & HV & Hlv & Hlp & HuV & HuP).
  injection Hvel as <-. injection HV as <-.
  exists h', tP', tV'. split; [exact Hrun|]. split; [exact Hp0|].
  split; [apply Hs0; by left|].
  split; [apply Hframe; apply not_in_cells; by vm_compute|].
  by repeat split.
Defined.

Lemma adam_step_result_witness :
  ∃ h' tP' tM' tV', adam_step [0%nat; 1%nat] 2 adam_state step_heap
                    = Some (adam_tick adam_state, h') ∧
    h' !! 0%nat = Some (plain [10; 20] None) ∧
    h' !! 2%nat = step_heap !! 2%nat ∧ h' !! 4%nat = step_heap !! 4%nat ∧
    h' !! 6%nat = step_heap !! 6%nat ∧
    h' !! 3%nat = Some tM' ∧ h' !! 5%nat = Some tV' ∧ h' !! 1%nat = Some tP' ∧
    data_updated 2 (λ j x, adam_m_cell adam_state x (at0 [1; 2] j)) (plain [0; 0] None) tM' ∧
    data_updated 2 (λ j x, adam_v_cell adam_state x (at0 [1; 2] j)) (plain [0; 0] None) tV' ∧
    data_updated 2
      (λ j x, adam_p_cell (adam_tick adam_state) x
                (adam_m_cell adam_state (at0 [0; 0] j) (at0 [1; 2] j))
                (adam_v_cell adam_state (at0 [0; 0] j) (at0 [1; 2] j)))
      (plain [100; 200] (Some [1; 2])) tP'.
Proof.
  destruct (adam_step_result [0%nat; 1%nat] 2 adam_state step_heap)
    as (h' & Hrun & Hframe & Hres).
  { by vm_compute. }
  { apply (bool_decide_unpack _). by vm_compute. }
  { apply step_heap_ready; [|done]. intros s Hs.
    apply elem_of_cons in Hs as [->|Hs]; [|apply list_elem_of_singleton in Hs as ->];
      (exists (plain [0; 0] None); split; [reflexivity|simpl; lia]). }
  assert (0 < 2)%nat as H0 by lia. assert (1 < 2)%nat as H1 by lia.
  destruct (Hres 0%nat 0%nat (plain [10; 20] None) H0 eq_refl eq_refl) as [Hp0 Hs0].
  destruct (Hres 1%nat 1%nat (plain [100; 200] (Some [1; 2])) H1 eq_refl eq_refl)
    as (mi & vi & tM & tV & tP' & tM' & tV' & Hmi & Hvi & HM & HV &
        Hlm & Hlv & Hlp & HuM & HuV & HuP).
  injection Hmi as <-. injection Hvi as <-. injection HM as <-. injection HV as <-.
  exists h', tP', tM', tV'. split; [exact Hrun|]. split; [exact Hp0|].
  split; [apply Hs0; by left|]. split; [apply Hs0; right; by left|].
  split; [apply Hframe; apply not_in_cells; by vm_compute|].
  by repeat split.
Defined.

(** One plain step and one Adam step, run. *)
Example sgd_plain_run :
  (sgd_step [0%nat; 1%nat] 2 sgd_plain_state step_heap ≫= (.!! 1%nat))
  = Some (plain [97; 194] (Some [1; 2])).
Proof. vm_compute. done. Qed.

End Concrete.

End OptimFacts.

(* ===================================================================== *)
(** * Facts about the WebGPU backend *)
(* ===================================================================== *)

Module WebGPUFacts.
Import Registry Autograd WebGPU.

(** ** Poll loops *)

Lemma poll_loop_spec a remaining timeout :
  poll_loop a remaining timeout =
  match fires_after a with
  | Some n => if decide (n ≤ timeout)%nat then timeout
              else Nat.min n (timeout + remaining)
  | None => (timeout + remaining)%nat
  end.
Proof.
  revert timeout. induction remaining as [|r IH]; intros timeout; simpl.
  - destruct (fires_after a) as [n|]; [|lia]. case_decide; lia.
  - unfold done_flag. rewrite IH. destruct (fires_after a) as [n|]; [|lia].
    case_bool_decide; repeat case_decide; lia.
Qed.

(** The counter on exit is the number of polls the callback needed, capped
    by the budget. *)
Lemma poll_spec a budget :
  poll a budget =
  match fires_after a with Some n => Nat.min n budget | None => budget end.
Proof.
  unfold poll. rewrite poll_loop_spec. destruct (fires_after a) as [n|]; [|done].
  case_decide; lia.
Qed.

(** The budget is exceeded exactly when the callback has not run before the
    last poll allowed. *)
Lemma poll_exceeded a budget :
  (budget ≤ poll a budget)%nat ↔
  fires_after a = None ∨ ∃ n, fires_after a = Some n ∧ (budget ≤ n)%nat.
Proof.
  rewrite poll_spec. destruct (fires_after a) as [n|]; split.
  - intros Hle. right. exists n. split; [done|lia].
  - intros [|(n' & [= <-] & Hle)]; [done|lia].
  - by left.
  - done.
Qed.

(** ** The session *)

(** C8. Once the session is initialized, [webgpu_init] returns 0 at once,
    whatever the implementation would answer: it writes nothing and leaves
    the instance, adapter, device, queue and flag of the context as they
    are; so does every further sequence of calls. A call that returns 0
    leaves the session initialized. *)
Theorem webgpu_init_idempotent (c : WebGPUContext) :
  initialized c ≠ 0 →
  (∀ env, webgpu_init env c = (0, c, [])) ∧
  (∀ envs, foldl (λ c env, (webgpu_init env c).1.2) c envs = c) ∧
  (∀ env c0, (webgpu_init env c0).1.1 = 0 →
     initialized (webgpu_init env c0).1.2 ≠ 0).
Proof.
  intros Hinit.
  assert (∀ env, webgpu_init env c = (0, c, [])) as Hone.
  { intros env. unfold webgpu_init. by rewrite decide_True. }
  split; [done|split].
  - induction envs as [|env envs IH]; simpl; [done|]. by rewrite Hone.
  - intros env c0. unfold webgpu_init, webgpu_init_device.
    repeat (case_decide || case_match); simpl; try done; lia.
Qed.

Example webgpu_init_granting :
  webgpu_init granting g_webgpu_ctx = (0, ready_ctx, []).
Proof. vm_compute. reflexivity. Qed.

Lemma webgpu_init_idempotent_witness :
  (∀ env, webgpu_init env ready_ctx = (0, ready_ctx, [])) ∧
  (∀ envs, foldl (λ c env, (webgpu_init env c).1.2) ready_ctx envs = ready_ctx) ∧
  (∀ env c0, (webgpu_init env c0).1.1 = 0 →
     initialized (webgpu_init env c0).1.2 ≠ 0).
Proof. apply (webgpu_init_idempotent ready_ctx). simpl. lia. Defined.

(** ** The outcome of bringing the session up *)

Lemma poll_answered a budget :
  match answered a budget with
  | Some g => (poll a budget < budget)%nat ∧ stored a (poll a budget) = g ∧
              callback_log a (poll a budget)
              = λ msg, match g with Some _ => [] | None => [msg] end
  | None => (budget ≤ poll a budget)%nat
  end.
Proof.
  unfold answered, stored, callback_log, done_flag. rewrite poll_spec.
  destruct (fires_after a) as [n|]; [|done].
  case_decide; [|lia].
  rewrite Nat.min_l by lia. rewrite bool_decide_true by lia. done.
Qed.

Lemma snoc_not_nil (l : list string) (x : string) : l ++ [x] ≠ [].
Proof. intros Hnil. apply app_eq_nil in Hnil as [_ Hnil]. discriminate. Qed.

Lemma webgpu_init_device_outcome env i a log :
  let '(status, c', log') :=
    webgpu_init_device env
      {| instance := Some i; adapter := Some a; device := None; queue := None;
         initialized := 0 |} log in
  match answered (request_device env) 1000, get_queue env with
  | Some (Some d), Some q =>
      status = 0 ∧
      c' = {| instance := Some i; adapter := Some a; device := Some d;
              queue := Some q; initialized := 1 |}
  | _, _ => status = -1 ∧ c' = g_webgpu_ctx ∧ log' ≠ []
  end.
Proof.
  unfold webgpu_init_device.
  pose proof (poll_answered (request_device env) 1000) as Hd.
  destruct (answered (request_device env) 1000) as [[d|]|].
  - destruct Hd as (Hlt & -> & ->). rewrite decide_False by lia.
    destruct (get_queue env); simpl; [done|].
    split; [done|]. split; [done|]. apply snoc_not_nil.
  - destruct Hd as (Hlt & -> & ->). rewrite decide_False by lia.
    split; [done|]. split; [done|]. apply snoc_not_nil.
  - rewrite decide_True by done.
    split; [done|]. split; [done|]. apply snoc_not_nil.
Qed.

(** X12. [webgpu_init] on the context as it is at program start. It
    returns 0 exactly when the instance is created, an adapter is handed
    over in fewer than 1000 polls (by the Metal request, or by the fallback
    request when the Metal request was answered without one), the device is
    handed over in fewer than 1000 polls and the queue is not null; the
    context then holds these four handles and is initialized. In every other
    case it returns -1, writes to [stderr], and the context is again what it
    was at program start: every handle obtained on the way is dropped. *)
Theorem webgpu_init_outcome env :
  let '(status, c', log) := webgpu_init env g_webgpu_ctx in
  match create_instance env, chosen_adapter env,
        answered (request_device env) 1000, get_queue env with
  | Some i, Some a, Some (Some d), Some q =>
      status = 0 ∧
      c' = {| instance := Some i; adapter := Some a; device := Some d;
              queue := Some q; initialized := 1 |}
  | _, _, _, _ => status = -1 ∧ c' = g_webgpu_ctx ∧ log ≠ []
  end.
Proof.
  unfold webgpu_init, chosen_adapter.
  rewrite decide_False by (simpl; lia). simpl.
  destruct (create_instance env) as [i|]; [|done].
  pose proof (poll_answered (metal_adapter env) 1000) as Hm.
  pose proof (poll_answered (fallback_adapter env) 1000) as Hf.
  destruct (answered (metal_adapter env) 1000) as [[a|]|].
  - destruct Hm as (Hlt & -> & ->). rewrite decide_False by lia.
    apply (webgpu_init_device_outcome env i a).
  - destruct Hm as (Hlt & -> & ->). rewrite decide_False by lia.
    destruct (answered (fallback_adapter env) 1000) as [[a|]|].
    + destruct Hf as (Hltf & -> & ->). rewrite decide_False by lia.
      apply (webgpu_init_device_outcome env i a).
    + destruct Hf as (Hltf & -> & ->). rewrite decide_False by lia.
      split; [done|]. split; [done|]. apply snoc_not_nil.
    + rewrite decide_True by done.
      split; [done|]. split; [done|]. apply snoc_not_nil.
  - rewrite decide_True by done.
    split; [done|]. split; [done|]. apply snoc_not_nil.
Qed.

(** ** Exceeding the poll budget *)


Lemma webgpu_init_exceeds env c :
  initialized c = 0 → is_Some (create_instance env) → init_exceeds env →
  ∃ c' log line,
    webgpu_init env c = (-1, c', log ++ [line]) ∧ line ∈ init_timeout_lines ∧
    initialized c' = 0 ∧ instance c' = None.
Proof.
  intros Hc [i Hi] Hex. unfold webgpu_init, webgpu_init_device.
  rewrite decide_False by lia. simpl. rewrite Hi.
  unfold init_exceeds in Hex. unfold init_timeout_lines.
  destruct Hex as [H1|[(H1 & Hs & H2)|[(H1 & [a Hs] & H3)|(H1 & Hs & H2 & [a Hs2] & H3)]]].
  - rewrite decide_True by done. eexists _, _, _. split; [done|].
    split; [by left|done].
  - rewrite decide_False by lia. rewrite Hs. rewrite decide_True by done.
    eexists _, _, _. split; [done|]. split; [right; by left|done].
  - rewrite decide_False by lia. rewrite Hs. rewrite decide_True by done.
    eexists _, _, _. split; [done|]. split; [right; right; by left|done].
  - rewrite decide_False by lia. rewrite Hs. rewrite (decide_False (P := (1000 ≤ _)%nat)) by lia.
    rewrite Hs2. rewrite decide_True by done.
    eexists _, _, _. split; [done|]. split; [right; right; by left|done].
Qed.

(** The three timeout branches, each with the handles it drops. *)
Lemma webgpu_init_adapter_timeout env c :
  initialized c = 0 → is_Some (create_instance env) →
  (1000 ≤ poll (metal_adapter env) 1000)%nat →
  ∃ log, webgpu_init env c
         = (-1, set_instance c None, log ++ ["Timeout waiting for adapter!"%string]).
Proof.
  intros Hc [i Hi] H1. unfold webgpu_init.
  rewrite decide_False by lia. simpl. rewrite Hi.
  rewrite decide_True by done. by eexists.
Qed.

Lemma webgpu_init_fallback_timeout env c :
  initialized c = 0 → is_Some (create_instance env) →
  (poll (metal_adapter env) 1000 < 1000)%nat →
  stored (metal_adapter env) (poll (metal_adapter env) 1000) = None →
  (1000 ≤ poll (fallback_adapter env) 1000)%nat →
  ∃ log, webgpu_init env c
         = (-1, set_instance c None,
            log ++ ["Timeout waiting for fallback adapter!"%string]).
Proof.
  intros Hc [i Hi] H1 Hs H2. unfold webgpu_init.
  rewrite decide_False by lia. simpl. rewrite Hi.
  rewrite decide_False by lia. rewrite Hs. rewrite decide_True by done.
  by eexists.
Qed.

Lemma webgpu_init_device_timeout env c :
  initialized c = 0 → is_Some (create_instance env) →
  ((poll (metal_adapter env) 1000 < 1000)%nat ∧
   is_Some (stored (metal_adapter env) (poll (metal_adapter env) 1000))) ∨
  ((poll (metal_adapter env) 1000 < 1000)%nat ∧
   stored (metal_adapter env) (poll (metal_adapter env) 1000) = None ∧
   (poll (fallback_adapter env) 1000 < 1000)%nat ∧
   is_Some (stored (fallback_adapter env) (poll (fallback_adapter env) 1000))) →
  (1000 ≤ poll (request_device env) 1000)%nat →
  ∃ log, webgpu_init env c
         = (-1, set_instance (set_adapter c None) None,
            log ++ ["Timeout waiting for device!"%string]).
Proof.
  intros Hc [i Hi] Hgot H3. unfold webgpu_init, webgpu_init_device.
  rewrite decide_False by lia. simpl. rewrite Hi.
  destruct Hgot as [(H1 & [a Hs])|(H1 & Hs & H2 & [a Hs2])].
  - rewrite decide_False by lia. rewrite Hs. rewrite decide_True by done.
    by eexists.
  - rewrite decide_False by lia. rewrite Hs.
    rewrite (decide_False (P := (1000 ≤ _)%nat)) by lia.
    rewrite Hs2. rewrite decide_True by done. by eexists.
Qed.

(** [backend_init_all] registers nothing after a failed bring-up. *)
Lemma backend_init_all_failed env c c' log
    (reg : Registry (OperationRegistryEntry OpImpl)) :
  webgpu_init env c = (-1, c', log) → backend_init_all env c reg = (c', reg).
Proof. intros Hinit. unfold backend_init_all. rewrite Hinit. by rewrite decide_False. Qed.

(** ** Softmax dispatch parameters *)

(** For a [batch x size] tensor whose sizes fit 32 bits the stride handed
    to the kernel is [size * size / batch]. *)
Lemma softmax_params_2d (batch size : nat) :
  (0 < batch)%nat → Z.of_nat batch < 2 ^ 32 →
  Z.of_nat size * Z.of_nat size < 2 ^ 32 →
  softmax_params [batch; size]
  = Some (Z.of_nat batch, Z.of_nat size,
          Z.of_nat size * Z.of_nat size / Z.of_nat batch).
Proof.
  intros Hb Hb32 Hs32. unfold softmax_params, stride_loop, to_u32. simpl.
  assert (Z.of_nat size < 2 ^ 32) by nia.
  rewrite !(Z.mod_small (Z.of_nat size)) by lia.
  rewrite (Z.mod_small (Z.of_nat batch)) by lia.
  rewrite (Z.mod_small (_ * _)) by lia.
  rewrite decide_False by lia. done.
Qed.

(** C1, at the input of [TEST(tensor_softmax_2d)]. For the shape [2 x 3]
    [webgpu_tensor_softmax] hands the kernel the stride 4, not 3: the second
    workgroup normalizes the cells 4, 5 and 6 where the second row of the
    tensor is 3, 4 and 5; cell 3 of the output is written by no workgroup
    and cell 6 is past the six cells of the buffer. With the shape
    [100 x 1000] of the backend's own test the stride is 10000. *)
Theorem softmax_dispatch_misses_rows :
  softmax_params [2%nat; 3%nat] = Some (2, 3, 4) ∧
  dispatched_cells 2 3 4 = [[0; 1; 2]; [4; 5; 6]] ∧
  tensor_rows 2 3 = [[0; 1; 2]; [3; 4; 5]] ∧
  (∀ cells, cells ∈ dispatched_cells 2 3 4 → 3 ∉ cells) ∧
  softmax_params [100%nat; 1000%nat] = Some (100, 1000, 10000).
Proof.
  split; [by vm_compute|]. split; [by vm_compute|]. split; [by vm_compute|].
  split; [|by vm_compute].
  intros cells Hin. change (dispatched_cells 2 3 4) with [[0; 1; 2]; [4; 5; 6]] in Hin.
  apply elem_of_cons in Hin as [->|Hin];
    [|apply list_elem_of_singleton in Hin as ->];
    intros H3; repeat (apply elem_of_cons in H3 as [H3|H3]; [discriminate|]);
    by apply elem_of_nil in H3.
Qed.

(** ** Guards of the accelerated operations *)

Section OpsFacts.
Context {F : Type} `{FloatOps F}.
Variables tensor_add_cpu tensor_sub_cpu tensor_mul_cpu tensor_matmul_cpu
  : option nat → option nat → World F → option nat * World F.
Variables tensor_relu_cpu tensor_sigmoid_cpu tensor_tanh_cpu tensor_softmax_cpu
  : option nat → World F → option nat * World F.
Variable tensor_create : list nat → World F → option nat * World F.
Variable device_run : string → World F → DeviceRun F.

Local Abbreviation call_op :=
  (call_op tensor_add_cpu tensor_sub_cpu tensor_mul_cpu tensor_matmul_cpu
     tensor_relu_cpu tensor_sigmoid_cpu tensor_tanh_cpu tensor_softmax_cpu
     tensor_create device_run).

(** The binary operations, matmul and softmax hand over to the reference
    implementation itself when the session is not ready, and so do they on
    incompatible shapes (after the dispatch line of the first five
    elementwise calls). *)
Lemma guard_delegates (w : World F) (A B : option nat) fuel :
  (not_ready w →
   call_op (S fuel) webgpu_tensor_sub_fn A B w = Done (tensor_sub_cpu A B w) ∧
   call_op (S fuel) webgpu_tensor_mul_fn A B w = Done (tensor_mul_cpu A B w) ∧
   call_op (S fuel) webgpu_tensor_matmul_fn A B w = Done (tensor_matmul_cpu A B w) ∧
   call_op (S fuel) webgpu_tensor_softmax_fn A B w = Done (tensor_softmax_cpu A w) ∧
   ∃ w', heap w' = heap w ∧ ctx w' = ctx w ∧
     call_op (S fuel) webgpu_tensor_add_fn A B w = Done (tensor_add_cpu A B w')) ∧
  (∀ a b tA tB, A = Some a → B = Some b →
     heap w !! a = Some tA → heap w !! b = Some tB →
     (shape tA ≠ shape tB →
      ∃ w', heap w' = heap w ∧ ctx w' = ctx w ∧
        call_op (S fuel) webgpu_tensor_sub_fn A B w = Done (tensor_sub_cpu A B w')) ∧
     ((ndim tA ≠ 2%nat ∨ ndim tB ≠ 2%nat ∨ shape tA !! 1%nat ≠ shape tB !! 0%nat) →
      call_op (S fuel) webgpu_tensor_matmul_fn A B w
      = Done (tensor_matmul_cpu A B w))).
Proof.
  split.
  - intros Hnr. unfold not_ready in Hnr. simpl.
    unfold webgpu_tensor_sub, webgpu_tensor_mul, webgpu_tensor_add,
      webgpu_tensor_matmul, webgpu_tensor_softmax, elementwise_binary_op.
    split; [|split; [|split; [|split]]].
    + destruct A, B; try done. by rewrite decide_True.
    + destruct A, B; try done. by rewrite decide_True.
    + destruct A, B; try done. by rewrite decide_True.
    + destruct A; try done. by rewrite decide_True.
    + destruct (decide (call_count w < 3)).
      * eexists. split; [|split]; [| |destruct A, B; try done; by rewrite decide_True];
          done.
      * exists w. split; [done|split; [done|]].
        destruct A, B; try done; by rewrite decide_True.
  - intros a b tA tB -> -> HA HB. split.
    + intros Hshape. simpl. unfold webgpu_tensor_sub, elementwise_binary_op.
      destruct (decide (webgpu_available (ctx w) = 0)); [by exists w|].
      rewrite HA, HB.
      destruct (decide (dispatch_count w < 5)).
      * eexists. split; [|split];
          [| |destruct (decide (ndim tA ≠ ndim tB)); [done|by rewrite decide_True]];
          done.
      * exists w. split; [done|split; [done|]].
        destruct (decide (ndim tA ≠ ndim tB)); [done|by rewrite decide_True].
    + intros Hdim. simpl. unfold webgpu_tensor_matmul.
      destruct (decide (webgpu_available (ctx w) = 0)); [done|].
      rewrite HA, HB. unfold ndim in Hdim.
      destruct (shape tA) as [|a0 [|a1 [|? ?]]], (shape tB) as [|b0 [|b1 [|? ?]]];
        simpl in *; try done.
      rewrite decide_True; [done|]. intros ->.
      destruct Hdim as [Hd|[Hd|Hd]]; by apply Hd.
Qed.

Lemma torn_down_resolves (h : gmap nat (Tensor F)) :
  not_ready (torn_down h) ∧
  get_operation_fn (operation_registry (torn_down h)) "relu" = Some webgpu_tensor_relu_fn ∧
  get_operation_fn (operation_registry (torn_down h)) "sigmoid" = Some webgpu_tensor_sigmoid_fn ∧
  get_operation_fn (operation_registry (torn_down h)) "tanh" = Some webgpu_tensor_tanh_fn.
Proof. by vm_compute. Qed.

(** Whenever the session is not ready and the registry resolves the unary
    names to the accelerated functions, their calls exhaust any number of
    nested calls. *)
Lemma unary_fallback_loops (w : World F) (Z : option nat) :
  not_ready w →
  get_operation_fn (operation_registry w) "relu" = Some webgpu_tensor_relu_fn →
  get_operation_fn (operation_registry w) "sigmoid" = Some webgpu_tensor_sigmoid_fn →
  get_operation_fn (operation_registry w) "tanh" = Some webgpu_tensor_tanh_fn →
  ∀ fuel,
    call_op fuel webgpu_tensor_relu_fn Z None w = OutOfFuel ∧
    call_op fuel webgpu_tensor_sigmoid_fn Z None w = OutOfFuel ∧
    call_op fuel webgpu_tensor_tanh_fn Z None w = OutOfFuel.
Proof.
  intros Hnr Hrelu Hsig Htanh. unfold not_ready in Hnr.
  induction fuel as [|fuel (IH1 & IH2 & IH3)]; [done|].
  cbn [WebGPU.call_op]. unfold elementwise_unary_op, dispatch_unary.
  rewrite Hrelu, Hsig, Htanh.
  destruct Z; by rewrite ?decide_True.
Qed.

(** C3, at the failing input. With the session torn down, the accelerated
    relu, sigmoid and tanh do not hand over to the reference implementation:
    their fallback is the public entry point, which resolves the name in the
    registry to the accelerated function again, and the call never returns,
    however many nested calls are allowed. In the same world sub, mul,
    matmul and softmax return what the reference implementation returns. *)
Theorem unary_fallback_never_returns (h : gmap nat (Tensor F)) (Z B : option nat)
    (fuel : nat) :
  let w := torn_down h in
  not_ready w ∧
  call_op fuel webgpu_tensor_relu_fn Z None w = OutOfFuel ∧
  call_op fuel webgpu_tensor_sigmoid_fn Z None w = OutOfFuel ∧
  call_op fuel webgpu_tensor_tanh_fn Z None w = OutOfFuel ∧
  call_op (S fuel) webgpu_tensor_sub_fn Z B w = Done (tensor_sub_cpu Z B w) ∧
  call_op (S fuel) webgpu_tensor_mul_fn Z B w = Done (tensor_mul_cpu Z B w) ∧
  call_op (S fuel) webgpu_tensor_matmul_fn Z B w = Done (tensor_matmul_cpu Z B w) ∧
  call_op (S fuel) webgpu_tensor_softmax_fn Z None w = Done (tensor_softmax_cpu Z w).
Proof.
  intros w. destruct (torn_down_resolves h) as (Hnr & Hrelu & Hsig & Htanh).
  fold w in Hnr, Hrelu, Hsig, Htanh. clearbody w.
  destruct (unary_fallback_loops w Z Hnr Hrelu Hsig Htanh fuel) as (H1 & H2 & H3).
  destruct (guard_delegates w Z B fuel) as [Hg _].
  destruct (Hg Hnr) as (Hsub & Hmul & Hmat & _ & _).
  destruct (guard_delegates w Z None fuel) as [Hg' _].
  destruct (Hg' Hnr) as (_ & _ & _ & Hsm & _).
  repeat split; assumption.
Qed.

(** Before any backend is registered the fallback of the unary operations
    does end in the reference implementation. *)
Lemma unary_fallback_unregistered (w : World F) (Z : option nat) fuel :
  not_ready w → get_operation_fn (operation_registry w) "relu" = None →
  call_op (S fuel) webgpu_tensor_relu_fn Z None w = Done (tensor_relu_cpu Z w).
Proof.
  intros Hnr Hreg. simpl. unfold elementwise_unary_op, dispatch_unary.
  rewrite Hreg. destruct Z; by rewrite ?decide_True.
Qed.

(** ** Exceeding the budget when reading back *)

Lemma read_buffer_exceeds (env : ReadEnv F) c b d size :
  webgpu_available c ≠ 0 →
  (MAP_BUDGET ≤ poll (map_request env) MAP_BUDGET)%nat →
  webgpu_read_buffer env c (Some b) (Some d) size
  = (Some d, ["Timeout waiting for buffer map!"%string]).
Proof.
  intros Hav Hex. unfold webgpu_read_buffer.
  rewrite decide_False by done. by rewrite decide_True.
Qed.


End OpsFacts.


(** ** Registering the accelerated operations *)

Lemma register_operation_backend_same {OpFn} (reg : Registry (OperationRegistryEntry OpFn))
    name fn prio :
  registry_wf reg →
  registry_get (register_operation_backend reg name fn prio) name
  = match registry_get reg name with
    | Some e => if decide (priority e < prio)
                then Some {| op_fn := fn; priority := prio |} else Some e
    | None => Some {| op_fn := fn; priority := prio |}
    end.
Proof.
  intros Hwf. unfold register_operation_backend.
  destruct (registry_get reg name) as [e|] eqn:He.
  - case_bool_decide; case_decide; try lia.
    + by apply RegistryFacts.registry_get_set_eq.
    + done.
  - by apply RegistryFacts.registry_get_set_eq.
Qed.

(** Registrations under different names do not see each other. *)
Lemma run_registrations_distinct {OpFn} (calls : list (string * OpFn))
    (reg : Registry (OperationRegistryEntry OpFn)) prio name :
  registry_wf reg → NoDup calls.*1 →
  registry_get (run_registrations ((λ c, (c.1, Some c.2, prio)) <$> calls) reg) name
  = match list_find (λ c, c.1 = name) calls with
    | Some (_, c) =>
        registry_get (register_operation_backend reg name (Some c.2) prio) name
    | None => registry_get reg name
    end.
Proof.
  intros Hwf. revert reg Hwf. induction calls as [|[n f] calls IH]; intros reg Hwf Hnd.
  - done.
  - apply NoDup_cons in Hnd as [Hn Hnd]. simpl.
    rewrite IH by (done || by apply RegistryFacts.register_operation_backend_wf).
    destruct (decide (n = name)) as [->|Hne]; simpl.
    + destruct (list_find (λ c, c.1 = name) calls) as [[i c]|] eqn:Hfind; [|done].
      apply list_find_Some in Hfind as (Hi & Hc & _). exfalso. apply Hn.
      rewrite <- Hc. apply list_elem_of_fmap. exists c. split; [done|].
      by eapply list_elem_of_lookup_2.
    + destruct (list_find (λ c, c.1 = name) calls) as [[i c]|] eqn:Hfind; simpl.
      * apply list_find_Some in Hfind as (Hi & Hc & _).
        rewrite !register_operation_backend_same
          by (done || by apply RegistryFacts.register_operation_backend_wf).
        by rewrite RegistryFacts.register_operation_backend_other.
      * by apply RegistryFacts.register_operation_backend_other.
Qed.

Lemma webgpu_register_ops_runs c reg :
  webgpu_available c ≠ 0 →
  webgpu_register_ops c reg
  = run_registrations ((λ c, (c.1, Some c.2, 10)) <$> webgpu_ops) reg.
Proof. intros Hav. unfold webgpu_register_ops. by rewrite decide_False. Qed.

Lemma webgpu_register_ops_wf c reg :
  registry_wf reg → registry_wf (webgpu_register_ops c reg).
Proof.
  intros Hwf. unfold webgpu_register_ops. case_decide; [done|].
  by repeat apply RegistryFacts.register_operation_backend_wf.
Qed.

Lemma webgpu_ops_NoDup : NoDup webgpu_ops.*1.
Proof. apply (bool_decide_unpack _). by vm_compute. Qed.

Lemma webgpu_register_ops_get c reg name :
  registry_wf reg → webgpu_available c ≠ 0 →
  registry_get (webgpu_register_ops c reg) name
  = match list_find (λ c, c.1 = name) webgpu_ops with
    | Some (_, op) =>
        match registry_get reg name with
        | Some e => if decide (priority e < 10)
                    then Some {| op_fn := Some op.2; priority := 10 |} else Some e
        | None => Some {| op_fn := Some op.2; priority := 10 |}
        end
    | None => registry_get reg name
    end.
Proof.
  intros Hwf Hav. rewrite webgpu_register_ops_runs by done.
  rewrite run_registrations_distinct by (done || apply webgpu_ops_NoDup).
  destruct (list_find (λ c, c.1 = name) webgpu_ops) as [[i op]|]; [|done].
  by apply register_operation_backend_same.
Qed.

Lemma webgpu_init_device_dichotomy env i a log :
  let '(status, c', _) :=
    webgpu_init_device env
      {| instance := Some i; adapter := Some a; device := None; queue := None;
         initialized := 0 |} log in
  (status = 0 ∧ initialized c' = 1) ∨ (status = -1 ∧ c' = g_webgpu_ctx).
Proof.
  unfold webgpu_init_device.
  pose proof (poll_answered (request_device env) 1000) as Hd.
  destruct (answered (request_device env) 1000) as [[d|]|].
  - destruct Hd as (Hlt & -> & ->). rewrite decide_False by lia.
    destruct (get_queue env); simpl; [by left|by right].
  - destruct Hd as (Hlt & -> & ->). rewrite decide_False by lia. by right.
  - rewrite decide_True by done. by right.
Qed.

Lemma webgpu_init_dichotomy env :
  let '(status, c', _) := webgpu_init env g_webgpu_ctx in
  (status = 0 ∧ initialized c' = 1) ∨ (status = -1 ∧ c' = g_webgpu_ctx).
Proof.
  unfold webgpu_init.
  rewrite decide_False by (simpl; lia). simpl.
  destruct (create_instance env) as [i|]; [|by right].
  pose proof (poll_answered (metal_adapter env) 1000) as Hm.
  pose proof (poll_answered (fallback_adapter env) 1000) as Hf.
  destruct (answered (metal_adapter env) 1000) as [[a|]|].
  - destruct Hm as (Hlt & -> & ->). rewrite decide_False by lia.
    apply (webgpu_init_device_dichotomy env i a).
  - destruct Hm as (Hlt & -> & ->). rewrite decide_False by lia.
    destruct (answered (fallback_adapter env) 1000) as [[a|]|].
    + destruct Hf as (Hltf & -> & ->). rewrite decide_False by lia.
      apply (webgpu_init_device_dichotomy env i a).
    + destruct Hf as (Hltf & -> & ->). rewrite decide_False by lia. by right.
    + rewrite decide_True by done. by right.
  - rewrite decide_True by done. by right.
Qed.

(** X14. [webgpu_register_ops] and [backend_init_all]. Without a session
    the registry is left as it is. With one, each of the eight names
    resolves to its accelerated function unless the name was already
    registered with a priority of 10 or more, in which case that entry
    stays; no other name is affected; and registering a second time changes
    nothing. [backend_init_all] from program start either brings the session
    up and registers, or leaves both the context and the registry as they
    were. *)
Theorem webgpu_register_ops_result c (reg : Registry (OperationRegistryEntry OpImpl)) :
  registry_wf reg →
  (webgpu_available c = 0 → webgpu_register_ops c reg = reg) ∧
  (webgpu_available c ≠ 0 →
   (∀ name fn, (name, fn) ∈ webgpu_ops →
      (∀ e, registry_get reg name = Some e → priority e < 10) →
      get_operation_fn (webgpu_register_ops c reg) name = Some fn) ∧
   (∀ name e, registry_get reg name = Some e → 10 ≤ priority e →
      registry_get (webgpu_register_ops c reg) name = Some e) ∧
   (∀ name, name ∉ webgpu_ops.*1 →
      registry_get (webgpu_register_ops c reg) name = registry_get reg name) ∧
   (∀ name, registry_get (webgpu_register_ops c (webgpu_register_ops c reg)) name
            = registry_get (webgpu_register_ops c reg) name)) ∧
  (∀ env,
     let '(c', reg') := backend_init_all env g_webgpu_ctx reg in
     (c' = g_webgpu_ctx ∧ reg' = reg) ∨
     (initialized c' = 1 ∧ reg' = webgpu_register_ops c' reg)).
Proof.
  intros Hwf. split; [|split].
  - intros Hav. unfold webgpu_register_ops. by rewrite decide_True.
  - intros Hav. split; [|split; [|split]].
    + intros name fn Hin Hlow. unfold get_operation_fn.
      rewrite webgpu_register_ops_get by done.
      destruct (list_find (λ c, c.1 = name) webgpu_ops) as [[i op]|] eqn:Hfind.
      * apply list_find_Some in Hfind as (Hi & Hname & _).
        assert (op = (name, fn)) as ->.
        { apply list_elem_of_lookup_2 in Hi. destruct op as [n f]. simpl in Hname.
          subst n. f_equal.
          assert (∀ x y, (name, x) ∈ webgpu_ops → (name, y) ∈ webgpu_ops → x = y) as Hfun.
          { intros x y Hx Hy. pose proof webgpu_ops_NoDup as Hnd.
            apply list_elem_of_lookup in Hx as [ix Hx], Hy as [iy Hy].
            assert (ix = iy) as ->.
            { apply (NoDup_lookup _ _ _ name Hnd);
                rewrite list_lookup_fmap; [by rewrite Hx|by rewrite Hy]. }
            congruence. }
          by apply Hfun. }
        destruct (registry_get reg name) as [e|] eqn:He; [|done].
        rewrite decide_True by by apply Hlow. done.
      * exfalso. apply list_find_None in Hfind.
        rewrite Forall_forall in Hfind. by apply (Hfind (name, fn)).
    + intros name e He Hhigh. rewrite webgpu_register_ops_get by done.
      rewrite He. destruct (list_find _ _) as [[i op]|]; [|done].
      by rewrite decide_False by lia.
    + intros name Hout. rewrite webgpu_register_ops_get by done.
      destruct (list_find (λ c, c.1 = name) webgpu_ops) as [[i op]|] eqn:Hfind; [|done].
      apply list_find_Some in Hfind as (Hi & Hname & _). exfalso. apply Hout.
      rewrite <- Hname. apply list_elem_of_fmap. exists op. split; [done|].
      by eapply list_elem_of_lookup_2.
    + intros name.
      rewrite (webgpu_register_ops_get c (webgpu_register_ops c reg))
        by (done || by apply webgpu_register_ops_wf).
      rewrite webgpu_register_ops_get by done.
      destruct (list_find (λ c, c.1 = name) webgpu_ops) as [[i op]|]; [|done].
      destruct (registry_get reg name) as [e|]; [|done].
      case_decide; simpl; [done|]. by rewrite decide_False.
  - intros env. unfold backend_init_all.
    pose proof (webgpu_init_dichotomy env) as Hd.
    destruct (webgpu_init env g_webgpu_ctx) as [[status c'] log].
    destruct Hd as [[-> Hc]|[-> ->]].
    + rewrite decide_True by done. by right.
    + rewrite decide_False by done. by left.
Qed.

(** After a function was registered for [add] with the default priority 0
    and one for [relu] with priority 20. *)
Lemma webgpu_register_ops_result_witness :
  let reg :=
    register_operation_backend
      (register_operation registry_empty "add" (Some webgpu_tensor_sub_fn))
      "relu" (Some webgpu_tensor_tanh_fn) 20 in
  webgpu_register_ops g_webgpu_ctx reg = reg ∧
  get_operation_fn (webgpu_register_ops ready_ctx reg) "add" = Some webgpu_tensor_add_fn ∧
  registry_get (webgpu_register_ops ready_ctx reg) "relu"
  = Some {| op_fn := Some webgpu_tensor_tanh_fn; priority := 20 |} ∧
  registry_get (webgpu_register_ops ready_ctx reg) "linear" = registry_get reg "linear" ∧
  registry_get (webgpu_register_ops ready_ctx (webgpu_register_ops ready_ctx reg)) "add"
  = registry_get (webgpu_register_ops ready_ctx reg) "add" ∧
  let '(c', reg') := backend_init_all granting g_webgpu_ctx reg in
  (c' = g_webgpu_ctx ∧ reg' = reg) ∨
  (initialized c' = 1 ∧ reg' = webgpu_register_ops c' reg).
Proof.
  intros reg.
  assert (registry_wf reg) as Hwf by reflexivity.
  destruct (webgpu_register_ops_result g_webgpu_ctx reg Hwf) as (Hoff & _ & _).
  destruct (webgpu_register_ops_result ready_ctx reg Hwf) as (_ & Hon & Hall).
  assert (webgpu_available ready_ctx ≠ 0) as Hav by discriminate.
  destruct (Hon Hav) as (Hops & Hkeep & Hother & Hidem).
  split; [apply Hoff; reflexivity|]. split; [|split; [|split; [|split]]].
  - apply Hops; [by left|]. intros e He. vm_compute in He. injection He as <-.
    reflexivity.
  - apply Hkeep; [by vm_compute|]. simpl. lia.
  - apply Hother. intros Hin.
    repeat (apply elem_of_cons in Hin as [Hin|Hin]; [discriminate|]).
    by apply elem_of_nil in Hin.
  - apply Hidem.
  - apply (Hall granting).
Defined.

(** ** Reading back *)

Section ReadFacts.
Context {F : Type}.

Lemma memcpy_cells (d mapped : list F) size :
  (size ≤ length mapped)%nat → (size ≤ length d)%nat →
  length (memcpy d mapped size) = length d ∧
  (∀ i, (i < size)%nat → memcpy d mapped size !! i = mapped !! i) ∧
  (∀ i, (size ≤ i)%nat → memcpy d mapped size !! i = d !! i).
Proof.
  intros Hm Hd. unfold memcpy.
  assert (length (take size mapped) = size) as Hlen by (rewrite length_take; lia).
  split; [|split].
  - rewrite length_app, length_drop, Hlen. lia.
  - intros i Hi. rewrite lookup_app_l by lia. by rewrite lookup_take_lt.
  - intros i Hi. rewrite lookup_app_r by lia. rewrite Hlen, lookup_drop.
    f_equal. lia.
Qed.

(** X13. [webgpu_read_buffer]. With a null buffer, a null destination or no
    session it does nothing. Otherwise, when the map callback runs in fewer
    than ten thousand polls and the mapped range is not null, the first
    [size] cells of the destination become those of the mapped range and the
    rest of the destination is kept; when the callback runs at the ten
    thousandth poll or later the timeout line is written and the
    destination is kept whole, also when the callback of the ten thousandth
    poll has set the flag by the time the loop is left. *)
Theorem webgpu_read_buffer_result (env : ReadEnv F) c buffer data size :
  (buffer = None ∨ data = None ∨ webgpu_available c = 0 →
   webgpu_read_buffer env c buffer data size = (data, [])) ∧
  (∀ b d mapped n,
     buffer = Some b → data = Some d → webgpu_available c ≠ 0 →
     map_fires_after env = Some n → mapped_range env = Some mapped →
     (size ≤ length mapped)%nat → (size ≤ length d)%nat →
     ((n < MAP_BUDGET)%nat →
      ∃ d', webgpu_read_buffer env c buffer data size = (Some d', []) ∧
        length d' = length d ∧
        (∀ i, (i < size)%nat → d' !! i = mapped !! i) ∧
        (∀ i, (size ≤ i)%nat → d' !! i = d !! i)) ∧
     ((MAP_BUDGET ≤ n)%nat →
      webgpu_read_buffer env c buffer data size
      = (Some d, ["Timeout waiting for buffer map!"%string]) ∧
      (n = MAP_BUDGET →
       done_flag (map_request env) (poll (map_request env) MAP_BUDGET) = true))).
Proof.
  split.
  - intros Hguard. unfold webgpu_read_buffer.
    destruct buffer as [b|], data as [d|]; try done.
    destruct Hguard as [?|[?|Hav]]; try done. by rewrite decide_True.
  - intros b d mapped n -> -> Hav Hn Hmapped Hm Hd.
    unfold webgpu_read_buffer. rewrite decide_False by done.
    rewrite poll_spec. simpl. rewrite Hn, Hmapped. split.
    + intros Hlt. rewrite Nat.min_l by lia. rewrite decide_False by lia.
      destruct (memcpy_cells d mapped size Hm Hd) as (Hlen & Hnew & Hold).
      by exists (memcpy d mapped size).
    + intros Hge. rewrite Nat.min_r by lia. rewrite decide_True by lia.
      split; [done|]. intros ->. unfold done_flag. simpl. rewrite Hn.
      by rewrite bool_decide_true.
Qed.

End ReadFacts.

(** A read back answered at the third poll, and one answered at the ten
    thousandth. *)
Lemma webgpu_read_buffer_result_witness :
  webgpu_read_buffer {| map_fires_after := Some 3%nat; mapped_range := Some [7; 8; 9] |}
    g_webgpu_ctx (Some 5%nat) (Some [1; 2; 3; 4]) 2 = (Some [1; 2; 3; 4], []) ∧
  (∃ d', webgpu_read_buffer {| map_fires_after := Some 3%nat; mapped_range := Some [7; 8; 9] |}
           ready_ctx (Some 5%nat) (Some [1; 2; 3; 4]) 2 = (Some d', []) ∧
     length d' = 4%nat ∧
     (∀ i, (i < 2)%nat → d' !! i = [7; 8; 9] !! i) ∧
     (∀ i, (2 ≤ i)%nat → d' !! i = [1; 2; 3; 4] !! i)) ∧
  webgpu_read_buffer {| map_fires_after := Some MAP_BUDGET; mapped_range := Some [7; 8; 9] |}
    ready_ctx (Some 5%nat) (Some [1; 2; 3; 4]) 2
  = (Some [1; 2; 3; 4], ["Timeout waiting for buffer map!"%string]).
Proof.
  split; [|split].
  - apply (webgpu_read_buffer_result
             {| map_fires_after := Some 3%nat; mapped_range := Some [7; 8; 9] |}
             g_webgpu_ctx (Some 5%nat) (Some [1; 2; 3; 4]) 2).
    right. right. reflexivity.
  - destruct (webgpu_read_buffer_result
                {| map_fires_after := Some 3%nat; mapped_range := Some [7; 8; 9] |}
                ready_ctx (Some 5%nat) (Some [1; 2; 3; 4]) 2) as [_ Hread].
    destruct (Hread 5%nat [1; 2; 3; 4] [7; 8; 9] 3%nat) as [Hcopy _];
      [reflexivity|reflexivity|done|reflexivity|reflexivity|simpl; lia|simpl; lia|].
    apply Hcopy. unfold MAP_BUDGET. lia.
  - destruct (webgpu_read_buffer_result
                {| map_fires_after := Some MAP_BUDGET; mapped_range := Some [7; 8; 9] |}
                ready_ctx (Some 5%nat) (Some [1; 2; 3; 4]) 2) as [_ Hread].
    destruct (Hread 5%nat [1; 2; 3; 4] [7; 8; 9] MAP_BUDGET) as [_ Hlate];
      [reflexivity|reflexivity|done|reflexivity|reflexivity|simpl; lia|simpl; lia|].
    apply Hlate. lia.
Defined.

End WebGPUFacts.
